(** * monetha/go-ethereum: nonce-tracking backend, block source, gas-price
    estimator and receipt batching.

    A shallow embedding of the Go sources and the properties proved of
    them.  Go integers of fixed width are integers [Z] with the wrap-around
    written where the source can overflow; [*big.Int] is [option Z] ([None]
    is the nil pointer); a Go [error] is [option Error] ([None] is nil);
    [map[common.Address]uint64] is a [gmap].  A method that calls a
    collaborator threads that collaborator's state explicitly. *)

From Stdlib Require Import ZArith Lia String List Sorted.
From stdpp Require Import gmap list pretty.

Open Scope Z_scope.

(** Go's [error] values.  [ErrNotFound] is the package-level sentinel
    [ethereum.ErrNotFound]; every other error is a message. *)
Inductive Error : Type :=
| ErrNotFound
| ErrorString (msg : string).

Abbreviation error := (option Error) (only parsing).
Abbreviation bigInt := (option Z) (only parsing).
Abbreviation Address := N (only parsing).
Abbreviation Hash := N (only parsing).

(** [uint64] arithmetic wraps modulo 2^64. *)
Definition uint64_max : Z := 2 ^ 64 - 1.
Definition wrap_uint64 (z : Z) : Z := z mod 2 ^ 64.

(** * Package backend *)
Module backend.

(** [types.Transaction] of go-ethereum, as far as this package reads it:
    [Nonce] is [tx.Nonce()], a uint64; [Sender] is the pair returned by
    [types.Sender(types.NewEIP155Signer(tx.ChainId()), tx)], which the
    signature of the transaction determines. *)
Record Transaction : Type := mkTransaction {
  Nonce : Z;
  Sender : Address * error
}.

Section Interface.
Context {CallMsg FilterQuery Receipt Log LogChan Subscription : Type}.

(** The [Backend] interface.  A method takes the state of the receiver and
    returns the new state with the Go results; the [context.Context]
    argument, which every method only hands on, is left out. *)
Class Backend (B : Type) : Type := {
  CodeAt : B -> Address -> bigInt -> B * (list Byte.byte * error);
  CallContract : B -> CallMsg -> bigInt -> B * (list Byte.byte * error);
  PendingCodeAt : B -> Address -> B * (list Byte.byte * error);
  PendingNonceAt : B -> Address -> B * (Z * error);
  SuggestGasPrice : B -> B * (bigInt * error);
  EstimateGas : B -> CallMsg -> B * (Z * error);
  SendTransaction : B -> Transaction -> B * error;
  TransactionReceipt : B -> Hash -> B * (option Receipt * error);
  BalanceAt : B -> Address -> bigInt -> B * (bigInt * error);
  FilterLogs : B -> FilterQuery -> B * (list Log * error);
  SubscribeFilterLogs : B -> FilterQuery -> LogChan -> B * (option Subscription * error);
  TransactionByHash : B -> Hash -> B * (option Transaction * bool * error)
}.

Context {B : Type} `{!Backend B}.

(** [type HandleNonceBackend struct { inner Backend; addressNonce map[common.Address]uint64 }] *)
Record HandleNonceBackend : Type := mkHandleNonceBackend {
  inner : B;
  addressNonce : gmap N Z
}.

Definition set_inner (b : HandleNonceBackend) (i : B) : HandleNonceBackend :=
  {| inner := i; addressNonce := addressNonce b |}.

Definition set_addressNonce (b : HandleNonceBackend) (m : gmap N Z) : HandleNonceBackend :=
  {| inner := inner b; addressNonce := m |}.

(** [NewHandleNonceBackend]: every handled address starts at nonce 0.  The
    [simBackend] wrapper returned when the inner backend can also
    [Commit] and [Rollback] forwards each [Backend] method to this value
    unchanged, so it is not modelled apart. *)
Definition NewHandleNonceBackend (inner0 : B) (handleAddresses : list Address) : HandleNonceBackend :=
  {| inner := inner0;
     addressNonce := fold_left (fun m address => <[address := 0]> m) handleAddresses ∅ |}.

(** [func (b *HandleNonceBackend) PendingNonceAt] *)
Definition HandleNonceBackend_PendingNonceAt (b : HandleNonceBackend) (account : Address)
  : HandleNonceBackend * (Z * error) :=
  let '(inner', (nonce, err)) := PendingNonceAt (inner b) account in
  let b := set_inner b inner' in
  match err with
  | Some _ => (b, (nonce, err))
  | None =>
      match addressNonce b !! account with
      | None => (b, (nonce, err))
      | Some innerNonce =>
          if nonce >? innerNonce
          then (set_addressNonce b (<[account := nonce]> (addressNonce b)), (nonce, err))
          else (b, (innerNonce, err))
      end
  end.

(** [func (b *HandleNonceBackend) incrementNonce] *)
Definition incrementNonce (b : HandleNonceBackend) (tx : Transaction) : HandleNonceBackend :=
  let '(from, err) := Sender tx in
  match err with
  | Some _ => b
  | None =>
      match addressNonce b !! from with
      | None => b
      | Some innerNonce =>
          let nonce := wrap_uint64 (Nonce tx + 1) in
          if nonce >? innerNonce
          then set_addressNonce b (<[from := nonce]> (addressNonce b))
          else b
      end
  end.

(** [func (b *HandleNonceBackend) SendTransaction] *)
Definition HandleNonceBackend_SendTransaction (b : HandleNonceBackend) (tx : Transaction)
  : HandleNonceBackend * error :=
  let '(inner', err) := SendTransaction (inner b) tx in
  let b := set_inner b inner' in
  match err with
  | Some _ => (b, err)
  | None => (incrementNonce b tx, err)
  end.

(** The remaining methods return what the inner backend returns. *)
Definition forward {R : Type} (b : HandleNonceBackend) (call : B -> B * R) : HandleNonceBackend * R :=
  let '(inner', r) := call (inner b) in (set_inner b inner', r).

Definition HandleNonceBackend_CodeAt (b : HandleNonceBackend) (contract : Address) (blockNumber : bigInt) :=
  forward b (fun i => CodeAt i contract blockNumber).
Definition HandleNonceBackend_CallContract (b : HandleNonceBackend) (call : CallMsg) (blockNumber : bigInt) :=
  forward b (fun i => CallContract i call blockNumber).
Definition HandleNonceBackend_PendingCodeAt (b : HandleNonceBackend) (account : Address) :=
  forward b (fun i => PendingCodeAt i account).
Definition HandleNonceBackend_SuggestGasPrice (b : HandleNonceBackend) :=
  forward b (fun i => SuggestGasPrice i).
Definition HandleNonceBackend_EstimateGas (b : HandleNonceBackend) (call : CallMsg) :=
  forward b (fun i => EstimateGas i call).
Definition HandleNonceBackend_TransactionReceipt (b : HandleNonceBackend) (txHash : Hash) :=
  forward b (fun i => TransactionReceipt i txHash).
Definition HandleNonceBackend_BalanceAt (b : HandleNonceBackend) (address : Address) (blockNum : bigInt) :=
  forward b (fun i => BalanceAt i address blockNum).
Definition HandleNonceBackend_FilterLogs (b : HandleNonceBackend) (query : FilterQuery) :=
  forward b (fun i => FilterLogs i query).
Definition HandleNonceBackend_SubscribeFilterLogs (b : HandleNonceBackend) (query : FilterQuery) (ch : LogChan) :=
  forward b (fun i => SubscribeFilterLogs i query ch).
Definition HandleNonceBackend_TransactionByHash (b : HandleNonceBackend) (txHash : Hash) :=
  forward b (fun i => TransactionByHash i txHash).

(** A call of one of the twelve methods of the decorator, and the effect
    of a sequence of calls made one after the other. *)
Inductive Call : Type :=
| CallCodeAt (contract : Address) (blockNumber : bigInt)
| CallCallContract (call : CallMsg) (blockNumber : bigInt)
| CallPendingCodeAt (account : Address)
| CallPendingNonceAt (account : Address)
| CallSuggestGasPrice
| CallEstimateGas (call : CallMsg)
| CallSendTransaction (tx : Transaction)
| CallTransactionReceipt (txHash : Hash)
| CallBalanceAt (address : Address) (blockNum : bigInt)
| CallFilterLogs (query : FilterQuery)
| CallSubscribeFilterLogs (query : FilterQuery) (ch : LogChan)
| CallTransactionByHash (txHash : Hash).

Definition exec (c : Call) (b : HandleNonceBackend) : HandleNonceBackend :=
  match c with
  | CallCodeAt contract blockNumber => (HandleNonceBackend_CodeAt b contract blockNumber).1
  | CallCallContract call blockNumber => (HandleNonceBackend_CallContract b call blockNumber).1
  | CallPendingCodeAt account => (HandleNonceBackend_PendingCodeAt b account).1
  | CallPendingNonceAt account => (HandleNonceBackend_PendingNonceAt b account).1
  | CallSuggestGasPrice => (HandleNonceBackend_SuggestGasPrice b).1
  | CallEstimateGas call => (HandleNonceBackend_EstimateGas b call).1
  | CallSendTransaction tx => (HandleNonceBackend_SendTransaction b tx).1
  | CallTransactionReceipt txHash => (HandleNonceBackend_TransactionReceipt b txHash).1
  | CallBalanceAt address blockNum => (HandleNonceBackend_BalanceAt b address blockNum).1
  | CallFilterLogs query => (HandleNonceBackend_FilterLogs b query).1
  | CallSubscribeFilterLogs query ch => (HandleNonceBackend_SubscribeFilterLogs b query ch).1
  | CallTransactionByHash txHash => (HandleNonceBackend_TransactionByHash b txHash).1
  end.

Definition run (calls : list Call) (b : HandleNonceBackend) : HandleNonceBackend :=
  fold_left (fun b c => exec c b) calls b.

(** What the successful [PendingNonceAt(A)] calls of a sequence observe, in
    order: the nonce the inner backend reported at that call, and the nonce
    the decorator returned. *)
Fixpoint nonceObservations (A : Address) (calls : list Call) (b : HandleNonceBackend) : list (Z * Z) :=
  match calls with
  | [] => []
  | c :: rest =>
      let later := nonceObservations A rest (exec c b) in
      match c with
      | CallPendingNonceAt account =>
          if decide (account = A) then
            match (PendingNonceAt (inner b) account).2, (HandleNonceBackend_PendingNonceAt b account).2 with
            | (innerValue, None), (returned, None) => (innerValue, returned) :: later
            | _, _ => later
            end
          else later
      | _ => later
      end
  end.

(** The order on nonce tables: every entry of [m] is still there in [m'],
    with a nonce at least as large. *)
Definition watermarks_le (m m' : gmap N Z) : Prop :=
  forall (A : Address) (w : Z), m !! A = Some w -> exists w', m' !! A = Some w' /\ w <= w'.

End Interface.

Arguments HandleNonceBackend B : clear implicits.
Arguments Call CallMsg FilterQuery LogChan : clear implicits.

(** The test double of backend_test.go: [PendingNonceAt] and
    [SendTransaction] answer through the function fields, the other methods
    return nil results. *)
Record backendMock : Type := mkBackendMock {
  PendingNonceAtFunc : Address -> Z * error;
  SendTransactionFunc : Transaction -> error
}.

#[global] Instance backendMock_Backend :
  @Backend unit unit unit unit unit unit backendMock := {|
  CodeAt m _ _ := (m, ([], None));
  CallContract m _ _ := (m, ([], None));
  PendingCodeAt m _ := (m, ([], None));
  PendingNonceAt m account := (m, PendingNonceAtFunc m account);
  SuggestGasPrice m := (m, (None, None));
  EstimateGas m _ := (m, (0, None));
  SendTransaction m tx := (m, SendTransactionFunc m tx);
  TransactionReceipt m _ := (m, (None, None));
  BalanceAt m _ _ := (m, (None, None));
  FilterLogs m _ := (m, ([], None));
  SubscribeFilterLogs m _ _ := (m, (None, None));
  TransactionByHash m _ := (m, (None, false, None))
|}.

End backend.

(** The text of an error, as [%v] prints it. *)
Definition Error_text (e : Error) : string :=
  match e with
  | ErrNotFound => "not found"
  | ErrorString msg => msg
  end.

(** [fmt.Errorf(prefix + ": %v", err)] *)
Definition Errorf (prefix : string) (e : Error) : Error :=
  ErrorString (prefix ++ ": " ++ Error_text e).

(** * Package client *)
Module client.

(** [func (c *Client) BlockNumber], given the outcome of the
    [eth_blockNumber] call: nil and a wrapped error, or the number. *)
Definition BlockNumber (reply : Z + Error) : bigInt * error :=
  match reply with
  | inr err => (None, Some (Errorf "eth_blockNumber" err))
  | inl number => (Some number, None)
  end.

(** [ethereum.Transaction]: the hash, which the receipt request names, and
    the three fields filled from the receipt.  The fields copied from the
    block reply take no part in what follows. *)
Record Transaction : Type := mkTransaction {
  Hash : N;
  GasUsed : bigInt;
  Status : option Z;
  ContractAddress : option N
}.

Record rpcReceipt : Type := mkRpcReceipt {
  rcpt_Status : option Z;
  rcpt_ContractAddress : option N;
  rcpt_GasUsed : bigInt
}.

(** [rpc.BatchElem], split in what the client sends ([Method], [Args]) and
    what the call leaves in it ([Error], and the value stored through
    [Result], nil when there is none). *)
Record BatchElem : Type := mkBatchElem {
  Method : string;
  Args : list N
}.

Record BatchReply : Type := mkBatchReply {
  Error_ : error;
  Result : option rpcReceipt
}.

(** The RPC connection: [BatchCallContext] answers a batch with one reply
    per element and an error for the call as a whole. *)
Class BatchCaller (R : Type) : Type := {
  BatchCallContext : R -> list BatchElem -> R * (list BatchReply * error)
}.

(** The outcome of a Go function that can panic or, in this model, be cut
    short by the bound on its loop. *)
Inductive Outcome (A : Type) : Type :=
| Returns (a : A)
| Panics (msg : string)
| OutOfFuel.
Arguments Returns {A} a.
Arguments Panics {A} msg.
Arguments OutOfFuel {A}.

(** [txs[i:end]] *)
Definition slice {T : Type} (txs : list T) (i j : nat) : list T :=
  take (j - i) (drop i txs).

(** The loop of [chunkTransactions]: [for i := 0; i < txsLen; i += chunkSize].
    The indices are natural numbers: a slice of pointers has fewer than
    2^60 elements, so [i + chunkSize] stays within [int] for the chunk size
    of the client. *)
Fixpoint chunkLoop {T : Type} (fuel : nat) (txs : list T) (chunkSize i : nat)
    (chunks : list (list T)) : Outcome (list (list T)) :=
  if (i <? length txs)%nat then
    match fuel with
    | O => OutOfFuel
    | S fuel =>
        let end_ := (i + chunkSize)%nat in
        let end_ := if (length txs <? end_)%nat then length txs else end_ in
        chunkLoop fuel txs chunkSize (i + chunkSize) (chunks ++ [slice txs i end_])
    end
  else Returns chunks.

(** [func chunkTransactions]; the loop is given as many turns as there are
    transactions. *)
Definition chunkTransactions {T : Type} (txs : list T) (chunkSize : Z) : Outcome (list (list T)) :=
  if chunkSize <=? 0 then Panics "chunk size must be positive number"
  else chunkLoop (length txs) txs (Z.to_nat chunkSize) 0 [].

Definition receiptRequest (tx : Transaction) : BatchElem :=
  {| Method := "eth_getTransactionReceipt"; Args := [Hash tx] |}.

(** The batch of requests for a chunk, and for each of a list of chunks. *)
Definition chunkRequests (chunkTxs : list Transaction) : list BatchElem :=
  receiptRequest <$> chunkTxs.

Definition batchesOf (chunks : list (list Transaction)) : list (list BatchElem) :=
  chunkRequests <$> chunks.

(** Lines 98-107: [reqs[i]] asks for the receipt of [btxs[globalIdx]] and
    points its result at [receipts[globalIdx]], [globalIdx] being
    [chunkOffset + i]; [None] is the panic of an index out of range. *)
Definition buildReqs (btxs : list Transaction) (receipts : list (option rpcReceipt))
    (chunkOffset chunkLen : nat) : option (list BatchElem) :=
  mapM (fun i =>
          let globalIdx := (chunkOffset + i)%nat in
          match receipts !! globalIdx with
          | Some _ => receiptRequest <$> btxs !! globalIdx
          | None => None
          end)
       (seq 0 chunkLen).

(** The call stores the result of each reply through the pointer of its
    request, the first at [receipts[globalIdx]]. *)
Fixpoint storeResults (receipts : list (option rpcReceipt)) (globalIdx : nat)
    (replies : list BatchReply) : list (option rpcReceipt) :=
  match replies with
  | [] => receipts
  | reply :: replies => storeResults (<[globalIdx := Result reply]> receipts) (S globalIdx) replies
  end.

(** Lines 115-124: the first request with an error, or with no receipt,
    ends the retrieval; [todo] requests are left to look at, the next one
    being [reqs[i]].  The outer [None] is the panic of an index out of
    range. *)
Fixpoint validate (receipts : list (option rpcReceipt)) (replies : list BatchReply)
    (blockNumber : Z) (globalIdx : nat) (todo : nat) (i : nat) : option error :=
  match todo with
  | O => Some None
  | S todo =>
      match Error_ <$> replies !! i with
      | Some (Some e) =>
          Some (Some (ErrorString ("request error for transaction " ++ pretty globalIdx ++
                                   " of block " ++ pretty blockNumber ++ ": " ++ Error_text e)))
      | _ =>
          match receipts !! globalIdx with
          | None => None
          | Some None =>
              Some (Some (ErrorString ("got null receipt for transaction " ++ pretty globalIdx ++
                                       " of block " ++ pretty blockNumber)))
          | Some (Some _) => validate receipts replies blockNumber (S globalIdx) todo (S i)
          end
      end
  end.

Section WithRpc.
Context {R : Type} `{!BatchCaller R}.

(** Lines 95-127: one batch call per chunk.  The result carries the
    batches sent so far; the outer [None] is a panic. *)
Fixpoint loadChunks (rpc : R) (btxs : list Transaction) (blockNumber : Z)
    (chunks : list (list Transaction)) (chunkOffset : nat)
    (receipts : list (option rpcReceipt)) (sent : list (list BatchElem))
  : option (R * list (list BatchElem) * (list (option rpcReceipt) + Error)) :=
  match chunks with
  | [] => Some (rpc, sent, inl receipts)
  | chunkTxs :: chunks =>
      let chunkLen := length chunkTxs in
      match buildReqs btxs receipts chunkOffset chunkLen with
      | None => None
      | Some reqs =>
          let '(rpc, (replies, err)) := BatchCallContext rpc reqs in
          let sent := sent ++ [reqs] in
          match err with
          | Some e =>
              Some (rpc, sent,
                    inr (ErrorString ("getting transaction receipts (offset: " ++ pretty chunkOffset ++
                                      ", len: " ++ pretty chunkLen ++ "): " ++ Error_text e)))
          | None =>
              let receipts := storeResults receipts chunkOffset (take chunkLen replies) in
              match validate receipts replies blockNumber chunkOffset chunkLen 0 with
              | None => None
              | Some (Some e) => Some (rpc, sent, inr e)
              | Some None =>
                  loadChunks rpc btxs blockNumber chunks (chunkOffset + chunkLen) receipts sent
              end
          end
      end
  end.

(** Lines 89-127 of [getBlock]: the receipts of the transactions of a
    block, with the batches sent.  The outer [None] stands for a panic, of
    an index or of [chunkTransactions], and for the bound of its loop. *)
Definition loadReceipts (rpc : R) (btxs : list Transaction) (blockNumber : Z)
  : option (R * list (list BatchElem) * (list (option rpcReceipt) + Error)) :=
  let txLen := length btxs in
  if (0 <? txLen)%nat then
    match chunkTransactions btxs 500 with
    | Returns chunks => loadChunks rpc btxs blockNumber chunks 0 (replicate txLen None) []
    | _ => None
    end
  else Some (rpc, [], inl []).

End WithRpc.

(** A connection that answers the first [n] batches, each request with a
    receipt, and fails from then on. *)
#[global] Instance failing_after : BatchCaller nat := {|
  BatchCallContext n reqs :=
    match n with
    | O => (O, ([], Some (ErrorString "connection reset")))
    | S n => (n, (map (fun _ => mkBatchReply None (Some (mkRpcReceipt (Some 1) None (Some 21000)))) reqs, None))
    end
|}.

End client.

(** * Package blocksource *)
Module blocksource.

(** [ethereum.Block], as far as the loop reads it: [Number] is the
    [*big.Int] decoded from the header, [Hash] tells two blocks of one
    height apart. *)
Record Block : Type := mkBlock {
  Number : Z;
  Hash : N
}.

(** [Config]: [StartBlock] may be nil, [Confirmations] is a Go [uint]. *)
Record Config : Type := mkConfig {
  StartBlock : bigInt;
  Confirmations : Z
}.

(** The conversion [int64(x)] of a 64-bit [uint]. *)
Definition to_int64 (x : Z) : Z := (x + 2 ^ 63) mod 2 ^ 64 - 2 ^ 63.

(** [x.Cmp(y)] and [x.Sign()] of [math/big]. *)
Definition Cmp (x y : Z) : Z :=
  match x ?= y with
  | Lt => -1
  | Eq => 0
  | Gt => 1
  end.
Definition Sign (x : Z) : Z := Z.sgn x.

(** [func needToGetMostRecentBlockNumber] *)
Definition needToGetMostRecentBlockNumber
    (currentBlockNumber recentBlockNumber : bigInt) (confirmations : Z) : bool :=
  (Sign confirmations =? 1) &&
  match recentBlockNumber with
  | None => true
  | Some recent =>
      (Cmp recent confirmations =? -1) ||
      match currentBlockNumber with
      | None => false
      | Some current => Cmp (current + confirmations) recent =? 1
      end
  end.

(** The refresh rule in the words of the specification: refresh when
    confirmations > 0 and the head is unknown, or below the confirmation
    depth, or a known current height plus the depth exceeds it. *)
Definition refresh_required (currentHeight recentHeadHeight : bigInt) (confirmations : Z) : Prop :=
  confirmations > 0 /\
  (recentHeadHeight = None \/
   (exists head : Z, recentHeadHeight = Some head /\ head < confirmations) \/
   (exists current head : Z,
       currentHeight = Some current /\ recentHeadHeight = Some head /\
       current + confirmations > head)).

(** What the world outside the goroutine does during one turn of the loop
    of [runAsync]: whether the close signal wins the select of the delay
    and of the delivery, what the node answers to [eth_blockNumber], and
    what [client.BlockByNumber] returns for the number it is asked (a block
    and a nil error, or a nil block and an error). *)
Record World : Type := mkWorld {
  closeDuringDelay : bool;
  eth_blockNumber : Z + Error;
  BlockByNumber : bigInt -> Block + Error;
  closeDuringDelivery : bool
}.

(** What a turn of the loop does that can be seen from outside. *)
Inductive Event : Type :=
| Slept
| CalledBlockNumber (result : bigInt * error)
| Printf (msg : string)
| CalledBlockByNumber (number : bigInt) (result : Block + Error)
| Delivered (b : Block).

(** The variables of the goroutine. *)
Record Loop : Type := mkLoop {
  recentBlkNumber : bigInt;
  currBlkNumber : bigInt;
  delayBeforeIteration : bool
}.

(** Lines 103-115: the refresh of the head height.  The boolean tells
    whether the turn goes on to fetch a block ([false] is [continue]). *)
Definition refreshHead (confirmations : Z) (recent curr : bigInt) (w : World)
  : bigInt * list Event * bool :=
  if needToGetMostRecentBlockNumber curr recent confirmations then
    let '(recent, err) := client.BlockNumber (eth_blockNumber w) in
    let called := CalledBlockNumber (recent, err) in
    match err with
    | Some e => (recent, [called; Printf ("BlockNumber: " ++ Error_text e)], false)
    | None =>
        if needToGetMostRecentBlockNumber curr recent confirmations
        then (recent, [called], false)
        else (recent, [called], true)
    end
  else (recent, [], true).

(** Lines 117-138: the fetch and the delivery.  The boolean tells whether
    the goroutine returns. *)
Definition fetchBlock (confirmations : Z) (recent curr : bigInt) (w : World)
  : Loop * list Event * bool :=
  let curr :=
    match recent, curr with
    | Some r, None => Some (r - confirmations)
    | _, _ => curr
    end in
  let result := BlockByNumber w curr in
  let called := CalledBlockByNumber curr result in
  match result with
  | inr err =>
      let logged :=
        match err with
        | ErrNotFound => []
        | _ => [Printf ("BlockByNumber: " ++ Error_text err)]
        end in
      (mkLoop recent curr true, called :: logged, false)
  | inl b =>
      let curr := Some (Number b + 1) in
      if closeDuringDelivery w
      then (mkLoop recent curr false, [called], true)
      else (mkLoop recent curr false, [called; Delivered b], false)
  end.

(** One turn of the [for] loop. *)
Definition iteration (confirmations : Z) (s : Loop) (w : World) : Loop * list Event * bool :=
  if delayBeforeIteration s && closeDuringDelay w then (s, [], true)
  else
    let slept := if delayBeforeIteration s then [Slept] else [] in
    let '(recent, events, fetch) := refreshHead confirmations (recentBlkNumber s) (currBlkNumber s) w in
    if fetch then
      let '(s', events', returns) := fetchBlock confirmations recent (currBlkNumber s) w in
      (s', slept ++ events ++ events', returns)
    else (mkLoop recent (currBlkNumber s) true, slept ++ events, false).

(** A turn as a run records it. *)
Record Turn : Type := mkTurn {
  before : Loop;
  world : World;
  events : list Event;
  after : Loop;
  returned : bool
}.

(** The loop, for as many turns as the list of worlds is long or until the
    goroutine returns. *)
Fixpoint loop (confirmations : Z) (s : Loop) (ws : list World) : list Turn :=
  match ws with
  | [] => []
  | w :: ws =>
      let '(s', evs, returns) := iteration confirmations s w in
      mkTurn s w evs s' returns :: (if returns then [] else loop confirmations s' ws)
  end.

(** The goroutine of [runAsync]: the variables as they are set before the
    loop, then the loop. *)
Definition confirmations_of (cfg : Config) : Z := to_int64 (Confirmations cfg).

Definition runAsync (cfg : Config) (ws : list World) : list Turn :=
  loop (confirmations_of cfg) (mkLoop None (StartBlock cfg) false) ws.

(** The blocks sent on the channel, in order. *)
Definition delivered_in (evs : list Event) : list Block :=
  omap (fun ev => match ev with Delivered b => Some b | _ => None end) evs.

Definition delivered (run : list Turn) : list Block :=
  flat_map (fun t => delivered_in (events t)) run.

(** The height a turn asks the reader for, given the head height [recent]
    it has after the refresh and the cursor [curr] it started with (lines
    117-119). *)
Definition requested_height (confirmations : Z) (recent curr : bigInt) : bigInt :=
  match recent, curr with
  | Some r, None => Some (r - confirmations)
  | _, _ => curr
  end.

(** The reader keeps to its contract: the block it returns for a number it
    was asked for has that number. *)
Definition returns_requested_height (w : World) : Prop :=
  forall (n : Z) (b : Block), BlockByNumber w (Some n) = inl b -> Number b = n.

End blocksource.

(** * Package gasestimator *)
Module gasestimator.

(** Where the goroutine of [runAsync] stands: in the [select] between
    [ctx.Done()] and the timer, inside [gasPricer.SuggestGasPrice], or
    returned.  The goroutine of [cancelOnClose] waits on [e.closed] or has
    run [cancel] and returned. *)
Inductive Goroutine : Type := Selecting | Fetching | Exited.
Inductive Canceller : Type := Waiting | Cancelled.

(** [GasPriceEstimator] with its two goroutines.  [gasPrice] is the cached
    price, a [*big.Int] that is never nil: the estimator starts from the
    price of a successful fetch and only stores prices of successful
    fetches.  [closed] tells that the channel is closed, [ctxDone] that the
    context is cancelled, [wg] is the counter of the wait group; [closing]
    holds while a call of [Close] is inside [closeOnce.Do], [closeOnce]
    once that call has returned.  The read lock and the write lock of
    [rwMutex] are held for one access each, which is one step here. *)
Record GasPriceEstimator : Type := mkGasPriceEstimator {
  gasPrice : Z;
  closed : bool;
  closing : bool;
  closeOnce : bool;
  ctxDone : bool;
  wg : nat;
  loop : Goroutine;
  canceller : Canceller;
  logged : list string
}.

(** [newGasPriceEstimator]: both goroutines are started. *)
Definition newGasPriceEstimator (initGasPrice : Z) : GasPriceEstimator :=
  {| gasPrice := initGasPrice; closed := false; closing := false; closeOnce := false;
     ctxDone := false; wg := 2; loop := Selecting; canceller := Waiting; logged := [] |}.

(** [func (e *GasPriceEstimator) SuggestGasPrice]: a copy of the cached price. *)
Definition SuggestGasPrice (e : GasPriceEstimator) : Z := gasPrice e.

(** What can happen next: a step of one of the goroutines, or a call from
    the user of the estimator.  The timer of [time.After(e.updateInterval)]
    may fire whenever the loop waits for it; [Close] is entered with
    [CloseCalled] and, when it has to wait for the goroutines, left with
    [CloseReturned]. *)
Inductive Action : Type :=
| TimerFires
| ContextDone
| PricerReturns (result : Z + Error)
| ClosedReceived
| CloseCalled
| CloseReturned
| SuggestGasPriceCalled.

(** The state after an action, [None] when the action cannot happen in
    that state (the goroutine is elsewhere, the caller would block). *)
Definition step (e : GasPriceEstimator) (a : Action) : option GasPriceEstimator :=
  match a with
  | TimerFires =>
      match loop e with
      | Selecting => Some (mkGasPriceEstimator (gasPrice e) (closed e) (closing e) (closeOnce e)
                             (ctxDone e) (wg e) Fetching (canceller e) (logged e))
      | _ => None
      end
  | ContextDone =>
      match loop e, ctxDone e with
      | Selecting, true => Some (mkGasPriceEstimator (gasPrice e) (closed e) (closing e) (closeOnce e)
                                   (ctxDone e) (wg e - 1) Exited (canceller e) (logged e))
      | _, _ => None
      end
  | PricerReturns result =>
      match loop e, result with
      | Fetching, inr err =>
          Some (mkGasPriceEstimator (gasPrice e) (closed e) (closing e) (closeOnce e)
                  (ctxDone e) (wg e) Selecting (canceller e)
                  (logged e ++ [("gasestimator: SuggestGasPrice: " ++ Error_text err)%string]))
      | Fetching, inl newGasPrice =>
          let curGasPrice := SuggestGasPrice e in
          let price := if blocksource.Cmp curGasPrice newGasPrice =? 0 then gasPrice e else newGasPrice in
          Some (mkGasPriceEstimator price (closed e) (closing e) (closeOnce e)
                  (ctxDone e) (wg e) Selecting (canceller e) (logged e))
      | _, _ => None
      end
  | ClosedReceived =>
      match canceller e, closed e with
      | Waiting, true => Some (mkGasPriceEstimator (gasPrice e) (closed e) (closing e) (closeOnce e)
                                 true (wg e - 1) (loop e) Cancelled (logged e))
      | _, _ => None
      end
  | CloseCalled =>
      if closeOnce e then Some e
      else if closing e then None
      else Some (mkGasPriceEstimator (gasPrice e) true true (closeOnce e)
                   (ctxDone e) (wg e) (loop e) (canceller e) (logged e))
  | CloseReturned =>
      match closing e, wg e with
      | true, O => Some (mkGasPriceEstimator (gasPrice e) (closed e) false true
                           (ctxDone e) (wg e) (loop e) (canceller e) (logged e))
      | _, _ => None
      end
  | SuggestGasPriceCalled => Some e
  end.

Fixpoint run (e : GasPriceEstimator) (actions : list Action) : option GasPriceEstimator :=
  match actions with
  | [] => Some e
  | a :: actions =>
      match step e a with
      | Some e' => run e' actions
      | None => None
      end
  end.

(** The calls a user of the estimator makes. *)
Inductive Call : Type := CallClose | CallSuggestGasPrice.

Definition action_of (c : Call) : Action :=
  match c with
  | CallClose => CloseCalled
  | CallSuggestGasPrice => SuggestGasPriceCalled
  end.

(** The goroutines that have not yet called [wg.Done]. *)
Definition running (g : Goroutine) : nat :=
  match g with
  | Exited => 0
  | _ => 1
  end.

Definition waiting (c : Canceller) : nat :=
  match c with
  | Cancelled => 0
  | Waiting => 1
  end.

(** What holds of the estimator in every state it can reach: the wait
    group counts the goroutines still running, the context is cancelled
    exactly when the canceller has run, which needs the channel closed, and
    a completed [Close] has seen the counter at zero. *)
Definition consistent (e : GasPriceEstimator) : Prop :=
  wg e = (running (loop e) + waiting (canceller e))%nat /\
  (ctxDone e = true <-> canceller e = Cancelled) /\
  (canceller e = Cancelled -> closed e = true) /\
  (closing e = true -> closed e = true /\ closeOnce e = false) /\
  (closeOnce e = true -> wg e = 0%nat /\ closing e = false).

End gasestimator.

(** * Package backend: the decorator as a backend, and [simBackend] *)
Module backend_sim.
Import backend.

Section Inner.
Context {CallMsg FilterQuery Receipt Log LogChan Subscription B : Type}.
Context {inner_backend : @Backend CallMsg FilterQuery Receipt Log LogChan Subscription B}.

(** A call made on the inner backend itself, without the decorator: the
    state the inner backend is left in. *)
Definition exec_inner (c : Call CallMsg FilterQuery LogChan) (i : B) : B :=
  match c with
  | CallCodeAt contract blockNumber => (CodeAt i contract blockNumber).1
  | CallCallContract call blockNumber => (CallContract i call blockNumber).1
  | CallPendingCodeAt account => (PendingCodeAt i account).1
  | CallPendingNonceAt account => (PendingNonceAt i account).1
  | CallSuggestGasPrice => (SuggestGasPrice i).1
  | CallEstimateGas call => (EstimateGas i call).1
  | CallSendTransaction tx => (SendTransaction i tx).1
  | CallTransactionReceipt txHash => (TransactionReceipt i txHash).1
  | CallBalanceAt address blockNum => (BalanceAt i address blockNum).1
  | CallFilterLogs query => (FilterLogs i query).1
  | CallSubscribeFilterLogs query ch => (SubscribeFilterLogs i query ch).1
  | CallTransactionByHash txHash => (TransactionByHash i txHash).1
  end.

Definition run_inner (calls : list (Call CallMsg FilterQuery LogChan)) (i : B) : B :=
  fold_left (fun i c => exec_inner c i) calls i.

(** [*HandleNonceBackend] implements [Backend] with its twelve methods. *)
#[global] Instance HandleNonceBackend_Backend :
  @Backend CallMsg FilterQuery Receipt Log LogChan Subscription (HandleNonceBackend B) := {|
  CodeAt := HandleNonceBackend_CodeAt;
  CallContract := HandleNonceBackend_CallContract;
  PendingCodeAt := HandleNonceBackend_PendingCodeAt;
  PendingNonceAt := HandleNonceBackend_PendingNonceAt;
  SuggestGasPrice := HandleNonceBackend_SuggestGasPrice;
  EstimateGas := HandleNonceBackend_EstimateGas;
  SendTransaction := HandleNonceBackend_SendTransaction;
  TransactionReceipt := HandleNonceBackend_TransactionReceipt;
  BalanceAt := HandleNonceBackend_BalanceAt;
  FilterLogs := HandleNonceBackend_FilterLogs;
  SubscribeFilterLogs := HandleNonceBackend_SubscribeFilterLogs;
  TransactionByHash := HandleNonceBackend_TransactionByHash
|}.

(** [type commiterRollbacker interface { Commit(); Rollback() }] *)
Class commiterRollbacker : Type := {
  Commit : B -> B;
  Rollback : B -> B
}.

(** [simBackend{b, cr}], which [NewHandleNonceBackend] returns when the
    inner backend is a [commiterRollbacker]: [b] is the decorator and [cr]
    is the inner backend of [b], one object under two names, so the record
    holds it once. *)
Record simBackend : Type := mkSimBackend {
  sim_b : HandleNonceBackend B
}.

Context `{!commiterRollbacker}.

(** [func (b *simBackend) Commit] and [Rollback]: [b.cr.Commit()],
    [b.cr.Rollback()]. *)
Definition simBackend_Commit (s : simBackend) : simBackend :=
  mkSimBackend (set_inner (sim_b s) (Commit (inner (sim_b s)))).

Definition simBackend_Rollback (s : simBackend) : simBackend :=
  mkSimBackend (set_inner (sim_b s) (Rollback (inner (sim_b s)))).

(** [func (b *simBackend) PendingNonceAt] and [SendTransaction]:
    [b.b.PendingNonceAt], [b.b.SendTransaction]. *)
Definition simBackend_PendingNonceAt (s : simBackend) (account : Address)
  : simBackend * (Z * error) :=
  let '(b, r) := HandleNonceBackend_PendingNonceAt (sim_b s) account in (mkSimBackend b, r).

Definition simBackend_SendTransaction (s : simBackend) (tx : Transaction) : simBackend * error :=
  let '(b, r) := HandleNonceBackend_SendTransaction (sim_b s) tx in (mkSimBackend b, r).

End Inner.

Arguments simBackend B : clear implicits.
Arguments commiterRollbacker B : clear implicits.

(** The simulated chain of the scenarios: the pending nonce of every
    account is the number of transactions in the pending block, which
    [Commit] keeps counting and [Rollback] forgets. *)
Record simChain : Type := mkSimChain {
  committed : Z;
  pending : Z
}.

#[global] Instance simChain_Backend : @Backend unit unit unit unit unit unit simChain := {|
  CodeAt m _ _ := (m, ([], None));
  CallContract m _ _ := (m, ([], None));
  PendingCodeAt m _ := (m, ([], None));
  PendingNonceAt m _ := (m, (committed m + pending m, None));
  SuggestGasPrice m := (m, (Some 1, None));
  EstimateGas m _ := (m, (21000, None));
  SendTransaction m _ := (mkSimChain (committed m) (pending m + 1), None);
  TransactionReceipt m _ := (m, (None, None));
  BalanceAt m _ _ := (m, (None, None));
  FilterLogs m _ := (m, ([], None));
  SubscribeFilterLogs m _ _ := (m, (None, None));
  TransactionByHash m _ := (m, (None, false, None))
|}.

#[global] Instance simChain_commiterRollbacker : commiterRollbacker simChain := {|
  Commit m := mkSimChain (committed m + pending m) 0;
  Rollback m := mkSimChain (committed m) 0
|}.

End backend_sim.

(** * Package ethereum: log filterers *)

(** [types.Log] of go-ethereum, the fields the filterers read. *)
Module types.
Record Log : Type := mkLog {
  Address : N;
  Topics : list Hash;
  BlockNumber : Z;
  Removed : bool
}.
End types.

(** [ethereum.FilterQuery] of go-ethereum. *)
Module goethereum.
Record FilterQuery : Type := mkFilterQuery {
  FromBlock : bigInt;
  ToBlock : bigInt;
  Addresses : list N;
  Topics : list (list Hash)
}.
End goethereum.

Module logfilterer.

(** [type SliceLogFilterer []*types.Log]: an element may be nil. *)
Abbreviation SliceLogFilterer := (list (option types.Log)) (only parsing).

(** The innermost loop of [FilterLogs], over the topics of one rule set:
    [if log.Topics[i] == topic { match = true; break }].  [None] is an index
    out of range. *)
Fixpoint scanSub (logTopics : list Hash) (i : nat) (sub : list Hash) (match_ : bool)
  : option bool :=
  match sub with
  | [] => Some match_
  | topic :: sub' =>
      match logTopics !! i with
      | None => None
      | Some t => if N.eqb t topic then Some true else scanSub logTopics i sub' match_
      end
  end.

(** [for i, sub := range topics]: [Some false] is [continue Logs]. *)
Fixpoint matchTopics (logTopics : list Hash) (i : nat) (topics : list (list Hash))
  : option bool :=
  match topics with
  | [] => Some true
  | sub :: topics' =>
      match scanSub logTopics i sub (length sub =? 0)%nat with
      | None => None
      | Some false => Some false
      | Some true => matchTopics logTopics (S i) topics'
      end
  end.

(** The body of the loop over the logs: whether the log is appended. *)
Definition keeps (topics : list (list Hash)) (log : option types.Log) : option bool :=
  match log with
  | None => Some false
  | Some log =>
      if types.Removed log then Some false
      else if (length (types.Topics log) <? length topics)%nat then Some false
      else matchTopics (types.Topics log) 0 topics
  end.

Fixpoint filterLoop (topics : list (list Hash)) (logs : SliceLogFilterer) (res : list types.Log)
  : option (list types.Log) :=
  match logs with
  | [] => Some res
  | log :: logs' =>
      match keeps topics log, log with
      | None, _ => None
      | Some true, Some l => filterLoop topics logs' (res ++ [l])
      | Some _, _ => filterLoop topics logs' res
      end
  end.

(** The log the loop appends for an element, if any. *)
Definition selected (topics : list (list Hash)) (l : option types.Log) : option types.Log :=
  match keeps topics l with
  | Some true => l
  | _ => None
  end.

(** [func (logs SliceLogFilterer) FilterLogs]; [None] is a panic. *)
Definition FilterLogs (logs : SliceLogFilterer) (query : goethereum.FilterQuery)
  : option (list types.Log * error) :=
  res ← filterLoop (goethereum.Topics query) logs [];
  Some (res, None).

(** The loop that sends on the channel, in [SubscribeFilterLogs] and in
    [ContractLogFilterer.FilterLogs]: [quitWins i] tells whether, at the
    select for the log of index [i], the quit channel wins. *)
Fixpoint deliver (buff : list types.Log) (quitWins : nat -> bool) (i : nat) (ch : list types.Log)
  : list types.Log * error :=
  match buff with
  | [] => (ch, None)
  | log :: buff' =>
      if quitWins i then (ch, None) else deliver buff' quitWins (S i) (ch ++ [log])
  end.

(** The function [SubscribeFilterLogs] hands to [event.NewSubscription]:
    what it has sent on [ch], and what it returns. *)
Definition SubscribeFilterLogs_producer (logs : SliceLogFilterer) (query : goethereum.FilterQuery)
    (quitWins : nat -> bool) : option (list types.Log * error) :=
  '(res, err) ← FilterLogs logs query;
  match err with
  | Some e => Some ([], Some e)
  | None => Some (deliver res quitWins 0 [])
  end.

(** What [matchTopics] is meant to decide, in the words of the comments of
    the source: enough topics, and at each position an empty rule set or a
    topic of the rule set. *)
Definition matches (topics : list (list Hash)) (log : types.Log) : Prop :=
  types.Removed log = false /\
  (length topics <= length (types.Topics log))%nat /\
  forall (i : nat) (sub : list Hash), topics !! i = Some sub -> sub <> [] ->
    exists t : Hash, types.Topics log !! i = Some t /\ t ∈ sub.

End logfilterer.

Module contractlogfilterer.

(** The dynamic type of an element of [query ...[]interface{}]: the cases
    of the type switch of [makeTopics].  A [*big.Int] may be nil; integers
    are the values of their Go types; [RuleOther] is any other type, with
    its [%T] name. *)
Inductive Rule : Type :=
| RuleHash (h : Hash)
| RuleAddress (a : N)
| RuleBigInt (x : option Z)
| RuleBool (b : bool)
| RuleInt8 (z : Z)
| RuleInt16 (z : Z)
| RuleInt32 (z : Z)
| RuleInt64 (z : Z)
| RuleUint8 (z : Z)
| RuleUint16 (z : Z)
| RuleUint32 (z : Z)
| RuleUint64 (z : Z)
| RuleString (s : string)
| RuleBytes (bs : list Byte.byte)
| RuleByteArray (bs : list Byte.byte)
| RuleOther (typeName : string).

Definition HashLength : nat := 32.

(** The number a sequence of bytes is, most significant byte first. *)
Definition bigEndian (bs : list Byte.byte) : N :=
  fold_left (fun acc b => (acc * 256 + Byte.to_N b)%N) bs 0%N.

(** A 32-byte hash is the 256-bit number its bytes spell.
    [blob := x.Bytes(); copy(topic[HashLength-len(blob):], blob)]:
    [Bytes] is the absolute value of [x], big-endian and without leading
    zeros, so the topic is [|x|]; with more than 32 bytes the slice
    expression has a negative bound and panics ([None]). *)
Definition alignBig (x : Z) : option Hash :=
  if Z.abs x <? 2 ^ 256 then Some (Z.abs_N x) else None.

(** [reflect.Copy(reflect.ValueOf(topic[HashLength-val.Len():]), val)] *)
Definition alignArray (bs : list Byte.byte) : option Hash :=
  if (length bs <=? HashLength)%nat then Some (bigEndian bs) else None.

(** [bind.ContractFilterer], the method [FilterLogs] uses; a filterer may
    panic ([None]). *)
Class ContractFilterer (F : Type) : Type := {
  filterer_FilterLogs : F -> goethereum.FilterQuery -> option (F * (list types.Log * error))
}.

(** [bind.FilterOpts] *)
Record FilterOpts : Type := mkFilterOpts {
  Start : Z;
  End_ : option Z
}.

(** [type ContractLogFilterer struct]; of the ABI, the identifier of the
    event of a name, [c.abi.Events[name].Id()]. *)
Record ContractLogFilterer (F : Type) : Type := mkContractLogFilterer {
  address : N;
  abi : string -> Hash;
  filterer : F
}.
Arguments address {F}.
Arguments abi {F}.
Arguments filterer {F}.
Arguments mkContractLogFilterer {F}.

Definition NewContractLogFilterer {F : Type} (address : N) (abi : string -> Hash) (filterer : F)
  : ContractLogFilterer F :=
  mkContractLogFilterer address abi filterer.

(** The query [FilterLogs] hands to the filterer. *)
Definition config_of {F : Type} (c : ContractLogFilterer F) (opts : FilterOpts)
    (topics : list (list Hash)) : goethereum.FilterQuery :=
  {| goethereum.Addresses := [address c];
     goethereum.Topics := topics;
     goethereum.FromBlock := Some (Start opts);
     goethereum.ToBlock := End_ opts |}.

Section Keccak.
Variable Keccak256Hash : list Byte.byte -> Hash.

(** One pass of the type switch: [None] is a panic, [inr] the error. *)
Definition ruleTopic (rule : Rule) : option (Hash + Error) :=
  match rule with
  | RuleHash h => Some (inl h)
  | RuleAddress a => Some (inl a)
  | RuleBigInt None => None
  | RuleBigInt (Some x) => inl <$> alignBig x
  | RuleBool b => Some (inl (if b then 1%N else 0%N))
  | RuleInt8 z | RuleInt16 z | RuleInt32 z | RuleInt64 z => inl <$> alignBig z
  | RuleUint8 z | RuleUint16 z | RuleUint32 z | RuleUint64 z => inl <$> alignBig z
  | RuleString s => Some (inl (Keccak256Hash (list_byte_of_string s)))
  | RuleBytes bs => Some (inl (Keccak256Hash bs))
  | RuleByteArray bs => inl <$> alignArray bs
  | RuleOther typeName => Some (inr (ErrorString ("unsupported indexed type: " ++ typeName)))
  end.

(** [for _, rule := range filter], appending to [topics[i]]. *)
Fixpoint filterTopics (filter : list Rule) (acc : list Hash) : option (list Hash + Error) :=
  match filter with
  | [] => Some (inl acc)
  | rule :: filter' =>
      match ruleTopic rule with
      | None => None
      | Some (inr e) => Some (inr e)
      | Some (inl topic) => filterTopics filter' (acc ++ [topic])
      end
  end.

(** [for i, filter := range query] *)
Fixpoint queryTopics (query : list (list Rule)) : option (list (list Hash) + Error) :=
  match query with
  | [] => Some (inl [])
  | filter :: query' =>
      match filterTopics filter [] with
      | None => None
      | Some (inr e) => Some (inr e)
      | Some (inl sub) =>
          match queryTopics query' with
          | None => None
          | Some (inr e) => Some (inr e)
          | Some (inl topics) => Some (inl (sub :: topics))
          end
      end
  end.

(** [func makeTopics(query ...[]interface{}) ([][]common.Hash, error)] *)
Definition makeTopics (query : list (list Rule)) : option (list (list Hash) * error) :=
  match queryTopics query with
  | None => None
  | Some (inr e) => Some ([], Some e)
  | Some (inl topics) => Some (topics, None)
  end.

(** [func (c *ContractLogFilterer) FilterLogs]: the filterer after the
    call, and either the logs the subscription will send on the channel,
    or the error. *)
Definition ContractLogFilterer_FilterLogs {F : Type} `{!ContractFilterer F}
    (c : ContractLogFilterer F) (opts : option FilterOpts) (names : list string)
    (query : list (list Rule)) : option (F * (list types.Log + Error)) :=
  let opts := default (mkFilterOpts 0 None) opts in
  let eventNameRule := (fun name => RuleHash (abi c name)) <$> names in
  let query := eventNameRule :: query in
  match makeTopics query with
  | None => None
  | Some (_, Some err) => Some (filterer c, inr err)
  | Some (topics, None) =>
      match filterer_FilterLogs (filterer c) (config_of c opts topics) with
      | None => None
      | Some (f, (_, Some err)) => Some (f, inr err)
      | Some (f, (buff, None)) => Some (f, inl buff)
      end
  end.

End Keccak.

#[global] Instance SliceLogFilterer_ContractFilterer :
  ContractFilterer (list (option types.Log)) := {|
  filterer_FilterLogs logs query := pair logs <$> logfilterer.FilterLogs logs query
|}.

End contractlogfilterer.

(** * Package ethereum: addresses from hex strings *)
Module address.

Definition AddressLength : nat := 20.

(** The slice expression [s[lo:hi]] on a string; [None] is the panic of a
    bound out of range. *)
Fixpoint drop_string (n : nat) (s : string) : string :=
  match n, s with
  | O, _ => s
  | S n', String _ s' => drop_string n' s'
  | S _, EmptyString => EmptyString
  end.

Fixpoint take_string (n : nat) (s : string) : string :=
  match n, s with
  | S n', String a s' => String a (take_string n' s')
  | _, _ => EmptyString
  end.

Definition slice (s : string) (lo hi : nat) : option string :=
  if ((lo <=? hi) && (hi <=? String.length s))%nat
  then Some (take_string (hi - lo) (drop_string lo s))
  else None.

(** [str[0:2] == "0x" || str[0:2] == "0X"] *)
Definition has0xPrefix (str : string) : option bool :=
  p ← slice str 0 2; Some (String.eqb p "0x" || String.eqb p "0X").

(** [func isHex(str string) bool]; [&&] does not evaluate its right side
    when the left side is false. *)
Definition isHex (str : string) : option bool :=
  let l := String.length str in
  if ((4 <=? l) && (l mod 2 =? 0))%nat then has0xPrefix str else Some false.

(** [func isHexAddress(s string) bool] *)
Definition isHexAddress (s : string) : option bool :=
  first ← (if (String.length s =? 2 + 2 * AddressLength)%nat then isHex s else Some false);
  if first : bool then Some true
  else
    second ← (if (String.length s =? 2 * AddressLength)%nat
              then isHex ("0x" ++ s) else Some false);
    if second : bool then Some true else Some false.

Section Decoder.
(** [hex.DecodeString] of the Go library and [common.BytesToAddress] of
    go-ethereum. *)
Variable DecodeString : string -> list Byte.byte * error.
Variable BytesToAddress : list Byte.byte -> Address.

(** [func fromHex(s string) ([]byte, error)] *)
Definition fromHex (s : string) : option (list Byte.byte * error) :=
  s ← (if (1 <? String.length s)%nat
       then prefixed ← has0xPrefix s;
            if prefixed : bool then slice s 2 (String.length s) else Some s
       else Some s);
  let s := if (String.length s mod 2 =? 1)%nat then ("0" ++ s)%string else s in
  Some (DecodeString s).

(** [func NewAddressFromHex(hex string) (addr common.Address, err error)];
    the zero address is twenty zero bytes. *)
Definition NewAddressFromHex (hex : string) : option (Address * error) :=
  valid ← isHexAddress hex;
  if negb valid
  then Some (0%N, Some (ErrorString
         ("ethereum: hex string '" ++ hex ++ "' is not valid Ethereum address")))
  else
    '(bs, err) ← fromHex hex;
    match err with
    | None => Some (BytesToAddress bs, None)
    | Some e => Some (0%N, Some e)
    end.

(** What [NewAddressFromHex] returns once [digits] is what is decoded. *)
Definition decoded (digits : string) : Address * error :=
  match DecodeString digits with
  | (bs, None) => (BytesToAddress bs, None)
  | (_, Some e) => (0%N, Some e)
  end.

Definition rejected (hex : string) : Address * error :=
  (0%N, Some (ErrorString
     ("ethereum: hex string '" ++ hex ++ "' is not valid Ethereum address"))).

End Decoder.

(** A string starts with ["0x"] or ["0X"]. *)
Definition prefixed (s : string) : Prop :=
  exists rest : string, s = ("0x" ++ rest)%string \/ s = ("0X" ++ rest)%string.

End address.

(** * Package client: the rest of [getBlock] *)
Module getblock.
Import client.

(** [types.Header], [rpcBlock] and [ethereum.Block]: of the header the
    number, of the transactions of the body the hash, of the block what is
    made of them.  The other fields are copied from the one to the
    other. *)
Record Header : Type := mkHeader {
  Number : Z
}.

Record rpcBlock : Type := mkRpcBlock {
  body_Hash : N;
  body_Transactions : list N
}.

Record Block : Type := mkBlock {
  block_Hash : N;
  block_Number : Z;
  block_Transactions : list Transaction
}.

(** [func toBlockNumArg(number *big.Int) string], given [hexutil.EncodeBig]. *)
Definition toBlockNumArg (EncodeBig : Z -> string) (number : bigInt) : string :=
  match number with
  | None => "latest"
  | Some number => EncodeBig number
  end.

(** Lines 130-138, the body of the loop: [GasUsed] is always assigned,
    [Status] and [ContractAddress] when the receipt has them. *)
Definition assignReceipt (btx : Transaction) (rcpt : rpcReceipt) : Transaction :=
  {| Hash := Hash btx;
     GasUsed := rcpt_GasUsed rcpt;
     Status := match rcpt_Status rcpt with
               | Some status => Some status
               | None => Status btx
               end;
     ContractAddress := match rcpt_ContractAddress rcpt with
                        | Some a => Some a
                        | None => ContractAddress btx
                        end |}.

(** [for i, rcpt := range receipts]; [None] is the panic of a nil receipt
    or of an index out of range. *)
Fixpoint assignReceipts (btxs : list Transaction) (receipts : list (option rpcReceipt)) (i : nat)
  : option (list Transaction) :=
  match receipts with
  | [] => Some btxs
  | rcpt :: receipts' =>
      rcpt ← rcpt;
      btx ← btxs !! i;
      assignReceipts (<[i := assignReceipt btx rcpt]> btxs) receipts' (S i)
  end.

(** Lines 71-87: the transactions of the body, their receipt fields not
    yet set. *)
Definition newTransactions (txs : list N) : list Transaction :=
  (fun hash => mkTransaction hash None None None) <$> txs.

(** The connection: [CallContext], beside the batch call; [Raw] is
    [json.RawMessage]. *)
Class Caller (R Raw : Type) : Type := {
  CallContext : R -> string -> list string -> R * (Raw + Error)
}.

Section GetBlock.
Context {R Raw : Type} `{!BatchCaller R} `{!Caller R Raw}.
(** [len(raw)], and [json.Unmarshal] into [header], a pointer that may be
    left nil, and into [body]. *)
Variable len : Raw -> nat.
Variable unmarshalHeader : Raw -> option Header + Error.
Variable unmarshalBody : Raw -> rpcBlock + Error.

(** Lines 95-127 when [header] is nil: the two error returns of the
    validation evaluate [header.Number] and panic. *)
Fixpoint loadChunksNilHeader (rpc : R) (btxs : list Transaction)
    (chunks : list (list Transaction)) (chunkOffset : nat)
    (receipts : list (option rpcReceipt))
  : option (R * (list (option rpcReceipt) + Error)) :=
  match chunks with
  | [] => Some (rpc, inl receipts)
  | chunkTxs :: chunks =>
      let chunkLen := length chunkTxs in
      match buildReqs btxs receipts chunkOffset chunkLen with
      | None => None
      | Some reqs =>
          let '(rpc, (replies, err)) := BatchCallContext rpc reqs in
          match err with
          | Some e =>
              Some (rpc,
                    inr (ErrorString ("getting transaction receipts (offset: " ++ pretty chunkOffset ++
                                      ", len: " ++ pretty chunkLen ++ "): " ++ Error_text e)))
          | None =>
              let receipts := storeResults receipts chunkOffset (take chunkLen replies) in
              match validate receipts replies 0 chunkOffset chunkLen 0 with
              | Some None =>
                  loadChunksNilHeader rpc btxs chunks (chunkOffset + chunkLen) receipts
              | _ => None
              end
          end
      end
  end.

(** Lines 89-139: the receipts are loaded and assigned. *)
Definition withReceipts (rpc : R) (btxs : list Transaction) (header : option Header)
  : option (R * (list Transaction + Error)) :=
  if (0 <? length btxs)%nat then
    loaded ← match header with
             | Some header =>
                 '(rpc, _, result) ← loadReceipts rpc btxs (Number header);
                 Some (rpc, result)
             | None =>
                 match chunkTransactions btxs 500 with
                 | Returns chunks =>
                     loadChunksNilHeader rpc btxs chunks 0 (replicate (length btxs) None)
                 | _ => None
                 end
             end;
    match loaded with
    | (rpc, inr err) => Some (rpc, inr err)
    | (rpc, inl receipts) =>
        btxs ← assignReceipts btxs receipts 0;
        Some (rpc, inl btxs)
    end
  else Some (rpc, inl btxs).

(** [func (c *Client) getBlock]; [None] is a panic. *)
Definition getBlock (rpc : R) (method : string) (args : list string)
  : option (R * (Block + Error)) :=
  let '(rpc, reply) := CallContext rpc method args in
  match reply with
  | inr err => Some (rpc, inr err)
  | inl raw =>
      if (len raw =? 0)%nat then Some (rpc, inr ErrNotFound)
      else
        match unmarshalHeader raw with
        | inr err => Some (rpc, inr err)
        | inl header =>
            match unmarshalBody raw with
            | inr err => Some (rpc, inr err)
            | inl body =>
                '(rpc, result) ← withReceipts rpc (newTransactions (body_Transactions body)) header;
                match result with
                | inr err => Some (rpc, inr err)
                | inl btxs =>
                    header ← header;
                    Some (rpc, inl {| block_Hash := body_Hash body;
                                      block_Number := Number header;
                                      block_Transactions := btxs |})
                end
            end
        end
  end.

(** [func (c *Client) BlockByNumber] *)
Definition BlockByNumber (EncodeBig : Z -> string) (rpc : R) (number : bigInt)
  : option (R * (Block + Error)) :=
  getBlock rpc "eth_getBlockByNumber" [toBlockNumArg EncodeBig number; "true"].

End GetBlock.

(** The text of the error for a null receipt. *)
Definition nullReceipt (i : nat) (blockNumber : Z) : Error :=
  ErrorString ("got null receipt for transaction " ++ pretty i ++
               " of block " ++ pretty blockNumber).

(** A node that answers every request of a batch with the receipt it has
    for the hash asked for, or with null. *)
Definition answer (node : N -> option rpcReceipt) (req : BatchElem) : BatchReply :=
  mkBatchReply None (match Args req with [hash] => node hash | _ => None end).

#[global] Instance answering_node : BatchCaller (N -> option rpcReceipt) := {|
  BatchCallContext node reqs := (node, (answer node <$> reqs, None))
|}.

(** The receipt of a transaction at such a node. *)
Definition receiptAt (node : N -> option rpcReceipt) (tx : Transaction) : option rpcReceipt :=
  node (Hash tx).

(** The first transaction of a list for which the node has no receipt. *)
Fixpoint firstMissing (node : N -> option rpcReceipt) (txs : list Transaction) (i : nat)
  : option nat :=
  match txs with
  | [] => None
  | tx :: txs' =>
      match receiptAt node tx with
      | None => Some i
      | Some _ => firstMissing node txs' (S i)
      end
  end.

(** The transaction [getBlock] is to return for a hash: the fields of the
    receipt the node has for it. *)
Definition filled (node : N -> option rpcReceipt) (hash : N) : Transaction :=
  match node hash with
  | Some r => mkTransaction hash (rcpt_GasUsed r) (rcpt_Status r) (rcpt_ContractAddress r)
  | None => mkTransaction hash None None None
  end.

(** A node that has a block to return for every call, and a node that
    returns the JSON null. *)
#[global] Instance ready_node : Caller (N -> option rpcReceipt) string := {|
  CallContext node _ _ := (node, inl "{}"%string)
|}.

#[global] Instance null_node : Caller nat string := {|
  CallContext n _ _ := (n, inl "null"%string)
|}.

End getblock.

(** * Package client: the JSON decoders *)
Module rpcjson.

(** [type rpcTransaction struct] *)
Record rpcTransaction : Type := mkRpcTransaction {
  BlockNumber : bigInt;
  From : N;
  GasLimit : bigInt;
  GasPrice : bigInt;
  Hash : N;
  Input : option (list Byte.byte);
  Nonce : Z;
  To : option N;
  TransactionIndex : Z;
  Value : bigInt;
  V : bigInt;
  R : bigInt;
  S : bigInt
}.

(** The local [type tx struct] of [UnmarshalJSON], each field a pointer or
    a slice: what [json.Unmarshal] has found in the input. *)
Record tx : Type := mkTx {
  dec_BlockNumber : option Z;
  dec_From : option N;
  dec_GasLimit : option Z;
  dec_GasPrice : option Z;
  dec_Hash : option N;
  dec_Input : option (list Byte.byte);
  dec_Nonce : option Z;
  dec_To : option N;
  dec_TransactionIndex : option Z;
  dec_Value : option Z;
  dec_V : option Z;
  dec_R : option Z;
  dec_S : option Z
}.

(** The assignments to the fields of the receiver. *)
Definition set_BlockNumber (v : bigInt) (t : rpcTransaction) : rpcTransaction :=
  mkRpcTransaction v (From t) (GasLimit t) (GasPrice t) (Hash t) (Input t) (Nonce t) (To t)
                   (TransactionIndex t) (Value t) (V t) (R t) (S t).
Definition set_From (v : N) (t : rpcTransaction) : rpcTransaction :=
  mkRpcTransaction (BlockNumber t) v (GasLimit t) (GasPrice t) (Hash t) (Input t) (Nonce t) (To t)
                   (TransactionIndex t) (Value t) (V t) (R t) (S t).
Definition set_GasLimit (v : bigInt) (t : rpcTransaction) : rpcTransaction :=
  mkRpcTransaction (BlockNumber t) (From t) v (GasPrice t) (Hash t) (Input t) (Nonce t) (To t)
                   (TransactionIndex t) (Value t) (V t) (R t) (S t).
Definition set_GasPrice (v : bigInt) (t : rpcTransaction) : rpcTransaction :=
  mkRpcTransaction (BlockNumber t) (From t) (GasLimit t) v (Hash t) (Input t) (Nonce t) (To t)
                   (TransactionIndex t) (Value t) (V t) (R t) (S t).
Definition set_Hash (v : N) (t : rpcTransaction) : rpcTransaction :=
  mkRpcTransaction (BlockNumber t) (From t) (GasLimit t) (GasPrice t) v (Input t) (Nonce t) (To t)
                   (TransactionIndex t) (Value t) (V t) (R t) (S t).
Definition set_Input (v : option (list Byte.byte)) (t : rpcTransaction) : rpcTransaction :=
  mkRpcTransaction (BlockNumber t) (From t) (GasLimit t) (GasPrice t) (Hash t) v (Nonce t) (To t)
                   (TransactionIndex t) (Value t) (V t) (R t) (S t).
Definition set_Nonce (v : Z) (t : rpcTransaction) : rpcTransaction :=
  mkRpcTransaction (BlockNumber t) (From t) (GasLimit t) (GasPrice t) (Hash t) (Input t) v (To t)
                   (TransactionIndex t) (Value t) (V t) (R t) (S t).
Definition set_To (v : option N) (t : rpcTransaction) : rpcTransaction :=
  mkRpcTransaction (BlockNumber t) (From t) (GasLimit t) (GasPrice t) (Hash t) (Input t) (Nonce t) v
                   (TransactionIndex t) (Value t) (V t) (R t) (S t).
Definition set_TransactionIndex (v : Z) (t : rpcTransaction) : rpcTransaction :=
  mkRpcTransaction (BlockNumber t) (From t) (GasLimit t) (GasPrice t) (Hash t) (Input t) (Nonce t)
                   (To t) v (Value t) (V t) (R t) (S t).
Definition set_Value (v : bigInt) (t : rpcTransaction) : rpcTransaction :=
  mkRpcTransaction (BlockNumber t) (From t) (GasLimit t) (GasPrice t) (Hash t) (Input t) (Nonce t)
                   (To t) (TransactionIndex t) v (V t) (R t) (S t).
Definition set_V (v : bigInt) (t : rpcTransaction) : rpcTransaction :=
  mkRpcTransaction (BlockNumber t) (From t) (GasLimit t) (GasPrice t) (Hash t) (Input t) (Nonce t)
                   (To t) (TransactionIndex t) (Value t) v (R t) (S t).
Definition set_R (v : bigInt) (t : rpcTransaction) : rpcTransaction :=
  mkRpcTransaction (BlockNumber t) (From t) (GasLimit t) (GasPrice t) (Hash t) (Input t) (Nonce t)
                   (To t) (TransactionIndex t) (Value t) (V t) v (S t).
Definition set_S (v : bigInt) (t : rpcTransaction) : rpcTransaction :=
  mkRpcTransaction (BlockNumber t) (From t) (GasLimit t) (GasPrice t) (Hash t) (Input t) (Nonce t)
                   (To t) (TransactionIndex t) (Value t) (V t) (R t) v.

Definition missing (field : string) : Error :=
  ErrorString ("missing required field '" ++ field ++ "'").

(** [if dec.F == nil { return errors.New(...) }; t.F = ...]: the receiver
    as it is when the function returns, and the error. *)
Definition required {A : Type} (field : string) (dec : option A)
    (assign : A -> rpcTransaction -> rpcTransaction)
    (rest : rpcTransaction -> rpcTransaction * error) (t : rpcTransaction)
  : rpcTransaction * error :=
  match dec with
  | None => (t, Some (missing field))
  | Some v => rest (assign v t)
  end.

(** [func (t *rpcTransaction) UnmarshalJSON(input []byte) error], given
    what [json.Unmarshal(input, &dec)] returned. *)
Definition rpcTransaction_UnmarshalJSON (t : rpcTransaction) (decoded : tx + Error)
  : rpcTransaction * error :=
  match decoded with
  | inr err => (t, Some err)
  | inl dec =>
      required "blockNumber" (dec_BlockNumber dec) (fun v => set_BlockNumber (Some v)) (
      required "from" (dec_From dec) set_From (
      required "gas" (dec_GasLimit dec) (fun v => set_GasLimit (Some v)) (
      required "gasPrice" (dec_GasPrice dec) (fun v => set_GasPrice (Some v)) (
      required "hash" (dec_Hash dec) set_Hash (
      required "input" (dec_Input dec) (fun v => set_Input (Some v)) (
      required "nonce" (dec_Nonce dec) set_Nonce (
      fun t =>
        let t := match dec_To dec with
                 | Some to => set_To (Some to) t
                 | None => t
                 end in
        required "transactionIndex" (dec_TransactionIndex dec) set_TransactionIndex (
        required "value" (dec_Value dec) (fun v => set_Value (Some v)) (
        required "v" (dec_V dec) (fun v => set_V (Some v)) (
        required "r" (dec_R dec) (fun v => set_R (Some v)) (
        required "s" (dec_S dec) (fun v => set_S (Some v)) (
        fun t => (t, None)))))) t))))))) t
  end.

(** The required fields of the input, in the order of the checks, each
    with whether it is there. *)
Definition requiredFields (dec : tx) : list (string * bool) :=
  [("blockNumber", bool_decide (is_Some (dec_BlockNumber dec)));
   ("from", bool_decide (is_Some (dec_From dec)));
   ("gas", bool_decide (is_Some (dec_GasLimit dec)));
   ("gasPrice", bool_decide (is_Some (dec_GasPrice dec)));
   ("hash", bool_decide (is_Some (dec_Hash dec)));
   ("input", bool_decide (is_Some (dec_Input dec)));
   ("nonce", bool_decide (is_Some (dec_Nonce dec)));
   ("transactionIndex", bool_decide (is_Some (dec_TransactionIndex dec)));
   ("value", bool_decide (is_Some (dec_Value dec)));
   ("v", bool_decide (is_Some (dec_V dec)));
   ("r", bool_decide (is_Some (dec_R dec)));
   ("s", bool_decide (is_Some (dec_S dec)))]%string.

(** The local [type Receipt struct] of [rpcReceipt.UnmarshalJSON]. *)
Record Receipt : Type := mkReceipt {
  dec_Status : option Z;
  dec_ContractAddress : option N;
  dec_GasUsed : option Z
}.

(** [func (r *rpcReceipt) UnmarshalJSON(input []byte) error] *)
Definition rpcReceipt_UnmarshalJSON (r : client.rpcReceipt) (decoded : Receipt + Error)
  : client.rpcReceipt * error :=
  match decoded with
  | inr err => (r, Some err)
  | inl dec =>
      let r := match dec_Status dec with
               | Some status =>
                   client.mkRpcReceipt (Some status) (client.rcpt_ContractAddress r)
                                       (client.rcpt_GasUsed r)
               | None => r
               end in
      let r := match dec_ContractAddress dec with
               | Some a => client.mkRpcReceipt (client.rcpt_Status r) (Some a) (client.rcpt_GasUsed r)
               | None => r
               end in
      match dec_GasUsed dec with
      | None => (r, Some (missing "gasUsed"))
      | Some gasUsed =>
          (client.mkRpcReceipt (client.rcpt_Status r) (client.rcpt_ContractAddress r)
                               (Some gasUsed), None)
      end
  end.

End rpcjson.

(** * Package gasestimator: what a run of the estimator shows *)
Module gasestimator_trace.
Import gasestimator.

(** The price of the last fetch of a run that succeeded, [initGasPrice]
    when there is none; and the lines its failed fetches log. *)
Definition lastFetched (initGasPrice : Z) (actions : list Action) : Z :=
  fold_left (fun price a =>
               match a with
               | PricerReturns (inl newGasPrice) => newGasPrice
               | _ => price
               end) actions initGasPrice.

Definition failures (actions : list Action) : list string :=
  omap (fun a =>
          match a with
          | PricerReturns (inr err) =>
              Some ("gasestimator: SuggestGasPrice: " ++ Error_text err)%string
          | _ => None
          end) actions.

(** The estimator before any call of [Close]: both goroutines at work. *)
Definition open (e : GasPriceEstimator) : Prop :=
  closed e = false /\ closing e = false /\ closeOnce e = false /\ ctxDone e = false /\
  loop e <> Exited /\ canceller e = Waiting /\ wg e = 2%nat.

End gasestimator_trace.

(** * Package ethereum: [Eth], [Session] and [Transferer] *)
Module eth.

(** [types.Receipt], as far as it is read. *)
Record Receipt : Type := mkReceipt {
  Status : Z;
  TxHash : Hash;
  CumulativeGasUsed : Z
}.

Definition ReceiptStatusSuccessful : Z := 1.

(** [ethereum.CallMsg] *)
Record CallMsg : Type := mkCallMsg {
  msg_From : N;
  msg_To : option N;
  msg_Value : Z;
  msg_Data : list Byte.byte
}.

(** The arguments of [types.NewTransaction]. *)
Record RawTransaction : Type := mkRawTransaction {
  raw_nonce : Z;
  raw_to : N;
  raw_amount : Z;
  raw_gasLimit : Z;
  raw_gasPrice : bigInt;
  raw_data : list Byte.byte
}.

(** [bind.TransactOpts]; the signer is called with the Homestead signer,
    the address and the transaction. *)
Record TransactOpts : Type := mkTransactOpts {
  From : N;
  Nonce : bigInt;
  Signer : option (N -> RawTransaction -> backend.Transaction + Error);
  Value : bigInt;
  GasPrice : bigInt;
  GasLimit : Z
}.

Definition set_GasPrice (opts : TransactOpts) (gasPrice : bigInt) : TransactOpts :=
  mkTransactOpts (From opts) (Nonce opts) (Signer opts) (Value opts) gasPrice (GasLimit opts).

(** [type Eth struct]: [LogFun] is set or nil; [logged] are the messages it
    has been called with. *)
Record Eth (B : Type) : Type := mkEth {
  Backend : B;
  LogFun : bool;
  SuggestedGasPrice : bigInt;
  logged : list string
}.
Arguments mkEth {B}.
Arguments Backend {B}.
Arguments LogFun {B}.
Arguments SuggestedGasPrice {B}.
Arguments logged {B}.

Definition set_Backend {B B' : Type} (e : Eth B) (b : B') : Eth B' :=
  mkEth b (LogFun e) (SuggestedGasPrice e) (logged e).

(** [func New(b backend.Backend, lf log.Fun) *Eth] *)
Definition New {B : Type} (b : B) (lf : bool) : Eth B := mkEth b lf None [].

(** [func (e *Eth) Log] *)
Definition Log {B : Type} (e : Eth B) (msg : string) : Eth B :=
  if LogFun e then mkEth (Backend e) (LogFun e) (SuggestedGasPrice e) (logged e ++ [msg]) else e.

(** What [WaitForTxReceipt] may return: a receipt of a successful
    transaction and no error, or no receipt and an error. *)
Definition successful_or_error (tr : option Receipt) (err : error) : Prop :=
  (exists r : Receipt, tr = Some r /\ err = None /\ Status r = ReceiptStatusSuccessful) \/
  (tr = None /\ err <> None).

Section WithBackend.
Context {FilterQuery LogT LogChan Subscription B : Type}.
Context {the_backend : @backend.Backend CallMsg FilterQuery Receipt LogT LogChan Subscription B}.
(** [bind.NewKeyedTransactor], [common.Address.Hex] and [common.Hash.Hex],
    the [%+v] of a receipt, and the test [err == ethereum.NotFound] against
    the error value of go-ethereum. *)
Context {Key : Type}.
Variable NewKeyedTransactor : Key -> TransactOpts.
Variable Hex : N -> string.
Variable showReceipt : Receipt -> string.
Variable isNotFound : Error -> bool.

(** [func (e *Eth) NewSession]: the session holds a pointer to [e], so its
    methods take the [Eth] as it then is beside the options, which are the
    session's own. *)
Definition NewSession (e : Eth B) (key : Key) : TransactOpts :=
  set_GasPrice (NewKeyedTransactor key) (SuggestedGasPrice e).

(** [func (e *Eth) UpdateSuggestedGasPrice] *)
Definition UpdateSuggestedGasPrice (e : Eth B) : Eth B * error :=
  let '(b, (gasPrice, err)) := backend.SuggestGasPrice (Backend e) in
  match err with
  | Some err => (set_Backend e b, Some err)
  | None => (mkEth b (LogFun e) gasPrice (logged e), None)
  end.

(** [func (e *Eth) NewHandleNonceBackend] *)
Definition NewHandleNonceBackend (e : Eth B) (handleAddresses : list Address)
  : Eth (backend.HandleNonceBackend B) :=
  set_Backend e (backend.NewHandleNonceBackend (Backend e) handleAddresses).

(** [func (e *Eth) onlySuccessfulReceipt]; [None] is the panic on a nil
    receipt that comes without an error. *)
Definition onlySuccessfulReceipt (e : Eth B) (r : option Receipt * error)
  : option (Eth B * (option Receipt * error)) :=
  match r with
  | (_, Some err) => Some (e, (None, Some err))
  | (None, None) => None
  | (Some tr, None) =>
      if negb (Status tr =? ReceiptStatusSuccessful)
      then Some (e, (None, Some (ErrorString ("tx failed: " ++ showReceipt tr))))
      else Some (Log e "Transaction successfully mined", (Some tr, None))
  end.

(** The loop of [WaitForTxReceipt].  Each select is given by what
    [ctx.Done()] does in it: [Some err] when it wins, [err] being
    [ctx.Err()], [None] when the timer does.  The loop goes on for as long
    as there are selects. *)
Fixpoint waitLoop (e : Eth B) (txHash : Hash) (selects : list (option Error))
  : client.Outcome (Eth B * (option Receipt * error)) :=
  match selects with
  | [] => client.OutOfFuel
  | Some ctxErr :: _ => client.Returns (e, (None, Some ctxErr))
  | None :: selects' =>
      let '(b, r) := backend.TransactionReceipt (Backend e) txHash in
      match onlySuccessfulReceipt (set_Backend e b) r with
      | None => client.Panics "invalid memory address or nil pointer dereference"
      | Some (e, (tr, err)) =>
          match err with
          | Some err' =>
              if isNotFound err' then waitLoop e txHash selects'
              else client.Returns (e, (tr, err))
          | None => client.Returns (e, (tr, err))
          end
      end
  end.

(** The deferred function of [WaitForTxReceipt]. *)
Definition wrapWaiting (txHashStr : string) (err : error) : error :=
  match err with
  | Some err => Some (Errorf ("waiting for tx(" ++ txHashStr ++ ")") err)
  | None => None
  end.

(** [func (e *Eth) WaitForTxReceipt]; [commit] is the [Commit] of the
    backend when it has one. *)
Definition WaitForTxReceipt (e : Eth B) (commit : option (B -> B)) (txHash : Hash)
    (selects : list (option Error)) : client.Outcome (Eth B * (option Receipt * error)) :=
  let txHashStr := Hex txHash in
  let e := Log e "Waiting for transaction" in
  let result :=
    match commit with
    | Some commit =>
        let '(b, r) := backend.TransactionReceipt (commit (Backend e)) txHash in
        match onlySuccessfulReceipt (set_Backend e b) r with
        | None => client.Panics "invalid memory address or nil pointer dereference"
        | Some result => client.Returns result
        end
    | None => waitLoop e txHash selects
    end in
  match result with
  | client.Returns (e, (tr, err)) => client.Returns (e, (tr, wrapWaiting txHashStr err))
  | other => other
  end.

(** [func (s *Session) IsEnoughFunds]; [None] is a panic. *)
Definition IsEnoughFunds (e : Eth B) (opts : TransactOpts) (gasLimit : Z)
  : option (Eth B * (bool * bigInt * error)) :=
  match GasPrice opts with
  | None => None
  | Some gasPrice =>
      let minBalance := gasLimit * gasPrice in
      let e := Log e "Getting balance" in
      let '(b, (balance, err)) := backend.BalanceAt (Backend e) (From opts) None in
      let e := set_Backend e b in
      match err with
      | Some err =>
          Some (e, (false, Some minBalance,
                    Some (Errorf ("backend BalanceAt(" ++ Hex (From opts) ++ ")") err)))
      | None =>
          match balance with
          | None => None
          | Some balance =>
              if blocksource.Cmp balance minBalance =? -1
              then Some (e, (false, Some minBalance, None))
              else Some (e, (true, Some minBalance, None))
          end
      end
  end.

(** [func (t Transferer) SuggestGasLimit] *)
Definition SuggestGasLimit (ct : B) (opts : TransactOpts) (to : N) (input : list Byte.byte)
  : B * (bigInt * error) :=
  let value := default 0 (Value opts) in
  let msg := mkCallMsg (From opts) (Some to) value input in
  let '(ct, (gl, err)) := backend.EstimateGas ct msg in
  match err with
  | Some err => (ct, (None, Some (Errorf "failed to estimate gas needed" err)))
  | None => (ct, (Some gl, None))
  end.

(** [func (t Transferer) Transfer] *)
Definition Transfer (ct : B) (opts : TransactOpts) (to : N) (input : list Byte.byte)
  : B * (option backend.Transaction * error) :=
  let value := default 0 (Value opts) in
  let '(ct, nonce) :=
    match Nonce opts with
    | None =>
        let '(ct, (nonce, err)) := backend.PendingNonceAt ct (From opts) in
        (ct, match err with Some err => inr err | None => inl nonce end)
    | Some nonce => (ct, inl (wrap_uint64 (Z.abs nonce)))
    end in
  match nonce with
  | inr err => (ct, (None, Some (Errorf "failed to retrieve account nonce" err)))
  | inl nonce =>
      let '(ct, gasPrice) :=
        match GasPrice opts with
        | None =>
            let '(ct, (gasPrice, err)) := backend.SuggestGasPrice ct in
            (ct, match err with Some err => inr err | None => inl gasPrice end)
        | Some gasPrice => (ct, inl (Some gasPrice))
        end in
      match gasPrice with
      | inr err => (ct, (None, Some (Errorf "failed to suggest gas price" err)))
      | inl gasPrice =>
          let '(ct, gasLimit) :=
            if GasLimit opts =? 0 then
              let msg := mkCallMsg (From opts) (Some to) value input in
              let '(ct, (gasLimit, err)) := backend.EstimateGas ct msg in
              (ct, match err with Some err => inr err | None => inl gasLimit end)
            else (ct, inl (GasLimit opts)) in
          match gasLimit with
          | inr err => (ct, (None, Some (Errorf "failed to estimate gas needed" err)))
          | inl gasLimit =>
              let rawTx := mkRawTransaction nonce to value gasLimit gasPrice input in
              match Signer opts with
              | None =>
                  (ct, (None, Some (ErrorString "no signer to authorize the transaction with")))
              | Some signer =>
                  match signer (From opts) rawTx with
                  | inr err => (ct, (None, Some err))
                  | inl signedTx =>
                      let '(ct, err) := backend.SendTransaction ct signedTx in
                      match err with
                      | Some err => (ct, (None, Some err))
                      | None => (ct, (Some signedTx, None))
                      end
                  end
              end
          end
      end
  end.

End WithBackend.

(** A signer that signs for the account it is asked to sign for. *)
Definition signing : N -> RawTransaction -> backend.Transaction + Error :=
  fun address rawTx => inl (backend.mkTransaction (raw_nonce rawTx) (address, None)).

(** A node for the scenarios: it reports the pending nonce [nonce] for every
    account, the balance [balance], and accepts every transaction. *)
Record lagging : Type := mkLagging {
  nonce : Z;
  balance : Z
}.

#[global] Instance lagging_Backend : @backend.Backend CallMsg unit Receipt unit unit unit lagging := {|
  backend.CodeAt m _ _ := (m, ([], None));
  backend.CallContract m _ _ := (m, ([], None));
  backend.PendingCodeAt m _ := (m, ([], None));
  backend.PendingNonceAt m _ := (m, (nonce m, None));
  backend.SuggestGasPrice m := (m, (Some 1, None));
  backend.EstimateGas m _ := (m, (21000, None));
  backend.SendTransaction m _ := (m, None);
  backend.TransactionReceipt m hash := (m, (Some (mkReceipt 1 hash 21000), None));
  backend.BalanceAt m _ _ := (m, (Some (balance m), None));
  backend.FilterLogs m _ := (m, ([], None));
  backend.SubscribeFilterLogs m _ _ := (m, (None, None));
  backend.TransactionByHash m _ := (m, (None, false, None))
|}.

End eth.

(** * Backends that record what they are sent *)
Module recording.
Import backend.

(** A backend together with the transactions [SendTransaction] has been
    called with, in order, whether it accepted them or not. *)
Record Recording (B : Type) : Type := mkRecording {
  node : B;
  sent : list Transaction
}.
Arguments mkRecording {B}.
Arguments node {B}.
Arguments sent {B}.

Section Recording.
Context {CallMsg FilterQuery Receipt Log LogChan Subscription B : Type}.
Context {inner_backend : @Backend CallMsg FilterQuery Receipt Log LogChan Subscription B}.

Definition through {R : Type} (r : Recording B) (call : B -> B * R) : Recording B * R :=
  let '(b, res) := call (node r) in (mkRecording b (sent r), res).

#[global] Instance Recording_Backend :
  @Backend CallMsg FilterQuery Receipt Log LogChan Subscription (Recording B) := {|
  CodeAt r contract blockNumber := through r (fun b => CodeAt b contract blockNumber);
  CallContract r call blockNumber := through r (fun b => CallContract b call blockNumber);
  PendingCodeAt r account := through r (fun b => PendingCodeAt b account);
  PendingNonceAt r account := through r (fun b => PendingNonceAt b account);
  SuggestGasPrice r := through r SuggestGasPrice;
  EstimateGas r call := through r (fun b => EstimateGas b call);
  SendTransaction r tx :=
    let '(b, err) := SendTransaction (node r) tx in (mkRecording b (sent r ++ [tx]), err);
  TransactionReceipt r txHash := through r (fun b => TransactionReceipt b txHash);
  BalanceAt r address blockNum := through r (fun b => BalanceAt b address blockNum);
  FilterLogs r query := through r (fun b => FilterLogs b query);
  SubscribeFilterLogs r query ch := through r (fun b => SubscribeFilterLogs b query ch);
  TransactionByHash r txHash := through r (fun b => TransactionByHash b txHash)
|}.

End Recording.
End recording.

(** * Package backend: [SimulatedBackendExt] *)
Module simulated.
Import backend.

(** [type SimulatedBackendExt struct { b *backends.SimulatedBackend; txs sync.Map }];
    [txs] maps the hash of a transaction to the transaction. *)
Record SimulatedBackendExt (S : Type) : Type := mkSimulatedBackendExt {
  b : S;
  txs : gmap N Transaction
}.
Arguments mkSimulatedBackendExt {S}.
Arguments b {S}.
Arguments txs {S}.

Section Ext.
Context {CallMsg FilterQuery Receipt Log LogChan Subscription S : Type}.
(** The simulated backend of go-ethereum: the methods of [Backend] it has,
    and [Commit] and [Rollback]. *)
Context {simulated_backend : @Backend CallMsg FilterQuery Receipt Log LogChan Subscription S}.
Context {simulated_chain : backend_sim.commiterRollbacker S}.
(** [tx.Hash()], and the error value [ethereum.NotFound] of go-ethereum. *)
Variable TxHash : Transaction -> Hash.
Variable NotFound : Error.

Definition set_b (ext : SimulatedBackendExt S) (s : S) : SimulatedBackendExt S :=
  mkSimulatedBackendExt s (txs ext).

(** The methods that return what the simulated backend returns. *)
Definition forwardExt {R : Type} (ext : SimulatedBackendExt S) (call : S -> S * R)
  : SimulatedBackendExt S * R :=
  let '(s, r) := call (b ext) in (set_b ext s, r).

(** [func (b *SimulatedBackendExt) SendTransaction] *)
Definition SimulatedBackendExt_SendTransaction (ext : SimulatedBackendExt S) (tx : Transaction)
  : SimulatedBackendExt S * error :=
  let '(s, err) := SendTransaction (b ext) tx in
  match err with
  | None => (mkSimulatedBackendExt s (<[TxHash tx := tx]> (txs ext)), err)
  | Some _ => (set_b ext s, err)
  end.

(** [func (b *SimulatedBackendExt) TransactionByHash] *)
Definition SimulatedBackendExt_TransactionByHash (ext : SimulatedBackendExt S) (txHash : Hash)
  : SimulatedBackendExt S * (option Transaction * bool * error) :=
  match txs ext !! txHash with
  | None => (ext, (None, false, Some NotFound))
  | Some tx =>
      let '(s, (txr, _)) := TransactionReceipt (b ext) txHash in
      (set_b ext s, (Some tx, if txr is None then true else false, None))
  end.

(** [func (b *SimulatedBackendExt) Commit] and [Rollback] *)
Definition SimulatedBackendExt_Commit (ext : SimulatedBackendExt S) : SimulatedBackendExt S :=
  set_b ext (backend_sim.Commit (b ext)).

Definition SimulatedBackendExt_Rollback (ext : SimulatedBackendExt S) : SimulatedBackendExt S :=
  set_b ext (backend_sim.Rollback (b ext)).

(** A call of one of the methods of [SimulatedBackendExt]. *)
Inductive ExtCall : Type :=
| OfBackend (c : Call CallMsg FilterQuery LogChan)
| CallCommit
| CallRollback.

Definition execExt (c : ExtCall) (ext : SimulatedBackendExt S) : SimulatedBackendExt S :=
  match c with
  | OfBackend (CallCodeAt contract blockNumber) =>
      (forwardExt ext (fun s => CodeAt s contract blockNumber)).1
  | OfBackend (CallCallContract call blockNumber) =>
      (forwardExt ext (fun s => CallContract s call blockNumber)).1
  | OfBackend (CallPendingCodeAt account) => (forwardExt ext (fun s => PendingCodeAt s account)).1
  | OfBackend (CallPendingNonceAt account) =>
      (forwardExt ext (fun s => PendingNonceAt s account)).1
  | OfBackend CallSuggestGasPrice => (forwardExt ext SuggestGasPrice).1
  | OfBackend (CallEstimateGas call) => (forwardExt ext (fun s => EstimateGas s call)).1
  | OfBackend (CallSendTransaction tx) => (SimulatedBackendExt_SendTransaction ext tx).1
  | OfBackend (CallTransactionReceipt txHash) =>
      (forwardExt ext (fun s => TransactionReceipt s txHash)).1
  | OfBackend (CallBalanceAt address blockNum) =>
      (forwardExt ext (fun s => BalanceAt s address blockNum)).1
  | OfBackend (CallFilterLogs query) => (forwardExt ext (fun s => FilterLogs s query)).1
  | OfBackend (CallSubscribeFilterLogs query ch) =>
      (forwardExt ext (fun s => SubscribeFilterLogs s query ch)).1
  | OfBackend (CallTransactionByHash txHash) =>
      (SimulatedBackendExt_TransactionByHash ext txHash).1
  | CallCommit => SimulatedBackendExt_Commit ext
  | CallRollback => SimulatedBackendExt_Rollback ext
  end.

Definition runExt (calls : list ExtCall) (ext : SimulatedBackendExt S) : SimulatedBackendExt S :=
  fold_left (fun ext c => execExt c ext) calls ext.

End Ext.
End simulated.

(** * Scenarios *)

(** The backend of the tests: the node reports the pending nonce [nonce]
    for every account and accepts every transaction. *)
Definition node_reporting (nonce : Z) : backend.backendMock :=
  {| backend.PendingNonceAtFunc := fun _ => (nonce, None);
     backend.SendTransactionFunc := fun _ => None |}.

Definition failing_node : backend.backendMock :=
  {| backend.PendingNonceAtFunc := fun _ => (0, Some (ErrorString "PendingNonceAt failed"));
     backend.SendTransactionFunc := fun _ => Some (ErrorString "SendTransaction failed") |}.

Definition handledAddress : Address := 7%N.

Definition createTx (sender : Address) (nonce : Z) : backend.Transaction :=
  {| backend.Nonce := nonce; backend.Sender := (sender, None) |}.

(** Nodes for the scenarios of the block source.  [node head indexed] has
    its head at [head] and returns the blocks up to [indexed], the head
    block when asked for the latest; [unreachable_node] fails every call;
    [lying_node height] returns a block of height [height] whatever it is
    asked for. *)
Definition block_at (n : Z) : blocksource.Block := blocksource.mkBlock n (Z.to_N n).

Definition node (head indexed : Z) : blocksource.World :=
  {| blocksource.closeDuringDelay := false;
     blocksource.eth_blockNumber := inl head;
     blocksource.BlockByNumber := fun number =>
       match number with
       | None => inl (block_at head)
       | Some n => if n <=? indexed then inl (block_at n) else inr ErrNotFound
       end;
     blocksource.closeDuringDelivery := false |}.

Definition unreachable_node : blocksource.World :=
  {| blocksource.closeDuringDelay := false;
     blocksource.eth_blockNumber := inr (ErrorString "connection refused");
     blocksource.BlockByNumber := fun _ => inr (ErrorString "connection refused");
     blocksource.closeDuringDelivery := false |}.

Definition lying_node (height : Z) : blocksource.World :=
  {| blocksource.closeDuringDelay := false;
     blocksource.eth_blockNumber := inl 100;
     blocksource.BlockByNumber := fun _ => inl (block_at height);
     blocksource.closeDuringDelivery := false |}.

(** An estimator whose loop is inside the fetch. *)
Definition fetching_estimator : gasestimator.GasPriceEstimator :=
  gasestimator.mkGasPriceEstimator 7 false false false false 2
    gasestimator.Fetching gasestimator.Waiting [].

(** A run in which the price 2 arrives and a call of [Close] then runs to
    its end. *)
Definition closed_estimator_run : list gasestimator.Action :=
  [gasestimator.TimerFires; gasestimator.PricerReturns (inl 2);
   gasestimator.CloseCalled; gasestimator.ClosedReceived;
   gasestimator.ContextDone; gasestimator.CloseReturned].

(** A block of [n] transactions, the hash of each its index. *)
Definition numbered (n : nat) : list client.Transaction :=
  (fun i => client.mkTransaction (N.of_nat i) None None None) <$> seq 0 n.

(** * Properties *)

(** Every way through one turn of the loop. *)
Ltac iteration_cases :=
  unfold blocksource.iteration, blocksource.refreshHead, blocksource.fetchBlock,
    client.BlockNumber;
  repeat case_match; simplify_eq/=; intros; simplify_eq/=.

(** A required field is missing: the error is that of the field, and the
    list of required fields has it absent. *)
Ltac field_missing :=
  cbn; split;
  [ split; [done|];
    let H := fresh "H" in
    intros H; rewrite Forall_lookup in H; exfalso;
    first [ specialize (H 0%nat _ eq_refl); by vm_compute in H
          | specialize (H 1%nat _ eq_refl); by vm_compute in H
          | specialize (H 2%nat _ eq_refl); by vm_compute in H
          | specialize (H 3%nat _ eq_refl); by vm_compute in H
          | specialize (H 4%nat _ eq_refl); by vm_compute in H
          | specialize (H 5%nat _ eq_refl); by vm_compute in H
          | specialize (H 6%nat _ eq_refl); by vm_compute in H
          | specialize (H 7%nat _ eq_refl); by vm_compute in H
          | specialize (H 8%nat _ eq_refl); by vm_compute in H
          | specialize (H 9%nat _ eq_refl); by vm_compute in H
          | specialize (H 10%nat _ eq_refl); by vm_compute in H
          | specialize (H 11%nat _ eq_refl); by vm_compute in H ]
  | split; [vm_compute; reflexivity | split; done] ].

Section BackendFacts.
Import backend.
Context {CallMsg FilterQuery Receipt Log LogChan Subscription B : Type}.
Context {inner_backend : @Backend CallMsg FilterQuery Receipt Log LogChan Subscription B}.
Implicit Types (b : HandleNonceBackend B) (A account : Address) (tx : Transaction).

Lemma PendingNonceAt_inner b account :
  inner (HandleNonceBackend_PendingNonceAt b account).1 = (PendingNonceAt (inner b) account).1.
Proof.
  unfold HandleNonceBackend_PendingNonceAt.
  destruct (PendingNonceAt (inner b) account) as [i [nonce [e|]]]; simpl; [done|].
  destruct (addressNonce b !! account) as [w|]; simpl; [|done].
  by destruct (nonce >? w).
Qed.

(** C1. When the inner [PendingNonceAt] succeeds with [innerValue]: for an
    account that is not watched the decorator returns [innerValue] and
    leaves the table alone; for a watched account with stored watermark
    [w] it returns [max innerValue w], raises the entry of that account to
    [innerValue] when [innerValue > w], and leaves the table unchanged
    otherwise. *)
Theorem C1_PendingNonceAt_success b A (inner' : B) (innerValue : Z) :
  PendingNonceAt (inner b) A = (inner', (innerValue, None)) ->
  let r := HandleNonceBackend_PendingNonceAt b A in
  r.2.2 = None /\ inner r.1 = inner' /\
  match addressNonce b !! A with
  | None => r.2.1 = innerValue /\ addressNonce r.1 = addressNonce b
  | Some storedWatermark =>
      r.2.1 = Z.max innerValue storedWatermark /\
      (innerValue > storedWatermark -> addressNonce r.1 = <[A := innerValue]> (addressNonce b)) /\
      (innerValue <= storedWatermark -> addressNonce r.1 = addressNonce b)
  end.
Proof.
  intros Hinner r. subst r. unfold HandleNonceBackend_PendingNonceAt.
  rewrite Hinner. simpl.
  destruct (addressNonce b !! A) as [w|] eqn:Hw; simpl; [|done].
  destruct (Z.gtb_spec innerValue w) as [Hgt|Hle]; simpl;
    (split; [done|]); (split; [done|]); (split; [lia|]); split; intros; try done; lia.
Qed.

Lemma watermarks_le_refl (m : gmap N Z) : watermarks_le m m.
Proof. intros A w Hw. exists w. split; [done | lia]. Qed.

Lemma watermarks_le_trans (m1 m2 m3 : gmap N Z) :
  watermarks_le m1 m2 -> watermarks_le m2 m3 -> watermarks_le m1 m3.
Proof.
  intros H12 H23 A w Hw.
  destruct (H12 A w Hw) as (w2 & Hw2 & Hle2).
  destruct (H23 A w2 Hw2) as (w3 & Hw3 & Hle3).
  exists w3. split; [done | lia].
Qed.

Lemma watermarks_le_raise (m : gmap N Z) (a : Address) (old new : Z) :
  m !! a = Some old -> old <= new -> watermarks_le m (<[a := new]> m).
Proof.
  intros Hold Hle A w Hw. destruct (decide (a = A)) as [->|Hne].
  - exists new. rewrite lookup_insert_eq. split; [done|]. congruence.
  - exists w. rewrite lookup_insert_ne by done. split; [done | lia].
Qed.

Lemma forward_addressNonce {R : Type} b (call : B -> B * R) :
  addressNonce (forward b call).1 = addressNonce b.
Proof. unfold forward. by destruct (call (inner b)). Qed.

Lemma PendingNonceAt_watermarks b account :
  watermarks_le (addressNonce b) (addressNonce (HandleNonceBackend_PendingNonceAt b account).1).
Proof.
  unfold HandleNonceBackend_PendingNonceAt.
  destruct (PendingNonceAt (inner b) account) as [i [nonce [e|]]]; simpl;
    [apply watermarks_le_refl|].
  destruct (addressNonce b !! account) as [w|] eqn:Hw; simpl; [|apply watermarks_le_refl].
  destruct (Z.gtb_spec nonce w); simpl; [|apply watermarks_le_refl].
  apply (watermarks_le_raise _ _ w); [done | lia].
Qed.

Lemma incrementNonce_watermarks b tx :
  watermarks_le (addressNonce b) (addressNonce (incrementNonce b tx)).
Proof.
  unfold incrementNonce. destruct (Sender tx) as [from [e|]]; [apply watermarks_le_refl|].
  destruct (addressNonce b !! from) as [w|] eqn:Hw; [|apply watermarks_le_refl].
  simpl. destruct (Z.gtb_spec (wrap_uint64 (Nonce tx + 1)) w); simpl; [|apply watermarks_le_refl].
  apply (watermarks_le_raise _ _ w); [done | lia].
Qed.

Lemma SendTransaction_watermarks b tx :
  watermarks_le (addressNonce b) (addressNonce (HandleNonceBackend_SendTransaction b tx).1).
Proof.
  unfold HandleNonceBackend_SendTransaction.
  destruct (SendTransaction (inner b) tx) as [i [e|]]; simpl; [apply watermarks_le_refl|].
  apply (incrementNonce_watermarks (set_inner b i) tx).
Qed.

Lemma exec_watermarks (c : Call CallMsg FilterQuery LogChan) b :
  watermarks_le (addressNonce b) (addressNonce (exec c b)).
Proof.
  destruct c; simpl;
    try (unfold HandleNonceBackend_CodeAt, HandleNonceBackend_CallContract,
           HandleNonceBackend_PendingCodeAt, HandleNonceBackend_SuggestGasPrice,
           HandleNonceBackend_EstimateGas, HandleNonceBackend_TransactionReceipt,
           HandleNonceBackend_BalanceAt, HandleNonceBackend_FilterLogs,
           HandleNonceBackend_SubscribeFilterLogs, HandleNonceBackend_TransactionByHash;
         rewrite forward_addressNonce; apply watermarks_le_refl).
  - apply PendingNonceAt_watermarks.
  - apply SendTransaction_watermarks.
Qed.

Lemma run_watermarks (calls : list (Call CallMsg FilterQuery LogChan)) b :
  watermarks_le (addressNonce b) (addressNonce (run calls b)).
Proof.
  revert b. induction calls as [|c calls IH]; intros b; simpl.
  - apply watermarks_le_refl.
  - eapply watermarks_le_trans; [apply (exec_watermarks c) | apply IH].
Qed.

Lemma run_app (calls1 calls2 : list (Call CallMsg FilterQuery LogChan)) b :
  run (calls1 ++ calls2) b = run calls2 (run calls1 b).
Proof. unfold run. apply fold_left_app. Qed.

(** What [PendingNonceAt] does for a watched account, in one equation. *)
Lemma PendingNonceAt_watched b A (w : Z) :
  addressNonce b !! A = Some w ->
  forall (i : B) (v : Z), PendingNonceAt (inner b) A = (i, (v, None)) ->
  (HandleNonceBackend_PendingNonceAt b A).2 = (Z.max v w, None) /\
  addressNonce (HandleNonceBackend_PendingNonceAt b A).1 !! A = Some (Z.max v w).
Proof.
  intros Hw i v Hi. unfold HandleNonceBackend_PendingNonceAt. rewrite Hi. simpl. rewrite Hw.
  destruct (Z.gtb_spec v w); simpl.
  - rewrite lookup_insert_eq. by rewrite Z.max_l by lia.
  - rewrite Hw. by rewrite Z.max_r by lia.
Qed.

Lemma nonceObservations_sorted A (calls : list (Call CallMsg FilterQuery LogChan)) :
  forall b (w : Z), addressNonce b !! A = Some w ->
  Sorted Z.le (nonceObservations A calls b).*2 /\
  Forall (fun o => w <= o.2 /\ o.1 <= o.2) (nonceObservations A calls b).
Proof.
  induction calls as [|c calls IH]; intros b w Hw; simpl; [by split; constructor|].
  destruct (exec_watermarks c b A w Hw) as (w' & Hw' & Hle).
  destruct (IH (exec c b) w' Hw') as [Hsorted Hall].
  remember (nonceObservations A calls (exec c b)) as later eqn:Hlater. clear Hlater.
  assert (Hweak : Forall (fun o : Z * Z => w <= o.2 /\ o.1 <= o.2) later).
  { eapply Forall_impl; [exact Hall|]. simpl. intros o [? ?]. lia. }
  destruct c; try (split; assumption).
  destruct (decide (account = A)) as [->|]; [|split; assumption].
  destruct (PendingNonceAt (inner b) A) as [i [v [e|]]] eqn:Hi; simpl; [split; assumption|].
  destruct (PendingNonceAt_watched b A w Hw i v Hi) as [Hret Htab].
  rewrite Hret. simpl in Hw'. rewrite Htab in Hw'. injection Hw' as <-.
  split.
  - simpl. constructor; [exact Hsorted|].
    destruct later as [|o obs]; simpl; constructor.
    apply Forall_cons in Hall as [[? ?] _]. done.
  - constructor; [simpl; lia | exact Hweak].
Qed.

(** C3. For a watched account [A], the stored watermark never decreases
    along a sequence of calls of the decorator's methods, whatever they
    are; and when the nonces that the inner backend reported to the
    successful [PendingNonceAt(A)] calls of a sequence are non-decreasing,
    so are the nonces the decorator returned, each of them at least the
    inner nonce of its call. *)
Theorem C3_watermark_and_nonces_monotone b A (w : Z)
    (calls1 calls2 : list (Call CallMsg FilterQuery LogChan)) :
  addressNonce b !! A = Some w ->
  (exists w1 w2 : Z,
      addressNonce (run calls1 b) !! A = Some w1 /\
      addressNonce (run (calls1 ++ calls2) b) !! A = Some w2 /\
      w <= w1 /\ w1 <= w2) /\
  (Sorted Z.le (nonceObservations A calls1 b).*1 ->
   Sorted Z.le (nonceObservations A calls1 b).*2 /\
   Forall (fun o => o.1 <= o.2) (nonceObservations A calls1 b)).
Proof.
  intros Hw. split.
  - destruct (run_watermarks calls1 b A w Hw) as (w1 & Hw1 & Hle1).
    destruct (run_watermarks calls2 (run calls1 b) A w1 Hw1) as (w2 & Hw2 & Hle2).
    exists w1, w2. rewrite run_app. done.
  - intros _. destruct (nonceObservations_sorted A calls1 b w Hw) as [Hs Hall].
    split; [exact Hs|]. eapply Forall_impl; [exact Hall|]. simpl. intros o [? ?]. done.
Qed.

(** C4. When the inner call fails, [PendingNonceAt] and [SendTransaction]
    return just what the inner backend returned, the error included, and
    the nonce table is the one from before the call, for any account. *)
Theorem C4_inner_error_leaves_table b A tx :
  (forall (inner' : B) (nonce : Z) (e : Error),
      PendingNonceAt (inner b) A = (inner', (nonce, Some e)) ->
      (HandleNonceBackend_PendingNonceAt b A).2 = (nonce, Some e) /\
      addressNonce (HandleNonceBackend_PendingNonceAt b A).1 = addressNonce b /\
      inner (HandleNonceBackend_PendingNonceAt b A).1 = inner') /\
  (forall (inner' : B) (e : Error),
      SendTransaction (inner b) tx = (inner', Some e) ->
      (HandleNonceBackend_SendTransaction b tx).2 = Some e /\
      addressNonce (HandleNonceBackend_SendTransaction b tx).1 = addressNonce b /\
      inner (HandleNonceBackend_SendTransaction b tx).1 = inner').
Proof.
  split.
  - intros inner' nonce e Hinner. unfold HandleNonceBackend_PendingNonceAt. by rewrite Hinner.
  - intros inner' e Hinner. unfold HandleNonceBackend_SendTransaction. by rewrite Hinner.
Qed.

Lemma incrementNonce_watched b tx A (w : Z) :
  Sender tx = (A, None) -> addressNonce b !! A = Some w ->
  incrementNonce b tx =
    if wrap_uint64 (Nonce tx + 1) >? w
    then set_addressNonce b (<[A := wrap_uint64 (Nonce tx + 1)]> (addressNonce b))
    else b.
Proof. intros Hs Hw. unfold incrementNonce. by rewrite Hs, Hw. Qed.

Lemma wrap_uint64_small (z : Z) : 0 <= z <= uint64_max -> wrap_uint64 z = z.
Proof. unfold wrap_uint64, uint64_max. intros H. apply Z.mod_small. lia. Qed.

Lemma PendingNonceAt_same_table b b' A :
  addressNonce b = addressNonce b' -> inner b = inner b' ->
  (HandleNonceBackend_PendingNonceAt b A).2 = (HandleNonceBackend_PendingNonceAt b' A).2.
Proof.
  intros Ht Hi. unfold HandleNonceBackend_PendingNonceAt. rewrite Hi.
  destruct (PendingNonceAt (inner b') A) as [i [nonce [e|]]]; simpl; [done|].
  rewrite Ht. destruct (addressNonce b' !! A); [|done]. by destruct (nonce >? z).
Qed.

(** C2, as the code has it.  Let a transaction of nonce [n < 2^64 - 1] be
    sent with success, its signer recovered as the watched account [A] with
    stored watermark [w].  Then the watermark of [A] becomes [max w (n+1)]
    and no other entry changes; a [PendingNonceAt(A)] made next returns at
    least [n+1] whatever the inner backend reports; and a later successful
    [SendTransaction] from [A] with a smaller nonce, after any calls in
    between, leaves the whole table, and so what [PendingNonceAt] returns,
    as it was. *)
Theorem C2_SendTransaction_raises_watermark b tx A (w : Z) (inner' : B) :
  SendTransaction (inner b) tx = (inner', None) ->
  Sender tx = (A, None) ->
  addressNonce b !! A = Some w ->
  0 <= Nonce tx < uint64_max ->
  let b1 := (HandleNonceBackend_SendTransaction b tx).1 in
  (HandleNonceBackend_SendTransaction b tx).2 = None /\
  addressNonce b1 !! A = Some (Z.max w (Nonce tx + 1)) /\
  (forall a : Address, a <> A -> addressNonce b1 !! a = addressNonce b !! a) /\
  (forall (i : B) (v : Z),
      PendingNonceAt (inner b1) A = (i, (v, None)) ->
      exists r : Z, (HandleNonceBackend_PendingNonceAt b1 A).2 = (r, None) /\ Nonce tx + 1 <= r) /\
  (forall (calls : list (Call CallMsg FilterQuery LogChan)) (tx2 : Transaction) (i2 : B),
      let b2 := run calls b1 in
      let b3 := (HandleNonceBackend_SendTransaction b2 tx2).1 in
      Sender tx2 = (A, None) ->
      0 <= Nonce tx2 < Nonce tx ->
      SendTransaction (inner b2) tx2 = (i2, None) ->
      addressNonce b3 = addressNonce b2 /\
      forall i : B,
        (HandleNonceBackend_PendingNonceAt (set_inner b3 i) A).2 =
        (HandleNonceBackend_PendingNonceAt (set_inner b2 i) A).2).
Proof.
  intros Hsend Hsender Hw Hrange b1.
  assert (Hwrap : wrap_uint64 (Nonce tx + 1) = Nonce tx + 1)
    by (apply wrap_uint64_small; lia).
  assert (Hb1 : b1 = incrementNonce (set_inner b inner') tx).
  { subst b1. unfold HandleNonceBackend_SendTransaction. by rewrite Hsend. }
  assert (Htab : addressNonce b1 !! A = Some (Z.max w (Nonce tx + 1)) /\
                 forall a : Address, a <> A -> addressNonce b1 !! a = addressNonce b !! a).
  { rewrite Hb1, (incrementNonce_watched _ tx A w) by done. rewrite Hwrap.
    destruct (Z.gtb_spec (Nonce tx + 1) w); simpl.
    - rewrite lookup_insert_eq. split; [f_equal; lia|]. intros a Ha. by rewrite lookup_insert_ne.
    - split; [rewrite Hw; f_equal; lia | done]. }
  destruct Htab as [HA Hother].
  split; [unfold HandleNonceBackend_SendTransaction; by rewrite Hsend|].
  split; [exact HA|]. split; [exact Hother|]. split.
  - intros i v Hi. destruct (PendingNonceAt_watched b1 A _ HA i v Hi) as [Hret _].
    eexists. split; [exact Hret | lia].
  - intros calls tx2 i2 b2 b3 Hsender2 Hrange2 Hsend2.
    destruct (run_watermarks calls b1 A _ HA) as (w2 & Hw2 & Hle2). fold b2 in Hw2.
    assert (Hb3 : addressNonce b3 = addressNonce b2).
    { subst b3. unfold HandleNonceBackend_SendTransaction. rewrite Hsend2. simpl.
      rewrite (incrementNonce_watched _ tx2 A w2) by done.
      rewrite wrap_uint64_small by (unfold uint64_max in *; lia).
      destruct (Z.gtb_spec (Nonce tx2 + 1) w2); [lia | done]. }
    split; [exact Hb3|]. intros i. by apply PendingNonceAt_same_table.
Qed.

End BackendFacts.

Lemma C1_PendingNonceAt_success_witness :
  let b := backend.NewHandleNonceBackend (node_reporting 12) [handledAddress] in
  let r := backend.HandleNonceBackend_PendingNonceAt b handledAddress in
  r.2.2 = None /\ backend.inner r.1 = node_reporting 12 /\
  r.2.1 = Z.max 12 0 /\
  (12 > 0 -> backend.addressNonce r.1 = <[handledAddress := 12]> (backend.addressNonce b)) /\
  (12 <= 0 -> backend.addressNonce r.1 = backend.addressNonce b).
Proof.
  exact (C1_PendingNonceAt_success
           (backend.NewHandleNonceBackend (node_reporting 12) [handledAddress])
           handledAddress (node_reporting 12) 12 eq_refl).
Defined.

Lemma C2_SendTransaction_raises_watermark_witness :
  let b := backend.NewHandleNonceBackend (node_reporting 12) [handledAddress] in
  let tx := createTx handledAddress 50 in
  let b1 := (backend.HandleNonceBackend_SendTransaction b tx).1 in
  (backend.SendTransaction (backend.inner b) tx = (node_reporting 12, None) /\
   backend.Sender tx = (handledAddress, None) /\
   backend.addressNonce b !! handledAddress = Some 0 /\
   0 <= backend.Nonce tx < uint64_max) /\
  backend.addressNonce b1 !! handledAddress = Some (Z.max 0 (50 + 1)) /\
  (exists r : Z,
      (backend.HandleNonceBackend_PendingNonceAt b1 handledAddress).2 = (r, None) /\ 50 + 1 <= r) /\
  backend.addressNonce (backend.HandleNonceBackend_SendTransaction b1 (createTx handledAddress 40)).1 =
    backend.addressNonce b1.
Proof.
  intros b tx b1.
  assert (Hr : 0 <= backend.Nonce tx < uint64_max) by (unfold uint64_max; simpl; lia).
  assert (Hsend : backend.SendTransaction (backend.inner b) tx = (node_reporting 12, None))
    by reflexivity.
  assert (Hw : backend.addressNonce b !! handledAddress = Some 0) by reflexivity.
  split; [repeat split; try reflexivity; apply Hr|].
  destruct (C2_SendTransaction_raises_watermark b tx handledAddress 0 (node_reporting 12)
              Hsend eq_refl Hw Hr) as (_ & H2 & _ & H4 & H5).
  split; [exact H2|]. split; [apply (H4 (node_reporting 12) 12); reflexivity|].
  apply (H5 [] (createTx handledAddress 40) (node_reporting 12)); [reflexivity | | reflexivity].
  simpl. lia.
Defined.

(** The scenario of the tests: the node reports 12 throughout; the
    decorator answers 12, then 51 after a transaction of nonce 50 is sent,
    and still 51 after one of nonce 40. *)
Example backend_nonce_scenario :
  let A := handledAddress in
  let b0 := backend.NewHandleNonceBackend (node_reporting 12) [A] in
  let r0 := backend.HandleNonceBackend_PendingNonceAt b0 A in
  let b1 := (backend.HandleNonceBackend_SendTransaction r0.1 (createTx A 50)).1 in
  let r1 := backend.HandleNonceBackend_PendingNonceAt b1 A in
  let b2 := (backend.HandleNonceBackend_SendTransaction r1.1 (createTx A 40)).1 in
  let r2 := backend.HandleNonceBackend_PendingNonceAt b2 A in
  r0.2 = (12, None) /\ r1.2 = (51, None) /\ r2.2 = (51, None) /\
  (backend.HandleNonceBackend_PendingNonceAt b2 8%N).2 = (12, None).
Proof. vm_compute. done. Qed.

(** C2 fails as stated at the largest uint64 nonce: [tx.Nonce() + 1] wraps
    to 0, so the watermark of the watched signer stays at 0 instead of
    [max 0 (nonce + 1)], the next [PendingNonceAt] returns what the node
    reports, which is below [nonce + 1], and a later transaction of the
    smaller nonce 5 raises the watermark to 6. *)
Lemma C2_counterexample :
  let b := backend.NewHandleNonceBackend (node_reporting uint64_max) [handledAddress] in
  let tx := createTx handledAddress uint64_max in
  let tx2 := createTx handledAddress 5 in
  let b1 := (backend.HandleNonceBackend_SendTransaction b tx).1 in
  let b2 := (backend.HandleNonceBackend_SendTransaction b1 tx2).1 in
  backend.addressNonce b !! handledAddress = Some 0 /\
  (backend.HandleNonceBackend_SendTransaction b tx).2 = None /\
  backend.addressNonce b1 !! handledAddress = Some 0 /\
  backend.addressNonce b1 !! handledAddress <> Some (Z.max 0 (backend.Nonce tx + 1)) /\
  (backend.HandleNonceBackend_PendingNonceAt b1 handledAddress).2 = (uint64_max, None) /\
  ~ (backend.Nonce tx + 1 <= uint64_max) /\
  backend.Nonce tx2 < backend.Nonce tx /\
  (backend.HandleNonceBackend_SendTransaction b1 tx2).2 = None /\
  backend.addressNonce b2 !! handledAddress = Some 6 /\
  backend.addressNonce b2 <> backend.addressNonce b1.
Proof.
  intros b tx tx2 b1 b2.
  assert (H1 : backend.addressNonce b1 !! handledAddress = Some 0) by (vm_compute; reflexivity).
  assert (H2 : backend.addressNonce b2 !! handledAddress = Some 6) by (vm_compute; reflexivity).
  split; [vm_compute; reflexivity|]. split; [vm_compute; reflexivity|].
  split; [exact H1|]. split; [rewrite H1; vm_compute; congruence|].
  split; [vm_compute; reflexivity|]. split; [vm_compute; congruence|].
  split; [vm_compute; reflexivity|]. split; [vm_compute; reflexivity|].
  split; [exact H2|]. intros Heq. rewrite Heq, H1 in H2. discriminate.
Qed.

Lemma C3_watermark_and_nonces_monotone_witness :
  let b := backend.NewHandleNonceBackend (node_reporting 12) [handledAddress] in
  let calls1 : list (backend.Call unit unit unit) :=
    [backend.CallPendingNonceAt handledAddress;
     backend.CallSendTransaction (createTx handledAddress 50);
     backend.CallPendingNonceAt handledAddress] in
  let calls2 : list (backend.Call unit unit unit) :=
    [backend.CallSendTransaction (createTx handledAddress 40);
     backend.CallPendingNonceAt handledAddress] in
  (backend.addressNonce b !! handledAddress = Some 0 /\
   (backend.nonceObservations handledAddress calls1 b).*1 = [12; 12] /\
   Sorted Z.le [12; 12]) /\
  (exists w1 w2 : Z,
      backend.addressNonce (backend.run calls1 b) !! handledAddress = Some w1 /\
      backend.addressNonce (backend.run (calls1 ++ calls2) b) !! handledAddress = Some w2 /\
      0 <= w1 /\ w1 <= w2) /\
  Sorted Z.le (backend.nonceObservations handledAddress calls1 b).*2 /\
  Forall (fun o => o.1 <= o.2) (backend.nonceObservations handledAddress calls1 b).
Proof.
  intros b calls1 calls2.
  assert (Hs : Sorted Z.le [12; 12]) by (repeat constructor; lia).
  split; [split; [reflexivity | split; [reflexivity | exact Hs]]|].
  assert (Hw : backend.addressNonce b !! handledAddress = Some 0) by reflexivity.
  destruct (C3_watermark_and_nonces_monotone b handledAddress 0 calls1 calls2 Hw)
    as [Hmono Hobs].
  split; [exact Hmono | exact (Hobs Hs)].
Defined.

Lemma C4_inner_error_leaves_table_witness :
  let b := backend.NewHandleNonceBackend failing_node [handledAddress] in
  let tx := createTx handledAddress 50 in
  (backend.PendingNonceAt (backend.inner b) handledAddress =
     (failing_node, (0, Some (ErrorString "PendingNonceAt failed"))) /\
   backend.SendTransaction (backend.inner b) tx =
     (failing_node, Some (ErrorString "SendTransaction failed"))) /\
  ((backend.HandleNonceBackend_PendingNonceAt b handledAddress).2 =
     (0, Some (ErrorString "PendingNonceAt failed")) /\
   backend.addressNonce (backend.HandleNonceBackend_PendingNonceAt b handledAddress).1 =
     backend.addressNonce b) /\
  ((backend.HandleNonceBackend_SendTransaction b tx).2 = Some (ErrorString "SendTransaction failed") /\
   backend.addressNonce (backend.HandleNonceBackend_SendTransaction b tx).1 = backend.addressNonce b).
Proof.
  intros b tx. split; [split; reflexivity|].
  destruct (C4_inner_error_leaves_table b handledAddress tx) as [Hp Hs].
  edestruct (Hp failing_node 0) as (Hp1 & Hp2 & _); [reflexivity|].
  edestruct (Hs failing_node) as (Hs1 & Hs2 & _); [reflexivity|].
  split; split; assumption.
Defined.

Section BlockSourceFacts.
Import blocksource.
Implicit Types (s : Loop) (w : World) (t : Turn) (b : Block) (cfg : Config).

Lemma Sign_positive (x : Z) : (Sign x =? 1) = true <-> x > 0.
Proof. unfold Sign. rewrite Z.eqb_eq. destruct x; simpl; lia. Qed.

Lemma Cmp_less (x y : Z) : (Cmp x y =? -1) = true <-> x < y.
Proof.
  unfold Cmp. rewrite Z.eqb_eq. destruct (Z.compare_spec x y); split; intros; try lia; discriminate.
Qed.

Lemma Cmp_greater (x y : Z) : (Cmp x y =? 1) = true <-> x > y.
Proof.
  unfold Cmp. rewrite Z.eqb_eq. destruct (Z.compare_spec x y); split; intros; try lia; discriminate.
Qed.

Lemma needToGet_zero (curr recent : option Z) :
  needToGetMostRecentBlockNumber curr recent 0 = false.
Proof. reflexivity. Qed.

Lemma needToGet_refresh_required (currentHeight recentHeadHeight : option Z) (confirmations : Z) :
  needToGetMostRecentBlockNumber currentHeight recentHeadHeight confirmations = true <->
  refresh_required currentHeight recentHeadHeight confirmations.
Proof.
  unfold needToGetMostRecentBlockNumber, refresh_required.
  rewrite andb_true_iff, Sign_positive.
  destruct recentHeadHeight as [head|].
  - rewrite orb_true_iff, Cmp_less. destruct currentHeight as [current|].
    + rewrite Cmp_greater. split.
      * intros [Hc [Hlt|Hgt]]; (split; [exact Hc|]); right; [left | right]; eauto.
      * intros [Hc [Hnone|[(h & Hh & Hlt)|(c & h & Hcur & Hh & Hgt)]]];
          (split; [exact Hc|]); simplify_eq; [left | right]; lia.
    + split.
      * intros [Hc [Hlt|Hf]]; [|discriminate]. split; [exact Hc|]. right. left. eauto.
      * intros [Hc [Hnone|[(h & Hh & Hlt)|(c & h & Hcur & Hh & Hgt)]]];
          (split; [exact Hc|]); simplify_eq. left. lia.
  - split; [|intros [Hc _]; done]. intros [Hc _]. split; [exact Hc|]. by left.
Qed.

(** C6. The refresh decision of the loop is true exactly when the
    confirmation depth is positive and the head height is unknown, or below
    the depth, or the current height is known and current height plus
    depth exceeds the head height; with depth 0 it is false. *)
Theorem C6_needToGetMostRecentBlockNumber_iff (currentHeight recentHeadHeight : option Z)
    (confirmations : Z) :
  (needToGetMostRecentBlockNumber currentHeight recentHeadHeight confirmations = true <->
   refresh_required currentHeight recentHeadHeight confirmations) /\
  needToGetMostRecentBlockNumber currentHeight recentHeadHeight 0 = false.
Proof. split; [apply needToGet_refresh_required | apply needToGet_zero]. Qed.

Lemma elem_of_delivered_in (evs : list Event) b : b ∈ delivered_in evs <-> Delivered b ∈ evs.
Proof.
  unfold delivered_in. rewrite list_elem_of_omap. split.
  - intros (ev & Hin & Hev). destruct ev; simplify_eq. done.
  - intros Hin. exists (Delivered b). done.
Qed.

(** A turn delivers nothing, or the one block it has fetched at the height
    it asked for, after a refresh decision that came out false. *)
Lemma iteration_delivers (conf : Z) s w s' (evs : list Event) (ret : bool) :
  iteration conf s w = (s', evs, ret) ->
  delivered_in evs = [] \/
  exists b,
    delivered_in evs = [b] /\ ret = false /\
    needToGetMostRecentBlockNumber (currBlkNumber s) (recentBlkNumber s') conf = false /\
    BlockByNumber w (requested_height conf (recentBlkNumber s') (currBlkNumber s)) = inl b /\
    currBlkNumber s' = Some (Number b + 1).
Proof.
  unfold requested_height. iteration_cases.
  all: unfold delivered_in; rewrite ?omap_app; simpl.
  all: try (by left).
  all: right; eexists; split_and!; eauto; try done.
  all: congruence.
Qed.

Lemma iteration_cursor (conf : Z) s w s' (evs : list Event) (ret : bool) (c : Z) :
  iteration conf s w = (s', evs, ret) ->
  returns_requested_height w ->
  currBlkNumber s = Some c ->
  currBlkNumber s' = Some c \/ currBlkNumber s' = Some (c + 1).
Proof.
  intros Hit Hw Hc. revert Hit. iteration_cases; eauto.
  all: right; f_equal; f_equal; eapply Hw; congruence.
Qed.

Lemma loop_turn (conf : Z) (ws : list World) : forall s t,
  t ∈ loop conf s ws ->
  iteration conf (before t) (world t) = (after t, events t, returned t) /\ world t ∈ ws.
Proof.
  induction ws as [|w ws IH]; intros s t; simpl; [by rewrite elem_of_nil|].
  destruct (iteration conf s w) as [[s' evs] ret] eqn:Hit.
  rewrite elem_of_cons. intros [->|Hin]; simpl.
  - split; [done | left].
  - destruct ret; [by apply elem_of_nil in Hin|].
    destruct (IH s' t Hin). split; [done | by right].
Qed.

Lemma needToGet_false_positive (conf : Z) (curr recent : option Z) :
  conf > 0 ->
  needToGetMostRecentBlockNumber curr recent conf = false ->
  exists head : Z, recent = Some head /\ head >= conf /\
                   forall c : Z, curr = Some c -> c + conf <= head.
Proof.
  intros Hpos Hneed.
  pose proof (needToGet_refresh_required curr recent conf) as Hiff.
  destruct recent as [head|].
  - exists head. split; [done|]. split.
    + destruct (Z_lt_ge_dec head conf) as [Hlt|]; [|done].
      assert (needToGetMostRecentBlockNumber curr (Some head) conf = true); [|congruence].
      apply Hiff. split; [done|]. right. left. eauto.
    + intros c ->. destruct (Z_le_gt_dec (c + conf) head) as [|Hgt]; [done|].
      assert (needToGetMostRecentBlockNumber (Some c) (Some head) conf = true); [|congruence].
      apply Hiff. split; [done|]. right. right. eauto.
  - assert (needToGetMostRecentBlockNumber curr None conf = true); [|congruence].
    apply Hiff. split; [done|]. by left.
Qed.

Lemma loop_delivered_sorted (conf : Z) (ws : list World) : forall s,
  Forall returns_requested_height ws ->
  StronglySorted Z.lt (Number <$> delivered (loop conf s ws)) /\
  forall c : Z, currBlkNumber s = Some c ->
                Forall (fun b => c <= Number b) (delivered (loop conf s ws)).
Proof.
  induction ws as [|w ws IH]; intros s Hws; simpl.
  { split; [constructor | intros; constructor]. }
  apply Forall_cons in Hws as [Hw Hws].
  destruct (iteration conf s w) as [[s' evs] ret] eqn:Hit.
  unfold delivered. simpl. fold (delivered (if ret then [] else loop conf s' ws)).
  destruct (iteration_delivers _ _ _ _ _ _ Hit) as [->|(b & -> & -> & _ & Hb & Hs')]; simpl.
  - destruct ret; [split; [constructor | intros; constructor]|].
    destruct (IH s' Hws) as [Hsorted Hbound]. split; [exact Hsorted|].
    intros c Hc. destruct (iteration_cursor _ _ _ _ _ _ c Hit Hw Hc) as [Hc'|Hc'].
    + by apply Hbound.
    + eapply Forall_impl; [apply (Hbound _ Hc')|]. simpl. intros; lia.
  - destruct (IH s' Hws) as [Hsorted Hbound]. specialize (Hbound _ Hs').
    split.
    + constructor; [exact Hsorted|]. apply Forall_fmap.
      eapply Forall_impl; [exact Hbound|]. simpl. intros; lia.
    + intros c Hc. rewrite Hc in Hb. unfold requested_height in Hb.
      assert (Number b = c) as <-.
      { apply Hw. by destruct (recentBlkNumber s'). }
      constructor; [lia|]. eapply Forall_impl; [exact Hbound|]. simpl. intros; lia.
Qed.


Lemma loop_chained (conf : Z) (ws : list World) : forall s (pre : list Turn) t u (post : list Turn),
  loop conf s ws = pre ++ t :: u :: post -> before u = after t.
Proof.
  induction ws as [|w ws IH]; intros s pre t u post; simpl.
  { intros H. by destruct pre. }
  destruct (iteration conf s w) as [[s' evs] ret] eqn:Hit.
  destruct ret.
  { intros H. destruct pre as [|? [|? ?]]; simplify_eq/=. }
  destruct pre as [|t0 pre]; simpl; intros H; simplify_eq.
  - destruct ws as [|w' ws]; simplify_eq/=.
    destruct (iteration conf s' w') as [[s'' evs'] ret'] eqn:Hit'. by simplify_eq/=.
  - eapply IH; eauto.
Qed.

(** A turn of the loop with confirmation depth 0 and no head height known. *)
Lemma iteration_zero s w s' (evs : list Event) (ret : bool) :
  iteration 0 s w = (s', evs, ret) ->
  recentBlkNumber s = None ->
  recentBlkNumber s' = None /\
  (forall r, CalledBlockNumber r ∉ evs) /\
  (forall (n : option Z) (r : Block + Error),
      CalledBlockByNumber n r ∈ evs ->
      n = currBlkNumber s /\
      forall b, r = inl b -> currBlkNumber s' = Some (Number b + 1)) /\
  ((forall (n : option Z) b, CalledBlockByNumber n (inl b) ∉ evs) ->
   currBlkNumber s' = currBlkNumber s).
Proof.
  intros Hit Hrecent. revert Hit. unfold iteration, refreshHead. rewrite needToGet_zero, Hrecent.
  unfold fetchBlock. repeat case_match; simplify_eq/=; intros; simplify_eq/=.
  all: split_and!; try done.
  all: try (intros r; rewrite ?elem_of_cons, ?elem_of_nil; by intuition simplify_eq).
  all: try (intros n r; rewrite ?elem_of_cons, ?elem_of_nil; by intuition simplify_eq).
  all: intros Hno; exfalso; eapply Hno; rewrite ?elem_of_cons; eauto.
Qed.

Lemma loop_zero_recent (ws : list World) : forall s t,
  recentBlkNumber s = None -> t ∈ loop 0 s ws -> recentBlkNumber (before t) = None.
Proof.
  induction ws as [|w ws IH]; intros s t Hs; simpl; [by rewrite elem_of_nil|].
  destruct (iteration 0 s w) as [[s' evs] ret] eqn:Hit.
  rewrite elem_of_cons. intros [->|Hin]; [done|].
  destruct ret; [by apply elem_of_nil in Hin|].
  apply (IH s'); [|done]. by apply (iteration_zero _ _ _ _ _ Hit).
Qed.

Lemma loop_zero_unset (ws : list World) : forall s (pre : list Turn) t (post : list Turn),
  loop 0 s ws = pre ++ t :: post ->
  recentBlkNumber s = None -> currBlkNumber s = None ->
  (forall u (n : option Z) b, u ∈ pre -> CalledBlockByNumber n (inl b) ∉ events u) ->
  currBlkNumber (before t) = None.
Proof.
  induction ws as [|w ws IH]; intros s pre t post; simpl.
  { intros H. by destruct pre. }
  destruct (iteration 0 s w) as [[s' evs] ret] eqn:Hit.
  intros Hrun Hrecent Hcurr Hpre.
  destruct pre as [|u pre]; simplify_eq/=; [done|].
  destruct ret; [by destruct pre|].
  destruct (iteration_zero _ _ _ _ _ Hit Hrecent) as (Hrecent' & _ & _ & Hsame).
  eapply IH; [done | done | |].
  - rewrite Hsame; [done|]. intros n b. apply (Hpre (mkTurn s w evs s' false) n b). left.
  - intros u n b Hu. apply Hpre. by right.
Qed.


(** C7, as the code has it.  In a turn of the block-source loop in which
    the head-height query fails, the goroutine does not return, the next
    turn is delayed, nothing is delivered, the error is logged, the cursor
    is as before, and the cached head height is reset to unknown.  In a turn
    in which the block fetch fails, the goroutine does not return, the next
    turn is delayed, nothing is delivered, the cursor is the height that
    was asked for (the cursor as before when it was set, else the head
    height less the confirmations), and the error is logged unless it is
    the not-found error, for which nothing is logged in the turn.  When the
    gas-price fetch fails, the goroutine of the estimator goes back to its
    timer, the cached price and the rest of the estimator are as before,
    and the error is logged. *)
Theorem C7_fetch_errors_retry :
  (forall (conf : Z) s w (head : option Z) (err : Error) s' (evs : list Event) (ret : bool),
      iteration conf s w = (s', evs, ret) ->
      CalledBlockNumber (head, Some err) ∈ evs ->
      ret = false /\ delayBeforeIteration s' = true /\ delivered_in evs = [] /\
      currBlkNumber s' = currBlkNumber s /\
      head = None /\ recentBlkNumber s' = None /\
      Printf ("BlockNumber: " ++ Error_text err) ∈ evs) /\
  (forall (conf : Z) s w (n : option Z) (err : Error) s' (evs : list Event) (ret : bool),
      iteration conf s w = (s', evs, ret) ->
      CalledBlockByNumber n (inr err) ∈ evs ->
      ret = false /\ delayBeforeIteration s' = true /\ delivered_in evs = [] /\
      currBlkNumber s' = n /\
      n = requested_height conf (recentBlkNumber s') (currBlkNumber s) /\
      (forall c : Z, currBlkNumber s = Some c -> currBlkNumber s' = Some c) /\
      (err = ErrNotFound -> forall msg, Printf msg ∉ evs) /\
      (err <> ErrNotFound -> Printf ("BlockByNumber: " ++ Error_text err) ∈ evs)) /\
  (forall (e : gasestimator.GasPriceEstimator) (err : Error),
      gasestimator.loop e = gasestimator.Fetching ->
      exists e' : gasestimator.GasPriceEstimator,
        gasestimator.step e (gasestimator.PricerReturns (inr err)) = Some e' /\
        gasestimator.loop e' = gasestimator.Selecting /\
        gasestimator.gasPrice e' = gasestimator.gasPrice e /\
        gasestimator.SuggestGasPrice e' = gasestimator.SuggestGasPrice e /\
        gasestimator.logged e' =
          gasestimator.logged e ++ [("gasestimator: SuggestGasPrice: " ++ Error_text err)%string] /\
        gasestimator.wg e' = gasestimator.wg e /\
        gasestimator.canceller e' = gasestimator.canceller e /\
        gasestimator.closed e' = gasestimator.closed e /\
        gasestimator.ctxDone e' = gasestimator.ctxDone e).
Proof.
  split_and!.
  - intros conf s w head err s' evs ret Hit. revert Hit. iteration_cases.
    all: rewrite ?elem_of_app, ?elem_of_cons, ?elem_of_nil in *.
    all: try (by intuition simplify_eq).
    all: repeat match goal with H : _ \/ _ |- _ => destruct H end; simplify_eq.
    all: split_and!; try done; rewrite ?elem_of_app, ?elem_of_cons; eauto 6.
  - intros conf s w n err s' evs ret Hit. revert Hit. unfold requested_height. iteration_cases.
    all: rewrite ?elem_of_app, ?elem_of_cons, ?elem_of_nil in *.
    all: try (by intuition simplify_eq).
    all: repeat match goal with H : _ \/ _ |- _ => destruct H end; simplify_eq.
    all: split_and!; try done; try congruence.
    all: try (intros; rewrite ?elem_of_app, ?elem_of_cons, ?elem_of_nil; by intuition simplify_eq).
    all: try (intros; rewrite ?elem_of_app, ?elem_of_cons, ?elem_of_nil; eauto 8).
  - intros e err Hloop. unfold gasestimator.step. rewrite Hloop. eexists. split; [done|]. done.
Qed.

End BlockSourceFacts.

Lemma node_returns_requested_height (head indexed : Z) :
  blocksource.returns_requested_height (node head indexed).
Proof.
  intros n b. simpl. destruct (n <=? indexed); [|discriminate].
  intros [= <-]. reflexivity.
Qed.

(** The ordering scenario: one confirmation, the head seen at 10, 11 and
    12, block 10 fetched only at the second try. *)
Example blocksource_one_confirmation :
  blocksource.Number <$>
    blocksource.delivered
      (blocksource.runAsync (blocksource.mkConfig None 1) [node 10 9; node 11 9; node 11 10; node 12 11])
  = [9; 10; 11].
Proof. reflexivity. Qed.

(** Without confirmations and start block the first block is the latest
    one, then the heights follow. *)
Example blocksource_no_confirmation :
  blocksource.Number <$>
    blocksource.delivered
      (blocksource.runAsync (blocksource.mkConfig None 0) [node 10 10; node 10 10; node 11 11])
  = [10; 11].
Proof. reflexivity. Qed.




Lemma C7_fetch_errors_retry_witness :
  let refused := ErrorString "connection refused" in
  let r1 := blocksource.iteration 1 (blocksource.mkLoop (Some 10) (Some 10) false) unreachable_node in
  let r2 := blocksource.iteration 1 (blocksource.mkLoop (Some 12) (Some 10) false) (node 12 9) in
  (blocksource.CalledBlockNumber (None, Some (Errorf "eth_blockNumber" refused)) ∈ r1.1.2 /\
   blocksource.CalledBlockByNumber (Some 10) (inr ErrNotFound) ∈ r2.1.2 /\
   gasestimator.loop fetching_estimator = gasestimator.Fetching) /\
  (r1.2 = false /\ blocksource.delayBeforeIteration r1.1.1 = true /\
   blocksource.currBlkNumber r1.1.1 = Some 10 /\ blocksource.recentBlkNumber r1.1.1 = None) /\
  (r2.2 = false /\ blocksource.delayBeforeIteration r2.1.1 = true /\
   blocksource.currBlkNumber r2.1.1 = Some 10 /\
   forall msg, blocksource.Printf msg ∉ r2.1.2) /\
  (exists e' : gasestimator.GasPriceEstimator,
      gasestimator.step fetching_estimator (gasestimator.PricerReturns (inr refused)) = Some e' /\
      gasestimator.loop e' = gasestimator.Selecting /\
      gasestimator.gasPrice e' = 7).
Proof.
  intros refused r1 r2.
  assert (H1 : blocksource.CalledBlockNumber (None, Some (Errorf "eth_blockNumber" refused)) ∈ r1.1.2)
    by (cbn; apply list_elem_of_here).
  assert (H2 : blocksource.CalledBlockByNumber (Some 10) (inr ErrNotFound) ∈ r2.1.2)
    by (cbn; apply list_elem_of_here).
  destruct C7_fetch_errors_retry as (Hhead & Hblock & Hgas).
  split; [split_and!; [exact H1 | exact H2 | reflexivity]|].
  split; [|split].
  - edestruct (Hhead 1 (blocksource.mkLoop (Some 10) (Some 10) false) unreachable_node None
                 (Errorf "eth_blockNumber" refused) r1.1.1 r1.1.2 r1.2) as (? & ? & _ & ? & _ & ? & _);
      [reflexivity | exact H1 |]. by split_and!.
  - edestruct (Hblock 1 (blocksource.mkLoop (Some 12) (Some 10) false) (node 12 9) (Some 10)
                 ErrNotFound r2.1.1 r2.1.2 r2.2) as (? & ? & _ & ? & _ & _ & Hquiet & _);
      [reflexivity | exact H2 |]. split_and!; try done. by apply Hquiet.
  - edestruct (Hgas fetching_estimator refused) as (e' & ? & ? & ? & _); [reflexivity|].
    exists e'. by split_and!.
Defined.

(** C7 fails as stated where it says that no cursor or cached value
    changes in a failing turn.  With one confirmation, start block 10 and
    the head cached at 10, the turn in which the head-height query fails
    leaves the cached head height nil.  With one confirmation and no start
    block, the turn that learns the head 10 and finds block 9 missing
    leaves the head height at 10 and the cursor at 9, both nil before. *)
Lemma C7_counterexample :
  (exists t1 t2 : blocksource.Turn,
      blocksource.runAsync (blocksource.mkConfig (Some 10) 1) [node 10 10; unreachable_node] = [t1; t2] /\
      blocksource.CalledBlockNumber
        (None, Some (Errorf "eth_blockNumber" (ErrorString "connection refused")))
        ∈ blocksource.events t2 /\
      blocksource.recentBlkNumber (blocksource.before t2) = Some 10 /\
      blocksource.recentBlkNumber (blocksource.after t2) = None) /\
  (exists t : blocksource.Turn,
      blocksource.runAsync (blocksource.mkConfig None 1) [node 10 8] = [t] /\
      blocksource.CalledBlockByNumber (Some 9) (inr ErrNotFound) ∈ blocksource.events t /\
      blocksource.before t = blocksource.mkLoop None None false /\
      blocksource.after t = blocksource.mkLoop (Some 10) (Some 9) true).
Proof.
  split.
  - eexists _, _. split; [reflexivity|]. simpl. split; [rewrite !elem_of_cons; auto|]. done.
  - eexists. split; [reflexivity|]. simpl. split; [rewrite !elem_of_cons; auto|]. done.
Qed.

Section GasEstimatorFacts.
Import gasestimator.
Implicit Types (e : GasPriceEstimator) (a : Action).

Lemma consistent_new (initGasPrice : Z) : consistent (newGasPriceEstimator initGasPrice).
Proof. unfold consistent. simpl. split_and!; try done. all: intros [? ?]; done. Qed.

Lemma consistent_step e a e' : consistent e -> step e a = Some e' -> consistent e'.
Proof.
  unfold consistent. intros (Hwg & Hctx & Hcanc & Hclosing & Honce) Hstep.
  destruct a; simpl in Hstep; repeat case_match; simplify_eq/=; try done.
  all: repeat match goal with H : loop _ = _ |- _ => rewrite H in * end.
  all: repeat match goal with H : canceller _ = _ |- _ => rewrite H in * end.
  all: simpl in *; split_and!; try done; try tauto; try lia.
  all: try (intros; split; [lia | tauto]).
  all: try (intros ?; destruct Honce as [? ?]; [done|]; split; [lia | done]).
  all: intuition (try done; try lia).
Qed.

Lemma consistent_run (actions : list Action) : forall e e',
  consistent e -> run e actions = Some e' -> consistent e'.
Proof.
  induction actions as [|a actions IH]; intros e e' He; simpl; [by intros [= <-]|].
  destruct (step e a) as [e1|] eqn:Hstep; [|done].
  intros Hrun. eapply IH; [|exact Hrun]. by eapply consistent_step.
Qed.

(** Once [Close] has returned no goroutine is left, and nothing that can
    still happen changes the estimator. *)
Lemma closed_exited e :
  consistent e -> closeOnce e = true -> loop e = Exited /\ canceller e = Cancelled.
Proof.
  intros (Hwg & _ & _ & _ & Honce) Hc. destruct (Honce Hc) as [Hz _].
  rewrite Hz in Hwg. destruct (loop e), (canceller e); simpl in Hwg; done.
Qed.

Lemma closed_step e a e' :
  consistent e -> closeOnce e = true -> step e a = Some e' -> e' = e.
Proof.
  intros He Hc Hstep. destruct (closed_exited e He Hc) as [Hloop Hcanc].
  destruct He as (_ & _ & _ & _ & Honce). destruct (Honce Hc) as [_ Hclosing].
  destruct a; simpl in Hstep; rewrite ?Hloop, ?Hcanc, ?Hc, ?Hclosing in Hstep; by simplify_eq.
Qed.

Lemma closed_run (actions : list Action) : forall e e',
  consistent e -> closeOnce e = true -> run e actions = Some e' -> e' = e.
Proof.
  induction actions as [|a actions IH]; intros e e' He Hc; simpl; [by intros [= <-]|].
  destruct (step e a) as [e1|] eqn:Hstep; [|done].
  apply (closed_step e a e1 He Hc) in Hstep as ->. by apply IH.
Qed.

Lemma closed_calls (calls : list Call) e :
  closeOnce e = true -> run e (action_of <$> calls) = Some e.
Proof.
  intros Hc. induction calls as [|c calls IH]; simpl; [done|].
  destruct c; simpl; by rewrite ?Hc.
Qed.

(** In every state the estimator can reach with no [Close] made, a call of
    [Close] can run to its end: the canceller wakes, a fetch under way
    returns, the loop sees the context done. *)
Lemma Close_can_return e :
  consistent e -> closeOnce e = false -> closing e = false ->
  exists (actions : list Action) e', run e (CloseCalled :: actions) = Some e' /\ closeOnce e' = true.
Proof.
  intros (Hwg & Hctx & Hcanc & _ & _) Honce Hclosing.
  destruct e as [price cl clg once done n lp cn lg]. simpl in *. subst once clg.
  destruct cn.
  - (* the canceller still waits *)
    destruct lp; subst n.
    + exists [ClosedReceived; ContextDone; CloseReturned]. eexists. by simpl.
    + exists [ClosedReceived; PricerReturns (inr (ErrorString "context canceled")); ContextDone;
              CloseReturned]. eexists. by simpl.
    + exists [ClosedReceived; CloseReturned]. eexists. by simpl.
  - assert (done = true) as -> by (by apply Hctx).
    destruct lp; subst n.
    + exists [ContextDone; CloseReturned]. eexists. by simpl.
    + exists [PricerReturns (inr (ErrorString "context canceled")); ContextDone; CloseReturned].
      eexists. by simpl.
    + exists [CloseReturned]. eexists. by simpl.
Qed.

(** C8. After a call of [Close] has returned, both goroutines have
    returned; every further call of [Close] or [SuggestGasPrice], in any
    number and order, returns at once and leaves the estimator as it is,
    so that closing again is closing once; and whatever happens next, the
    estimator stays the same and [SuggestGasPrice] returns the price that
    was cached when [Close] returned. *)
Theorem C8_Close_idempotent (initGasPrice : Z) (actions : list Action) e :
  run (newGasPriceEstimator initGasPrice) actions = Some e ->
  closeOnce e = true ->
  (loop e = Exited /\ canceller e = Cancelled) /\
  step e CloseCalled = Some e /\
  (forall calls : list Call, run e (action_of <$> calls) = Some e) /\
  (forall (more : list Action) e',
      run e more = Some e' -> e' = e /\ SuggestGasPrice e' = gasPrice e).
Proof.
  intros Hrun Hc.
  assert (He : consistent e) by (eapply consistent_run; [apply consistent_new | exact Hrun]).
  split; [by apply closed_exited|]. split; [simpl; by rewrite Hc|].
  split; [intros calls; by apply closed_calls|].
  intros more e' Hmore. apply (closed_run more e e' He Hc) in Hmore as ->. done.
Qed.

End GasEstimatorFacts.

Lemma C8_Close_idempotent_witness :
  exists e : gasestimator.GasPriceEstimator,
    gasestimator.run (gasestimator.newGasPriceEstimator 1) closed_estimator_run = Some e /\
    gasestimator.closeOnce e = true /\
    gasestimator.gasPrice e = 2 /\
    gasestimator.run e [gasestimator.CloseCalled; gasestimator.SuggestGasPriceCalled;
                        gasestimator.CloseCalled] = Some e /\
    forall (more : list gasestimator.Action) (e' : gasestimator.GasPriceEstimator),
      gasestimator.run e more = Some e' -> gasestimator.SuggestGasPrice e' = 2.
Proof.
  eexists. split; [reflexivity|]. split; [reflexivity|]. split; [reflexivity|].
  edestruct (C8_Close_idempotent 1 closed_estimator_run) as (_ & _ & Hcalls & Hmore);
    [reflexivity | reflexivity |].
  split.
  - exact (Hcalls [gasestimator.CallClose; gasestimator.CallSuggestGasPrice; gasestimator.CallClose]).
  - intros more e' Hrun. by destruct (Hmore more e' Hrun) as [_ ->].
Defined.

Section ClientFacts.
Import client.

Lemma chunkLoop_spec {T : Type} (txs : list T) (chunkSize : nat) :
  (0 < chunkSize)%nat ->
  forall (fuel i : nat) (chunks : list (list T)),
    (length txs - i <= fuel)%nat ->
    exists more : list (list T),
      chunkLoop fuel txs chunkSize i chunks = Returns (chunks ++ more) /\
      concat more = drop i txs /\
      Forall (fun c => 0 < length c <= chunkSize)%nat more /\
      (forall (k : nat) (c : list T),
          more !! k = Some c -> (S k < length more)%nat -> length c = chunkSize) /\
      (more = [] <-> (length txs <= i)%nat).
Proof.
  intros Hpos. induction fuel as [|fuel IH]; intros i chunks Hfuel.
  - exists []. simpl. destruct (Nat.ltb_spec i (length txs)); [lia|].
    rewrite app_nil_r, drop_ge by lia. split_and!; try done; intros k c; by rewrite lookup_nil.
  - simpl. destruct (Nat.ltb_spec i (length txs)) as [Hlt|Hge].
    + set (end_ := if (length txs <? i + chunkSize)%nat then length txs else (i + chunkSize)%nat).
      destruct (IH (i + chunkSize)%nat (chunks ++ [slice txs i end_])) as
        (more & Hrun & Hconcat & Hlen & Hfull & Hempty); [lia|].
      exists (slice txs i end_ :: more).
      assert (Hchunk : length (slice txs i end_) = (end_ - i)%nat).
      { unfold slice. rewrite length_take, length_drop. subst end_.
        destruct (Nat.ltb_spec (length txs) (i + chunkSize)); lia. }
      split_and!.
      * by rewrite Hrun, <- app_assoc.
      * simpl. rewrite Hconcat. unfold slice. subst end_.
        destruct (Nat.ltb_spec (length txs) (i + chunkSize)).
        -- rewrite (drop_ge txs (i + chunkSize)) by lia. rewrite app_nil_r.
           apply take_ge. rewrite length_drop. lia.
        -- replace (i + chunkSize - i)%nat with chunkSize by lia.
           rewrite <- drop_drop. apply take_drop.
      * constructor; [|exact Hlen]. rewrite Hchunk. subst end_.
        destruct (Nat.ltb_spec (length txs) (i + chunkSize)); lia.
      * intros [|k] c; simpl.
        -- intros [= <-] Hmore. rewrite Hchunk. subst end_.
           destruct (Nat.ltb_spec (length txs) (i + chunkSize)) as [Hshort|]; [|lia].
           assert (more = []) as -> by (apply Hempty; lia). simpl in Hmore. lia.
        -- intros Hk Hmore. apply (Hfull k c Hk). lia.
      * split; [done | lia].
    + exists []. rewrite app_nil_r, drop_ge by lia.
      split_and!; try done; intros k c; by rewrite lookup_nil.
Qed.

(** [chunkTransactions] returns for every positive chunk size: consecutive
    chunks of the list, none empty or longer than the size, all but the
    last of just that size. *)
Lemma chunkTransactions_spec {T : Type} (txs : list T) (chunkSize : Z) :
  0 < chunkSize ->
  exists chunks : list (list T),
    chunkTransactions txs chunkSize = Returns chunks /\
    concat chunks = txs /\
    Forall (fun c => 0 < length c <= Z.to_nat chunkSize)%nat chunks /\
    (forall (k : nat) (c : list T),
        chunks !! k = Some c -> (S k < length chunks)%nat -> length c = Z.to_nat chunkSize).
Proof.
  intros Hpos. unfold chunkTransactions.
  destruct (Z.leb_spec chunkSize 0); [lia|].
  destruct (chunkLoop_spec txs (Z.to_nat chunkSize) ltac:(lia) (length txs) 0%nat [])
    as (chunks & Hrun & Hconcat & Hlen & Hfull & _); [lia|].
  exists chunks. by rewrite Hrun.
Qed.

Lemma buildReqs_chunk (pre chunk post : list Transaction) (receipts : list (option rpcReceipt)) :
  length receipts = length (pre ++ chunk ++ post) ->
  buildReqs (pre ++ chunk ++ post) receipts (length pre) (length chunk) = Some (chunkRequests chunk).
Proof.
  intros Hlen. rewrite !length_app in Hlen.
  unfold buildReqs, chunkRequests. apply mapM_Some. apply Forall2_same_length_lookup. split.
  - by rewrite length_seq, length_fmap.
  - intros i x y Hx Hy. apply lookup_seq in Hx as [-> Hi]. simpl.
    destruct (lookup_lt_is_Some_2 receipts (length pre + i)) as [r ->]; [lia|].
    rewrite list_lookup_fmap in Hy.
    rewrite lookup_app_r by lia. replace (length pre + i - length pre)%nat with i by lia.
    rewrite lookup_app_l by lia. exact Hy.
Qed.

Lemma storeResults_length (replies : list BatchReply) :
  forall (receipts : list (option rpcReceipt)) (globalIdx : nat),
    length (storeResults receipts globalIdx replies) = length receipts.
Proof.
  induction replies as [|reply replies IH]; intros receipts globalIdx; simpl; [done|].
  by rewrite IH, length_insert.
Qed.

Lemma validate_returns (receipts : list (option rpcReceipt)) (replies : list BatchReply)
    (blockNumber : Z) (todo : nat) :
  forall globalIdx i : nat,
    (globalIdx + todo <= length receipts)%nat ->
    exists err : option Error, validate receipts replies blockNumber globalIdx todo i = Some err.
Proof.
  induction todo as [|todo IH]; intros globalIdx i Hlen; simpl; [by eexists|].
  destruct (Error_ <$> replies !! i) as [[e|]|]; [by eexists| |].
  all: destruct (lookup_lt_is_Some_2 receipts globalIdx) as [r ->]; [lia|].
  all: destruct r; [apply IH; lia | by eexists].
Qed.

Context {R : Type} `{!BatchCaller R}.

(** The retrieval does not panic.  The batches sent are the requests of
    the first chunks, one batch per chunk and in their order; they are
    those of all chunks when the retrieval ends without error. *)
Lemma loadChunks_spec (blockNumber : Z) (chunks : list (list Transaction)) :
  forall (rpc : R) (pre : list Transaction) (receipts : list (option rpcReceipt))
         (sent : list (list BatchElem)),
  length receipts = length (pre ++ concat chunks) ->
  exists (rpc' : R) (n : nat) (result : list (option rpcReceipt) + Error),
    loadChunks rpc (pre ++ concat chunks) blockNumber chunks (length pre) receipts sent =
      Some (rpc', sent ++ take n (batchesOf chunks), result) /\
    (forall rs, result = inl rs -> n = length chunks).
Proof.
  induction chunks as [|chunk chunks IH]; intros rpc pre receipts sent Hlen; simpl.
  { exists rpc, 0%nat, (inl receipts). rewrite app_nil_r. by split. }
  simpl in Hlen. rewrite buildReqs_chunk by done.
  destruct (BatchCallContext rpc (chunkRequests chunk)) as [rpc1 [replies [e|]]].
  { eexists rpc1, 1%nat, _. simpl. rewrite take_0. split; [reflexivity | done]. }
  set (receipts' := storeResults receipts (length pre) (take (length chunk) replies)).
  assert (Hlen' : length receipts' = length ((pre ++ chunk) ++ concat chunks)).
  { subst receipts'. by rewrite storeResults_length, <- app_assoc. }
  destruct (validate_returns receipts' replies blockNumber (length chunk) (length pre) 0)
    as [[e|] ->].
  { rewrite Hlen', !length_app. lia. }
  { eexists rpc1, 1%nat, _. simpl. rewrite take_0. split; [reflexivity | done]. }
  destruct (IH rpc1 (pre ++ chunk) receipts' (sent ++ [chunkRequests chunk]) Hlen')
    as (rpc' & n & result & Hload & Hall).
  rewrite length_app, <- app_assoc in Hload. rewrite Hload.
  exists rpc', (S n), result. simpl. rewrite <- app_assoc. split; [done|].
  intros rs Hrs. by rewrite (Hall rs Hrs).
Qed.


End ClientFacts.

Example chunkTransactions_1001 :
  exists chunks : list (list client.Transaction),
    client.chunkTransactions (numbered 1001) 500 = client.Returns chunks /\
    length <$> chunks = [500; 500; 1]%nat.
Proof. eexists. split; [vm_compute; reflexivity | vm_compute; reflexivity]. Qed.

Example chunkTransactions_panics :
  client.chunkTransactions (numbered 3) 0 = client.Panics "chunk size must be positive number".
Proof. reflexivity. Qed.



Section BackendMoreFacts.
Import backend backend_sim.
Context {CallMsg FilterQuery Receipt Log LogChan Subscription B : Type}.
Context {inner_backend : @Backend CallMsg FilterQuery Receipt Log LogChan Subscription B}.
Implicit Types (b : HandleNonceBackend B) (A account : Address) (tx : Transaction).

Lemma fold_insert_zero (addrs : list N) : forall (m : gmap N Z) (a : N),
  fold_left (fun m address => <[address := 0]> m) addrs m !! a =
  if decide (a ∈ addrs) then Some 0 else m !! a.
Proof.
  induction addrs as [|x addrs IH]; intros m a; simpl.
  { destruct (decide (a ∈ [])) as [Hin|]; [by apply elem_of_nil in Hin | done]. }
  rewrite IH. destruct (decide (a ∈ addrs)) as [Hin|Hnot].
  - rewrite decide_True; [done | by right].
  - destruct (decide (a = x)) as [->|Hne].
    + rewrite lookup_insert_eq. rewrite decide_True; [done | left].
    + rewrite lookup_insert_ne by done. rewrite decide_False; [done|].
      rewrite elem_of_cons. tauto.
Qed.

(** X1. [NewHandleNonceBackend] keeps the inner backend and watches exactly
    the addresses of the list, each, also one listed twice, with the
    nonce 0. *)
Theorem NewHandleNonceBackend_watched_set (inner0 : B) (handleAddresses : list N) (a : N) :
  inner (NewHandleNonceBackend inner0 handleAddresses) = inner0 /\
  (a ∈ handleAddresses ->
   addressNonce (NewHandleNonceBackend inner0 handleAddresses) !! a = Some 0) /\
  (a ∉ handleAddresses ->
   addressNonce (NewHandleNonceBackend inner0 handleAddresses) !! a = None).
Proof.
  unfold NewHandleNonceBackend. simpl. rewrite fold_insert_zero. split; [done|].
  split; intros Ha.
  - by rewrite decide_True.
  - by rewrite decide_False.
Qed.

Lemma insert_keeps_watched (m : gmap N Z) (a x : N) (old new : Z) :
  m !! x = Some old -> (is_Some (<[x := new]> m !! a) <-> is_Some (m !! a)).
Proof.
  intros Hx. destruct (decide (x = a)) as [->|Hne].
  - rewrite lookup_insert_eq, Hx. split; eauto.
  - by rewrite lookup_insert_ne.
Qed.

Lemma exec_keeps_watched (c : Call CallMsg FilterQuery LogChan) b (a : N) :
  is_Some (addressNonce (exec c b) !! a) <-> is_Some (addressNonce b !! a).
Proof.
  destruct c; simpl;
    try (unfold HandleNonceBackend_CodeAt, HandleNonceBackend_CallContract,
           HandleNonceBackend_PendingCodeAt, HandleNonceBackend_SuggestGasPrice,
           HandleNonceBackend_EstimateGas, HandleNonceBackend_TransactionReceipt,
           HandleNonceBackend_BalanceAt, HandleNonceBackend_FilterLogs,
           HandleNonceBackend_SubscribeFilterLogs, HandleNonceBackend_TransactionByHash;
         by rewrite forward_addressNonce).
  - unfold HandleNonceBackend_PendingNonceAt.
    destruct (PendingNonceAt (inner b) account) as [i [nonce [e|]]]; simpl; [done|].
    destruct (addressNonce b !! account) as [w|] eqn:Hw; simpl; [|done].
    destruct (nonce >? w); simpl; [|done]. by apply (insert_keeps_watched _ _ _ w).
  - unfold HandleNonceBackend_SendTransaction.
    destruct (SendTransaction (inner b) tx) as [i [e|]]; simpl; [done|].
    unfold incrementNonce. destruct (Sender tx) as [from [e|]]; simpl; [done|].
    destruct (addressNonce b !! from) as [w|] eqn:Hw; simpl; [|done].
    destruct (wrap_uint64 (Nonce tx + 1) >? w); simpl; [|done].
    by apply (insert_keeps_watched _ _ _ w).
Qed.

(** X2. The set of watched accounts is fixed: after any sequence of calls
    an account has a watermark exactly when it had one before; in
    particular [PendingNonceAt] and [SendTransaction] for an account that
    is not watched never start to track it. *)
Theorem watched_set_is_fixed (calls : list (Call CallMsg FilterQuery LogChan)) b (a : N) :
  is_Some (addressNonce (run calls b) !! a) <-> is_Some (addressNonce b !! a).
Proof.
  revert b. induction calls as [|c calls IH]; intros b; simpl; [done|].
  etransitivity; [apply IH | apply exec_keeps_watched].
Qed.

Lemma forward_inner {R : Type} b (call : B -> B * R) :
  inner (forward b call).1 = (call (inner b)).1 /\ (forward b call).2 = (call (inner b)).2.
Proof. unfold forward. by destruct (call (inner b)). Qed.

Lemma SendTransaction_inner b tx :
  inner (HandleNonceBackend_SendTransaction b tx).1 = (SendTransaction (inner b) tx).1 /\
  (HandleNonceBackend_SendTransaction b tx).2 = (SendTransaction (inner b) tx).2.
Proof.
  unfold HandleNonceBackend_SendTransaction.
  destruct (SendTransaction (inner b) tx) as [i [e|]]; simpl; [done|].
  split; [|done]. unfold incrementNonce. destruct (Sender tx) as [from [e|]]; simpl; [done|].
  destruct (addressNonce b !! from) as [w|]; simpl; [|done].
  by destruct (wrap_uint64 (Nonce tx + 1) >? w).
Qed.

Lemma exec_inner_state (c : Call CallMsg FilterQuery LogChan) b :
  inner (exec c b) = exec_inner c (inner b).
Proof.
  destruct c; simpl; try apply forward_inner.
  - apply PendingNonceAt_inner.
  - apply SendTransaction_inner.
Qed.

(** X3. The decorator is transparent for the inner backend: after any
    sequence of calls the inner backend is in the state in which the same
    calls, made on it directly, leave it.  [SendTransaction] returns the
    error of the inner call, nil or not; [PendingNonceAt] returns the error
    of the inner call, and for an account that is not watched the nonce of
    the inner call too, with the table left alone. *)
Theorem decorator_is_transparent (calls : list (Call CallMsg FilterQuery LogChan)) b tx account :
  inner (run calls b) = run_inner calls (inner b) /\
  (HandleNonceBackend_SendTransaction b tx).2 = (SendTransaction (inner b) tx).2 /\
  (HandleNonceBackend_PendingNonceAt b account).2.2 = (PendingNonceAt (inner b) account).2.2 /\
  (addressNonce b !! account = None ->
   (HandleNonceBackend_PendingNonceAt b account).2 = (PendingNonceAt (inner b) account).2 /\
   addressNonce (HandleNonceBackend_PendingNonceAt b account).1 = addressNonce b).
Proof.
  split_and!.
  - revert b. induction calls as [|c calls IH]; intros b; simpl; [done|].
    etransitivity; [apply IH|]. by rewrite exec_inner_state.
  - apply SendTransaction_inner.
  - unfold HandleNonceBackend_PendingNonceAt.
    destruct (PendingNonceAt (inner b) account) as [i [nonce [e|]]]; simpl; [done|].
    destruct (addressNonce b !! account) as [w|]; simpl; [|done]. by destruct (nonce >? w).
  - intros Hnone. unfold HandleNonceBackend_PendingNonceAt.
    destruct (PendingNonceAt (inner b) account) as [i [nonce [e|]]]; simpl; [done|].
    by rewrite Hnone.
Qed.

(** X4. [SendTransaction] touches no entry but that of the recovered
    signer; when the signer cannot be recovered, or is not watched, the
    table is left as it was, whether the inner call succeeded or not. *)
Theorem SendTransaction_touches_signer_only b tx :
  (forall a : N, a <> (Sender tx).1 ->
     addressNonce (HandleNonceBackend_SendTransaction b tx).1 !! a = addressNonce b !! a) /\
  ((Sender tx).2 <> None ->
     addressNonce (HandleNonceBackend_SendTransaction b tx).1 = addressNonce b) /\
  (addressNonce b !! (Sender tx).1 = None ->
     addressNonce (HandleNonceBackend_SendTransaction b tx).1 = addressNonce b).
Proof.
  unfold HandleNonceBackend_SendTransaction.
  destruct (SendTransaction (inner b) tx) as [i [e|]]; simpl; [done|].
  unfold incrementNonce. destruct (Sender tx) as [from [e|]]; simpl; [done|].
  destruct (addressNonce b !! from) as [w|] eqn:Hw; simpl; [|done].
  destruct (wrap_uint64 (Nonce tx + 1) >? w); simpl; [|done].
  split_and!; [|done|done]. intros a Ha. by rewrite lookup_insert_ne.
Qed.

Context {cr : commiterRollbacker B}.

(** X5. [Rollback] makes the simulated chain forget its pending
    transactions, but not the decorator its watermark: after a transaction
    of nonce [n < 2^64 - 1] from a watched account was sent with success
    through the [simBackend], and then rolled back, every later successful
    [PendingNonceAt] for that account still returns at least [n + 1],
    whatever the chain reports. *)
Theorem Rollback_keeps_watermark (s : simBackend B) tx A (w : Z) (inner' : B) :
  SendTransaction (inner (sim_b s)) tx = (inner', None) ->
  Sender tx = (A, None) ->
  addressNonce (sim_b s) !! A = Some w ->
  0 <= Nonce tx < uint64_max ->
  let s1 := simBackend_Rollback (simBackend_SendTransaction s tx).1 in
  inner (sim_b s1) = Rollback inner' /\
  forall (i : B) (v : Z),
    PendingNonceAt (inner (sim_b s1)) A = (i, (v, None)) ->
    exists r : Z, (simBackend_PendingNonceAt s1 A).2 = (r, None) /\ Nonce tx + 1 <= r.
Proof.
  intros Hsend Hsender Hw Hrange s1.
  assert (Hs1 : sim_b s1 =
                set_inner (incrementNonce (set_inner (sim_b s) inner') tx) (Rollback inner')).
  { subst s1. unfold simBackend_Rollback, simBackend_SendTransaction,
      HandleNonceBackend_SendTransaction. rewrite Hsend. simpl.
    unfold incrementNonce. rewrite Hsender. simpl. rewrite Hw.
    by destruct (wrap_uint64 (Nonce tx + 1) >? w). }
  assert (Htab : exists w' : Z, addressNonce (sim_b s1) !! A = Some w' /\ Nonce tx + 1 <= w').
  { rewrite Hs1. simpl. rewrite (incrementNonce_watched _ tx A w) by done.
    rewrite wrap_uint64_small by (unfold uint64_max in *; lia).
    destruct (Z.gtb_spec (Nonce tx + 1) w); simpl.
    - exists (Nonce tx + 1). rewrite lookup_insert_eq. split; [done | lia].
    - exists w. split; [done | lia]. }
  split; [by rewrite Hs1|].
  intros i v Hi. destruct Htab as (w' & Hw' & Hle).
  destruct (PendingNonceAt_watched (sim_b s1) A w' Hw' i v Hi) as [Hret _].
  unfold simBackend_PendingNonceAt.
  destruct (HandleNonceBackend_PendingNonceAt (sim_b s1) A) as [b' r'] eqn:Hcall.
  simpl in *. subst r'. eexists. split; [done | lia].
Qed.

End BackendMoreFacts.

Lemma Rollback_keeps_watermark_witness :
  let chain := backend_sim.mkSimChain 12 0 in
  let s := backend_sim.mkSimBackend (backend.NewHandleNonceBackend chain [handledAddress]) in
  let tx := createTx handledAddress 12 in
  let s1 := backend_sim.simBackend_Rollback (backend_sim.simBackend_SendTransaction s tx).1 in
  (backend.SendTransaction chain tx = (backend_sim.mkSimChain 12 1, None) /\
   backend.addressNonce (backend_sim.sim_b s) !! handledAddress = Some 0 /\
   0 <= backend.Nonce tx < uint64_max) /\
  backend.inner (backend_sim.sim_b s1) = chain /\
  exists r : Z, (backend_sim.simBackend_PendingNonceAt s1 handledAddress).2 = (r, None) /\ 13 <= r.
Proof.
  intros chain s tx s1.
  assert (Hr : 0 <= backend.Nonce tx < uint64_max) by (unfold uint64_max; simpl; lia).
  assert (Hsend : backend.SendTransaction (backend.inner (backend_sim.sim_b s)) tx =
                  (backend_sim.mkSimChain 12 1, None)) by reflexivity.
  assert (Hw : backend.addressNonce (backend_sim.sim_b s) !! handledAddress = Some 0)
    by reflexivity.
  split; [split; [reflexivity | split; [exact Hw | exact Hr]]|].
  destruct (Rollback_keeps_watermark s tx handledAddress 0 (backend_sim.mkSimChain 12 1)
              Hsend eq_refl Hw Hr) as [Hinner Hnonce].
  split; [exact Hinner|]. apply (Hnonce chain 12). reflexivity.
Defined.

Section LogFiltererFacts.
Import logfilterer.
Implicit Types (topics : list (list Hash)) (logs : list (option types.Log)) (log : types.Log).

Lemma scanSub_spec (logTopics : list Hash) (i : nat) (t : Hash) (sub : list Hash) :
  logTopics !! i = Some t ->
  exists b : bool, scanSub logTopics i sub false = Some b /\ (b = true <-> t ∈ sub).
Proof.
  intros Ht. induction sub as [|topic sub IH]; simpl.
  - exists false. split; [done|]. split; [done|]. intros Hin. by apply elem_of_nil in Hin.
  - rewrite Ht. destruct (N.eqb_spec t topic) as [->|Hne].
    + exists true. split; [done|]. split; [|done]. intros _. apply list_elem_of_here.
    + destruct IH as (b & -> & Hb). exists b. split; [done|].
      rewrite Hb, elem_of_cons. by intuition.
Qed.

Lemma matchTopics_spec (logTopics : list Hash) topics : forall i : nat,
  (i + length topics <= length logTopics)%nat ->
  exists b : bool, matchTopics logTopics i topics = Some b /\
    (b = true <->
     forall (j : nat) (sub : list Hash), topics !! j = Some sub -> sub <> [] ->
       exists t : Hash, logTopics !! (i + j)%nat = Some t /\ t ∈ sub).
Proof.
  induction topics as [|sub topics IH]; intros i Hlen; simpl in *.
  { exists true. split; [done|]. split; [|done]. intros _ j sub Hj. by destruct j. }
  destruct (IH (S i)) as (b' & Hb' & Hspec'); [lia|].
  destruct sub as [|topic sub].
  - simpl. exists b'. split; [done|]. rewrite Hspec'. split.
    + intros H [|j] sub' Hj Hne; simpl in Hj; [by simplify_eq|].
      replace (i + S j)%nat with (S i + j)%nat by lia. by apply H.
    + intros H j sub' Hj Hne. replace (S i + j)%nat with (i + S j)%nat by lia.
      by apply H.
  - destruct (lookup_lt_is_Some_2 logTopics i) as [t Ht]; [lia|].
    destruct (scanSub_spec logTopics i t (topic :: sub) Ht) as (b & Hb & Hspec).
    change (length (topic :: sub) =? 0)%nat with false. rewrite Hb. destruct b.
    + exists b'. split; [done|]. rewrite Hspec'. split.
      * intros H [|j] sub' Hj Hne; simpl in Hj.
        -- simplify_eq. exists t. rewrite Nat.add_0_r. split; [done|]. by apply Hspec.
        -- replace (i + S j)%nat with (S i + j)%nat by lia. by apply H.
      * intros H j sub' Hj Hne. replace (S i + j)%nat with (i + S j)%nat by lia.
        by apply H.
    + exists false. split; [done|]. split; [done|]. intros H.
      destruct (H 0%nat (topic :: sub)) as (t' & Ht' & Hin); [done..|].
      rewrite Nat.add_0_r in Ht'. simplify_eq. apply Hspec in Hin. done.
Qed.

Lemma keeps_spec topics (l : option types.Log) :
  exists b : bool, keeps topics l = Some b /\
    (b = true <-> exists log, l = Some log /\ matches topics log).
Proof.
  destruct l as [log|]; simpl.
  2: { exists false. split; [done|]. split; [done|]. by intros (? & ? & _). }
  unfold matches. destruct (types.Removed log) eqn:Hrem.
  { exists false. split; [done|]. split; [done|]. intros (? & ? & ? & _). simplify_eq. congruence. }
  destruct (Nat.ltb_spec (length (types.Topics log)) (length topics)) as [Hlt|Hge].
  { exists false. split; [done|]. split; [done|]. intros (? & ? & _ & ? & _).
    simplify_eq. lia. }
  destruct (matchTopics_spec (types.Topics log) topics 0) as (b & Hb & Hspec); [simpl; lia|].
  exists b. split; [done|]. rewrite Hspec. split.
  - intros H. exists log. by split_and!.
  - intros (? & ? & _ & _ & H). by simplify_eq.
Qed.

Lemma selected_spec topics (l : option types.Log) log :
  selected topics l = Some log <-> l = Some log /\ matches topics log.
Proof.
  unfold selected. destruct (keeps_spec topics l) as (b & -> & Hb). destruct b.
  - destruct Hb as [Hb _]. destruct Hb as (log' & -> & Hm); [done|]. split.
    + intros ?. by simplify_eq.
    + by intros [? _].
  - split; [done|]. intros [-> Hm]. destruct Hb as [_ Hb].
    discriminate Hb. by exists log.
Qed.

Lemma filterLoop_omap topics logs : forall res : list types.Log,
  filterLoop topics logs res = Some (res ++ omap (selected topics) logs).
Proof.
  induction logs as [|l logs IH]; intros res; simpl.
  { by rewrite app_nil_r. }
  unfold selected at 1. destruct (keeps_spec topics l) as (b & Hb & Hspec). rewrite Hb.
  destruct b.
  - destruct Hspec as [Hspec _]. destruct Hspec as (log & -> & _); [done|].
    rewrite IH. by rewrite <- app_assoc.
  - destruct l; apply IH.
Qed.

Lemma FilterLogs_omap logs (query : goethereum.FilterQuery) :
  FilterLogs logs query = Some (omap (selected (goethereum.Topics query)) logs, None).
Proof. unfold FilterLogs. by rewrite filterLoop_omap. Qed.

Lemma selected_sublist topics logs :
  omap (selected topics) logs `sublist_of` omap id logs.
Proof.
  induction logs as [|l logs IH]; simpl; [done|].
  destruct (selected topics l) as [log|] eqn:Hsel.
  - apply selected_spec in Hsel as [-> _]. simpl. by apply sublist_skip.
  - destruct l; simpl; [by apply sublist_cons | done].
Qed.

(** X6. [SliceLogFilterer.FilterLogs] never panics and never fails.  It
    returns, in the order of the slice, the logs that are not nil, not
    removed, have at least as many topics as the query has rule sets, and
    carry at each position of a non-empty rule set one of its topics.  The
    addresses and the block range of the query play no part. *)
Theorem SliceLogFilterer_FilterLogs_spec logs (query : goethereum.FilterQuery) :
  exists res : list types.Log,
    FilterLogs logs query = Some (res, None) /\
    res `sublist_of` omap id logs /\
    (forall log, log ∈ res <-> Some log ∈ logs /\ matches (goethereum.Topics query) log) /\
    (forall (fromBlock toBlock : bigInt) (addresses : list N),
       FilterLogs logs (goethereum.mkFilterQuery fromBlock toBlock addresses
                          (goethereum.Topics query)) = Some (res, None)).
Proof.
  exists (omap (selected (goethereum.Topics query)) logs).
  split; [apply FilterLogs_omap|]. split; [apply selected_sublist|]. split.
  - intros log. rewrite list_elem_of_omap. split.
    + intros (l & Hin & Hsel). apply selected_spec in Hsel as [-> Hm]. done.
    + intros [Hin Hm]. exists (Some log). split; [done|]. by apply selected_spec.
  - intros. by rewrite FilterLogs_omap.
Qed.

Lemma refilter topics1 topics2 logs :
  omap (selected topics1) (Some <$> omap (selected topics2) logs) =
  omap (fun l => selected topics2 l ≫= fun log => selected topics1 (Some log)) logs.
Proof.
  induction logs as [|l logs IH]; simpl; [done|].
  destruct (selected topics2 l) as [log|]; simpl; [|done].
  destruct (selected topics1 (Some log)); [f_equal|]; apply IH.
Qed.

Lemma omap_pointwise {A C : Type} (f g : A -> option C) (l : list A) :
  (forall x, f x = g x) -> omap f l = omap g l.
Proof.
  intros H. induction l as [|x l IH]; simpl; [done|].
  rewrite H. destruct (g x); [f_equal|]; apply IH.
Qed.

Lemma selected_own topics (l : option types.Log) log :
  selected topics l = Some log -> selected topics (Some log) = Some log.
Proof. intros H. apply selected_spec in H as [-> Hm]. by apply selected_spec. Qed.

Lemma selected_twice topics1 topics2 (l : option types.Log) :
  (selected topics2 l ≫= fun log => selected topics1 (Some log)) =
  (selected topics1 l ≫= fun log => selected topics2 (Some log)).
Proof.
  destruct l as [log|]; [|done].
  destruct (selected topics1 (Some log)) as [l1|] eqn:H1;
    destruct (selected topics2 (Some log)) as [l2|] eqn:H2; simpl; try done.
  - pose proof (proj1 (selected_spec _ _ _) H1) as [? _].
    pose proof (proj1 (selected_spec _ _ _) H2) as [? _]. simplify_eq. by rewrite H1, H2.
  - pose proof (proj1 (selected_spec _ _ _) H1) as [? _]. simplify_eq. by rewrite H2.
  - pose proof (proj1 (selected_spec _ _ _) H2) as [? _]. simplify_eq. by rewrite H1.
Qed.

(** X7. Filtering what [FilterLogs] returned once more, with the same
    query, returns it unchanged; and filtering with two queries one after
    the other returns the same logs in either order. *)
Theorem SliceLogFilterer_FilterLogs_again logs (query1 query2 : goethereum.FilterQuery) :
  (FilterLogs logs query1 ≫= fun r => FilterLogs (Some <$> r.1) query1) =
    FilterLogs logs query1 /\
  (FilterLogs logs query1 ≫= fun r => FilterLogs (Some <$> r.1) query2) =
    (FilterLogs logs query2 ≫= fun r => FilterLogs (Some <$> r.1) query1).
Proof.
  rewrite !FilterLogs_omap. simpl. rewrite !FilterLogs_omap, !refilter. split.
  - do 2 f_equal. apply omap_pointwise. intros l.
    destruct (selected (goethereum.Topics query1) l) as [log|] eqn:Hsel; simpl; [|done].
    by apply (selected_own _ l).
  - do 2 f_equal. apply omap_pointwise. intros l. apply selected_twice.
Qed.

Lemma deliver_prefix (buff : list types.Log) (quitWins : nat -> bool) :
  forall (i : nat) (ch : list types.Log),
  exists sent : list types.Log,
    deliver buff quitWins i ch = (ch ++ sent, None) /\
    sent `prefix_of` buff /\
    ((forall j : nat, quitWins j = false) -> sent = buff) /\
    (forall log, buff !! length sent = Some log -> quitWins (i + length sent)%nat = true).
Proof.
  induction buff as [|log buff IH]; intros i ch; simpl.
  { exists []. rewrite app_nil_r. by split_and!. }
  destruct (quitWins i) eqn:Hq.
  - exists []. rewrite app_nil_r. split_and!; [done | apply prefix_nil | |].
    + intros H. by rewrite H in Hq.
    + intros ? _. simpl. by rewrite Nat.add_0_r.
  - destruct (IH (S i) (ch ++ [log])) as (sent & -> & Hpre & Hall & Hstop).
    exists (log :: sent). rewrite <- app_assoc. split_and!; [done | by apply prefix_cons | |].
    + intros H. by rewrite Hall.
    + intros l Hl. simpl in *. replace (i + S (length sent))%nat with (S i + length sent)%nat by lia.
      by apply (Hstop l).
Qed.

(** X8. The function [SubscribeFilterLogs] runs in the subscription sends
    a prefix of what [FilterLogs] returns, in that order, and returns nil;
    it sends everything when quit never wins a select, and where it
    stopped short, quit had won the select of the first log not sent. *)
Theorem SubscribeFilterLogs_sends_prefix logs (query : goethereum.FilterQuery)
    (quitWins : nat -> bool) :
  exists res sent : list types.Log,
    FilterLogs logs query = Some (res, None) /\
    SubscribeFilterLogs_producer logs query quitWins = Some (sent, None) /\
    sent `prefix_of` res /\
    ((forall j : nat, quitWins j = false) -> sent = res) /\
    (forall log, res !! length sent = Some log -> quitWins (length sent) = true).
Proof.
  unfold SubscribeFilterLogs_producer. rewrite FilterLogs_omap. simpl.
  destruct (deliver_prefix (omap (selected (goethereum.Topics query)) logs) quitWins 0 [])
    as (sent & Hd & Hpre & Hall & Hstop).
  exists (omap (selected (goethereum.Topics query)) logs), sent.
  rewrite Hd. simpl. by split_and!.
Qed.

End LogFiltererFacts.

Section MakeTopicsFacts.
Import contractlogfilterer.
Variable Keccak256Hash : list Byte.byte -> Hash.

Lemma filterTopics_spec (filter : list Rule) : forall acc : list Hash,
  match filterTopics Keccak256Hash filter acc with
  | Some (inl sub) =>
      exists sub', sub = acc ++ sub' /\
        Forall2 (fun rule topic => ruleTopic Keccak256Hash rule = Some (inl topic)) filter sub'
  | Some (inr e) =>
      exists (done_ : list Rule) (rule : Rule) (rest : list Rule),
        filter = done_ ++ rule :: rest /\
        ruleTopic Keccak256Hash rule = Some (inr e) /\
        Forall (fun r => exists topic, ruleTopic Keccak256Hash r = Some (inl topic)) done_
  | None =>
      exists (done_ : list Rule) (rule : Rule) (rest : list Rule),
        filter = done_ ++ rule :: rest /\
        ruleTopic Keccak256Hash rule = None /\
        Forall (fun r => exists topic, ruleTopic Keccak256Hash r = Some (inl topic)) done_
  end.
Proof.
  induction filter as [|rule filter IH]; intros acc; simpl.
  { exists []. by rewrite app_nil_r. }
  destruct (ruleTopic Keccak256Hash rule) as [[topic|e]|] eqn:Hrule.
  - specialize (IH (acc ++ [topic])).
    destruct (filterTopics Keccak256Hash filter (acc ++ [topic])) as [[sub|e]|].
    + destruct IH as (sub' & -> & Hall). exists (topic :: sub').
      rewrite <- app_assoc. split; [done|]. by constructor.
    + destruct IH as (d & r & rest & -> & Hr & Hd). exists (rule :: d), r, rest.
      split_and!; [done | done |]. constructor; [by exists topic | done].
    + destruct IH as (d & r & rest & -> & Hr & Hd). exists (rule :: d), r, rest.
      split_and!; [done | done |]. constructor; [by exists topic | done].
  - exists [], rule, filter. by split_and!.
  - exists [], rule, filter. by split_and!.
Qed.

Lemma Forall2_ruleTopic_functional (filter : list Rule) (sub1 sub2 : list Hash) :
  Forall2 (fun rule topic => ruleTopic Keccak256Hash rule = Some (inl topic)) filter sub1 ->
  Forall2 (fun rule topic => ruleTopic Keccak256Hash rule = Some (inl topic)) filter sub2 ->
  sub1 = sub2.
Proof.
  intros H1. revert sub2. induction H1; intros sub2 H2; inversion H2; subst; [done|].
  f_equal; [congruence | by apply IHForall2].
Qed.

Lemma queryTopics_success (query : list (list Rule)) (topics : list (list Hash)) :
  queryTopics Keccak256Hash query = Some (inl topics) <->
  Forall2 (Forall2 (fun rule topic => ruleTopic Keccak256Hash rule = Some (inl topic)))
    query topics.
Proof.
  revert topics. induction query as [|filter query IH]; intros topics; simpl.
  { split.
    - intros ?. simplify_eq. constructor.
    - intros H. by inversion H. }
  pose proof (filterTopics_spec filter []) as Hf.
  destruct (filterTopics Keccak256Hash filter []) as [[sub|e]|].
  - destruct Hf as (sub' & -> & Hsub). simpl.
    destruct (queryTopics Keccak256Hash query) as [[topics'|e]|] eqn:Hq.
    + split.
      * intros ?. simplify_eq. constructor; [done|]. by apply IH.
      * intros H. inversion H as [|? sub2 ? topics2 Hhd Htl]; subst.
        apply IH in Htl. simplify_eq.
        by rewrite (Forall2_ruleTopic_functional filter sub' sub2).
    + split; [done|]. intros H. inversion H as [|? ? ? topics2 _ Htl]; subst.
      by apply IH in Htl.
    + split; [done|]. intros H. inversion H as [|? ? ? topics2 _ Htl]; subst.
      by apply IH in Htl.
  - split; [done|]. intros H. inversion H as [|? sub2 ? ? Hhd _]; subst.
    destruct Hf as (d & r & rest & -> & Hr & _).
    apply Forall2_app_inv_l in Hhd as (? & ? & _ & Hhd & _).
    inversion Hhd; subst. congruence.
  - split; [done|]. intros H. inversion H as [|? sub2 ? ? Hhd _]; subst.
    destruct Hf as (d & r & rest & -> & Hr & _).
    apply Forall2_app_inv_l in Hhd as (? & ? & _ & Hhd & _).
    inversion Hhd; subst. congruence.
Qed.

(** X9. [makeTopics] succeeds exactly when every rule of every filter has
    a topic, and then returns them position by position: as many rule sets
    as filters, each with as many topics as the filter has rules.  On an
    error it returns no topics. *)
Theorem makeTopics_positional (query : list (list Rule)) (topics : list (list Hash)) :
  (makeTopics Keccak256Hash query = Some (topics, None) <->
   Forall2 (Forall2 (fun rule topic => ruleTopic Keccak256Hash rule = Some (inl topic)))
     query topics) /\
  (forall e, makeTopics Keccak256Hash query = Some (topics, Some e) -> topics = []).
Proof.
  rewrite <- queryTopics_success. unfold makeTopics.
  destruct (queryTopics Keccak256Hash query) as [[topics'|e]|]; split;
    try (split; intros ?; by simplify_eq); intros; by simplify_eq.
Qed.

(** X10. [makeTopics] drops the sign of an integer: a signed integer and
    its opposite, of whatever width, have the same topic, that of the
    unsigned integer of their absolute value; and a [*big.Int] of 2^256 or
    more in absolute value makes it panic. *)
Theorem makeTopics_loses_sign (z : Z) :
  makeTopics Keccak256Hash [[RuleInt64 (- z)]] = makeTopics Keccak256Hash [[RuleInt64 z]] /\
  makeTopics Keccak256Hash [[RuleInt8 z; RuleInt16 z; RuleInt32 z; RuleInt64 z]] =
    makeTopics Keccak256Hash [[RuleUint64 (Z.abs z); RuleUint64 (Z.abs z);
                               RuleUint64 (Z.abs z); RuleBigInt (Some z)]] /\
  (2 ^ 256 <= Z.abs z -> makeTopics Keccak256Hash [[RuleBigInt (Some z)]] = None) /\
  (Z.abs z < 2 ^ 256 ->
   makeTopics Keccak256Hash [[RuleBigInt (Some z)]] = Some ([[Z.abs_N z]], None)).
Proof.
  unfold makeTopics. simpl. unfold alignBig.
  assert (Habs : Z.abs_N (Z.abs z) = Z.abs_N z) by (by destruct z).
  rewrite Z.abs_opp, Z.abs_idemp, Zabs2N.inj_opp, Habs.
  split; [done|]. split; [done|]. split; intros Hz.
  - destruct (Z.ltb_spec (Z.abs z) (2 ^ 256)); [lia | done].
  - destruct (Z.ltb_spec (Z.abs z) (2 ^ 256)); [done | lia].
Qed.

End MakeTopicsFacts.

Section ContractLogFiltererFacts.
Import contractlogfilterer.
Variable Keccak256Hash : list Byte.byte -> Hash.

Lemma filterTopics_hashes (ids : list Hash) : forall acc : list Hash,
  filterTopics Keccak256Hash (RuleHash <$> ids) acc = Some (inl (acc ++ ids)).
Proof.
  induction ids as [|h ids IH]; intros acc; simpl.
  - by rewrite app_nil_r.
  - rewrite IH. by rewrite <- app_assoc.
Qed.

Lemma makeTopics_event_selector (ids : list Hash) (query : list (list Rule)) :
  makeTopics Keccak256Hash ((RuleHash <$> ids) :: query) =
  match makeTopics Keccak256Hash query with
  | Some (topics, None) => Some (ids :: topics, None)
  | other => other
  end.
Proof.
  unfold makeTopics. simpl. rewrite filterTopics_hashes. simpl.
  by destruct (queryTopics Keccak256Hash query) as [[topics|e]|].
Qed.

(** X11. [ContractLogFilterer.FilterLogs] over a [SliceLogFilterer]: when
    [makeTopics] has topics for the query, the logs the subscription will
    send are, in the order of the slice, the logs that match the topic set
    made of the identifiers of the named events followed by the topics of
    the query; with no event named, the first topic of a log is free.
    Neither the address of the contract nor the block range of the options
    plays a part.  When [makeTopics] fails or panics, so does the call. *)
Theorem ContractLogFilterer_over_slice (c : ContractLogFilterer (list (option types.Log)))
    (opts : option FilterOpts) (names : list string) (query : list (list Rule)) :
  match makeTopics Keccak256Hash query with
  | Some (topics, None) =>
      exists buff : list types.Log,
        ContractLogFilterer_FilterLogs Keccak256Hash c opts names query =
          Some (filterer c, inl buff) /\
        buff `sublist_of` omap id (filterer c) /\
        forall log, log ∈ buff <->
          Some log ∈ filterer c /\ logfilterer.matches ((abi c <$> names) :: topics) log
  | Some (_, Some e) =>
      ContractLogFilterer_FilterLogs Keccak256Hash c opts names query =
        Some (filterer c, inr e)
  | None => ContractLogFilterer_FilterLogs Keccak256Hash c opts names query = None
  end.
Proof.
  unfold ContractLogFilterer_FilterLogs.
  replace ((fun name => RuleHash (abi c name)) <$> names) with (RuleHash <$> (abi c <$> names))
    by (by rewrite <- list_fmap_compose).
  rewrite makeTopics_event_selector.
  destruct (makeTopics Keccak256Hash query) as [[topics [e|]]|]; [done| |done].
  simpl. rewrite FilterLogs_omap. simpl.
  eexists. split; [done|]. split; [apply selected_sublist|].
  intros log. rewrite list_elem_of_omap. split.
  - intros (l & Hin & Hsel). apply selected_spec in Hsel as [-> Hm]. done.
  - intros [Hin Hm]. exists (Some log). split; [done|]. by apply selected_spec.
Qed.

End ContractLogFiltererFacts.

Section AddressFacts.
Import address.
Variable DecodeString : string -> list Byte.byte * error.
Variable BytesToAddress : list Byte.byte -> Address.

Lemma take_string_all (s : string) : take_string (String.length s) s = s.
Proof. induction s as [|a s IH]; simpl; [done | by rewrite IH]. Qed.

Lemma slice_tail (a b : Ascii.ascii) (rest : string) :
  slice (String a (String b rest)) 2 (String.length (String a (String b rest))) = Some rest.
Proof.
  unfold slice. change (String.length (String a (String b rest)))
    with (S (S (String.length rest))).
  rewrite Nat.leb_refl. replace (S (S (String.length rest)) - 2)%nat
    with (String.length rest) by lia.
  change (drop_string 2 (String a (String b rest))) with rest.
  by rewrite take_string_all.
Qed.

Lemma has0xPrefix_two (a b : Ascii.ascii) (rest : string) :
  has0xPrefix (String a (String b rest)) =
  Some (String.eqb (String a (String b "")) "0x" || String.eqb (String a (String b "")) "0X").
Proof. done. Qed.

Lemma has0xPrefix_spec (s : string) (b : bool) :
  has0xPrefix s = Some b -> (b = true <-> prefixed s).
Proof.
  destruct s as [|a [|c rest]]; [done..|]. rewrite has0xPrefix_two.
  intros H. apply (inj Some) in H. subst b.
  rewrite orb_true_iff, !String.eqb_eq. unfold prefixed. split.
  - intros [[= -> ->]|[= -> ->]]; exists rest; [by left | by right].
  - intros (rest' & [H|H]); simpl in H; inversion H; [by left | by right].
Qed.

Lemma has0xPrefix_long (s : string) :
  (2 <= String.length s)%nat -> exists b : bool, has0xPrefix s = Some b.
Proof.
  destruct s as [|a [|c rest]]; simpl; [lia..|]. intros _. rewrite has0xPrefix_two. eauto.
Qed.

(** X12. [fromHex] never panics.  What it hands to the decoder has an even
    number of characters: it is the string without its ["0x"] or ["0X"]
    prefix, stripped once, and with one ["0"] in front when that leaves an
    odd number of characters.  What the decoder returns is returned. *)
Theorem fromHex_decodes_even (s : string) :
  exists body digits : string,
    fromHex DecodeString s = Some (DecodeString digits) /\
    (String.length digits mod 2 = 0)%nat /\
    (digits = body \/ digits = ("0" ++ body)%string) /\
    (prefixed s -> s = ("0x" ++ body)%string \/ s = ("0X" ++ body)%string) /\
    (~ prefixed s -> body = s).
Proof.
  assert (Hpad : forall body : string,
    exists digits : string,
      (if (String.length body mod 2 =? 1)%nat then ("0" ++ body)%string else body) = digits /\
      (String.length digits mod 2 = 0)%nat /\
      (digits = body \/ digits = ("0" ++ body)%string)).
  { intros body. pose proof (Nat.div_mod_eq (String.length body) 2) as Hdm.
    pose proof (Nat.mod_upper_bound (String.length body) 2 ltac:(lia)) as Hlt.
    destruct (Nat.eqb_spec (String.length body mod 2) 1) as [Hodd|Heven].
    - exists ("0" ++ body)%string. split; [done|]. split; [|by right].
      change (String.length ("0" ++ body)) with (S (String.length body)).
      symmetry. apply (Nat.mod_unique _ 2 (String.length body / 2 + 1)); lia.
    - exists body. split; [done|]. split; [lia | by left]. }
  assert (Hshort : forall s0 : string, (String.length s0 < 2)%nat -> ~ prefixed s0).
  { intros s0 Hlen (r & [H|H]); subst s0; simpl in Hlen; lia. }
  unfold fromHex. destruct s as [|a [|c rest]].
  - destruct (Hpad ""%string) as (digits & Hd & Hev & Hor). exists ""%string, digits.
    change (1 <? String.length "")%nat with false. cbv iota. cbn [mbind option_bind]. simpl in Hd.
    split; [by rewrite <- Hd|]. split; [done|]. split; [done|]. split; [|done].
    intros Hp. apply Hshort in Hp; [done | simpl; lia].
  - destruct (Hpad (String a "")) as (digits & Hd & Hev & Hor).
    exists (String a ""), digits.
    change (1 <? String.length (String a ""))%nat with false. cbv iota.
    split; [simpl; simpl in Hd; by rewrite <- Hd|]. split; [done|]. split; [done|].
    split; [|done]. intros Hp. apply Hshort in Hp; [done | simpl; lia].
  - change (1 <? String.length (String a (String c rest)))%nat with true. cbv iota.
    destruct (has0xPrefix (String a (String c rest))) as [b|] eqn:Hp;
      [|by rewrite has0xPrefix_two in Hp].
    pose proof (has0xPrefix_spec _ _ Hp) as Hb. destruct b.
    + destruct (Hpad rest) as (digits & Hd & Hev & Hor). exists rest, digits.
      split; [cbn [mbind option_bind]; rewrite slice_tail; cbn [mbind option_bind]; by rewrite Hd|].
      split; [done|]. split; [done|]. split.
      * intros _. destruct Hb as [Hb _]. destruct Hb as (r & [H|H]); [done|..];
          simpl in H; inversion H; subst; [by left | by right].
      * intros Hn. destruct Hn. by apply Hb.
    + destruct (Hpad (String a (String c rest))) as (digits & Hd & Hev & Hor).
      exists (String a (String c rest)), digits.
      split; [cbn [mbind option_bind]; by rewrite Hd|].
      split; [done|]. split; [done|]. split; [|done].
      intros Hpre. apply Hb in Hpre. done.
Qed.

Lemma has0xPrefix_false (s : string) :
  (2 <= String.length s)%nat -> ~ prefixed s -> has0xPrefix s = Some false.
Proof.
  intros Hlen Hn. destruct (has0xPrefix_long s Hlen) as [b Hb]. rewrite Hb.
  destruct b; [|done]. destruct Hn. by apply (has0xPrefix_spec s true).
Qed.

Lemma has0xPrefix_true (a c : Ascii.ascii) (rest : string) :
  prefixed (String a (String c "")) -> has0xPrefix (String a (String c rest)) = Some true.
Proof.
  intros Hp. destruct (has0xPrefix (String a (String c rest))) as [b|] eqn:Hb;
    [|by rewrite has0xPrefix_two in Hb].
  destruct b; [done|]. apply has0xPrefix_spec in Hb. destruct Hb as [_ Hb].
  discriminate Hb. destruct Hp as (r & [H|H]); simpl in H; inversion H; subst;
    exists rest; [by left | by right].
Qed.

Lemma fromHex_prefixed (a c : Ascii.ascii) (rest : string) :
  prefixed (String a (String c "")) -> (String.length rest mod 2 = 0)%nat ->
  fromHex DecodeString (String a (String c rest)) = Some (DecodeString rest).
Proof.
  intros Hp Hev. unfold fromHex.
  change (1 <? String.length (String a (String c rest)))%nat with true. cbv iota.
  rewrite has0xPrefix_true by done. cbn [mbind option_bind]. rewrite slice_tail.
  cbn [mbind option_bind]. by rewrite Hev.
Qed.

Lemma fromHex_plain (s : string) :
  ~ prefixed s -> (String.length s mod 2 = 0)%nat ->
  fromHex DecodeString s = Some (DecodeString s).
Proof.
  intros Hn Hev. unfold fromHex. destruct (Nat.ltb_spec 1 (String.length s)) as [Hlen|Hlen].
  - rewrite has0xPrefix_false by (done || lia). cbn [mbind option_bind]. by rewrite Hev.
  - cbn [mbind option_bind]. by rewrite Hev.
Qed.

Lemma isHex_42 (s : string) (b : bool) :
  String.length s = 42%nat -> has0xPrefix s = Some b -> isHex s = Some b.
Proof. intros Hlen Hb. unfold isHex. by rewrite Hlen. Qed.

Lemma NewAddressFromHex_valid (hex digits : string) :
  isHexAddress hex = Some true ->
  fromHex DecodeString hex = Some (DecodeString digits) ->
  NewAddressFromHex DecodeString BytesToAddress hex =
    Some (decoded DecodeString BytesToAddress digits).
Proof.
  intros Hv Hf. unfold NewAddressFromHex, decoded. rewrite Hv. cbn [mbind option_bind negb].
  rewrite Hf. cbn [mbind option_bind]. by destruct (DecodeString digits) as [bs [e|]].
Qed.

Lemma NewAddressFromHex_invalid (hex : string) :
  isHexAddress hex = Some false ->
  NewAddressFromHex DecodeString BytesToAddress hex = Some (rejected hex).
Proof. intros Hv. unfold NewAddressFromHex. by rewrite Hv. Qed.

Lemma isHexAddress_prefixed_42 (a c : Ascii.ascii) (rest : string) :
  prefixed (String a (String c "")) -> String.length rest = 40%nat ->
  isHexAddress (String a (String c rest)) = Some true.
Proof.
  intros Hp Hlen. unfold isHexAddress.
  assert (Hl : String.length (String a (String c rest)) = 42%nat) by (simpl; lia).
  rewrite Hl. change (42 =? 2 + 2 * AddressLength)%nat with true. cbv iota.
  by rewrite (isHex_42 _ true Hl (has0xPrefix_true a c rest Hp)).
Qed.

Lemma isHexAddress_40 (s : string) :
  String.length s = 40%nat -> isHexAddress s = Some true.
Proof.
  intros Hlen. unfold isHexAddress. rewrite Hlen.
  change (40 =? 2 + 2 * AddressLength)%nat with false.
  change (40 =? 2 * AddressLength)%nat with true. cbv iota. cbn [mbind option_bind].
  assert (Hl : String.length ("0x" ++ s) = 42%nat)
    by (change (S (S (String.length s)) = 42%nat); lia).
  rewrite (isHex_42 _ true Hl); [done|].
  refine (has0xPrefix_true _ _ s _). exists ""%string. by left.
Qed.

(** X13. [NewAddressFromHex] never panics, and of the string it decodes
    the forty characters of an address, prefixed or not: a string of 42
    characters must start with ["0x"] or ["0X"], and the rest is decoded; a
    string of 40 characters is decoded as it is.  But a string of 40
    characters that starts with the prefix is accepted too, and only its 38
    other characters are decoded.  Any other length is rejected with the
    zero address, and the decoder is not consulted. *)
Theorem NewAddressFromHex_cases (hex rest : string) :
  (String.length hex <> 40%nat -> String.length hex <> 42%nat ->
   NewAddressFromHex DecodeString BytesToAddress hex = Some (rejected hex)) /\
  (String.length hex = 42%nat -> ~ prefixed hex ->
   NewAddressFromHex DecodeString BytesToAddress hex = Some (rejected hex)) /\
  (String.length hex = 40%nat -> ~ prefixed hex ->
   NewAddressFromHex DecodeString BytesToAddress hex =
     Some (decoded DecodeString BytesToAddress hex)) /\
  (String.length rest = 40%nat \/ String.length rest = 38%nat ->
   NewAddressFromHex DecodeString BytesToAddress ("0x" ++ rest) =
     Some (decoded DecodeString BytesToAddress rest) /\
   NewAddressFromHex DecodeString BytesToAddress ("0X" ++ rest) =
     Some (decoded DecodeString BytesToAddress rest)).
Proof.
  assert (Hx : prefixed "0x") by (exists ""%string; by left).
  assert (HX : prefixed "0X") by (exists ""%string; by right).
  split_and!.
  - intros H40 H42. apply NewAddressFromHex_invalid. unfold isHexAddress.
    destruct (Nat.eqb_spec (String.length hex) (2 + 2 * AddressLength)) as [H|_];
      [unfold AddressLength in H; lia|].
    destruct (Nat.eqb_spec (String.length hex) (2 * AddressLength)) as [H|_];
      [unfold AddressLength in H; lia|]. done.
  - intros H42 Hn. apply NewAddressFromHex_invalid. unfold isHexAddress. rewrite H42.
    change (42 =? 2 + 2 * AddressLength)%nat with true.
    change (42 =? 2 * AddressLength)%nat with false. cbv iota.
    rewrite (isHex_42 hex false H42); [done|]. apply has0xPrefix_false; [lia | done].
  - intros H40 Hn. apply NewAddressFromHex_valid; [by apply isHexAddress_40|].
    apply fromHex_plain; [done | by rewrite H40].
  - intros Hlen.
    assert (Hev : (String.length rest mod 2 = 0)%nat) by (destruct Hlen as [-> | ->]; done).
    split; (apply NewAddressFromHex_valid; [|by apply fromHex_prefixed]);
      (destruct Hlen as [Hlen|Hlen];
       [by apply isHexAddress_prefixed_42
       | apply isHexAddress_40; change (S (S (String.length rest)) = 40%nat); lia]).
Qed.

End AddressFacts.

Section GetBlockFacts.
Import client getblock.
Implicit Types (node : N -> option rpcReceipt) (txs chunk : list Transaction).

Lemma storeResults_spec (replies : list BatchReply) :
  forall (receipts : list (option rpcReceipt)) (off : nat),
    (off + length replies <= length receipts)%nat ->
    storeResults receipts off replies =
      take off receipts ++ (Result <$> replies) ++ drop (off + length replies) receipts.
Proof.
  induction replies as [|reply replies IH]; intros receipts off Hlen; simpl in *.
  { by rewrite Nat.add_0_r, take_drop. }
  rewrite IH by (rewrite length_insert; lia).
  rewrite (take_S_r _ _ (Result reply)) by (apply list_lookup_insert_eq; lia).
  rewrite take_insert_ge by lia. rewrite drop_insert_lt by lia.
  rewrite <- app_assoc. simpl.
  by replace (S (off + length replies))%nat with (off + S (length replies))%nat by lia.
Qed.

Lemma Result_answer node txs :
  Result <$> (answer node <$> chunkRequests txs) = receiptAt node <$> txs.
Proof.
  unfold chunkRequests. rewrite <- !list_fmap_compose. by apply list_fmap_ext.
Qed.

Lemma firstMissing_app node (l1 l2 : list Transaction) : forall i : nat,
  firstMissing node (l1 ++ l2) i =
  match firstMissing node l1 i with
  | Some k => Some k
  | None => firstMissing node l2 (i + length l1)
  end.
Proof.
  induction l1 as [|tx l1 IH]; intros i; simpl.
  - by rewrite Nat.add_0_r.
  - destruct (receiptAt node tx); [|done]. rewrite IH. by rewrite Nat.add_succ_r.
Qed.

Lemma firstMissing_None node txs : forall i : nat,
  firstMissing node txs i = None <-> Forall (fun tx => is_Some (receiptAt node tx)) txs.
Proof.
  induction txs as [|tx txs IH]; intros i; simpl.
  - split; [by constructor | done].
  - destruct (receiptAt node tx) as [r|] eqn:Hr.
    + rewrite IH. split.
      * intros H. constructor; [by rewrite Hr | done].
      * intros H. by inversion H.
    + split; [done|]. intros H. inversion H as [|? ? [r Hr'] _]. congruence.
Qed.

Lemma firstMissing_Some node txs : forall i k : nat,
  firstMissing node txs i = Some k <->
  exists j tx, k = (i + j)%nat /\ txs !! j = Some tx /\ receiptAt node tx = None /\
    forall j' tx', (j' < j)%nat -> txs !! j' = Some tx' -> is_Some (receiptAt node tx').
Proof.
  induction txs as [|tx txs IH]; intros i k; simpl.
  { split; [done|]. by intros (j & tx & _ & Hl & _). }
  destruct (receiptAt node tx) as [r|] eqn:Hr.
  - rewrite IH. split.
    + intros (j & tx' & -> & Hl & Hnone & Hbefore). exists (S j), tx'.
      split; [lia|]. split; [done|]. split; [done|].
      intros [|j'] tx'' Hlt Hl'; simpl in Hl'; [simplify_eq; by rewrite Hr|].
      apply (Hbefore j'); [lia | done].
    + intros ([|j] & tx' & -> & Hl & Hnone & Hbefore); simpl in Hl; [simplify_eq; congruence|].
      exists j, tx'. split; [lia|]. split; [done|]. split; [done|].
      intros j' tx'' Hlt Hl'. apply (Hbefore (S j')); [lia | done].
  - split.
    + intros [= <-]. exists 0%nat, tx. split; [lia|]. split; [done|]. split; [done|].
      intros j' ? Hlt. lia.
    + intros ([|j] & tx' & -> & Hl & Hnone & Hbefore); [f_equal; lia|].
      destruct (Hbefore 0%nat tx) as [r Hr']; [lia | done | congruence].
Qed.

Lemma validate_answered node (blockNumber : Z) (reqs : list BatchElem) (B : list (option rpcReceipt))
    (rest : list Transaction) :
  forall (A : list (option rpcReceipt)) (i : nat),
    validate (A ++ (receiptAt node <$> rest) ++ B) (answer node <$> reqs) blockNumber
             (length A) (length rest) i =
    Some (match firstMissing node rest (length A) with
          | None => None
          | Some k => Some (nullReceipt k blockNumber)
          end).
Proof.
  induction rest as [|tx rest IH]; intros A i; [done|].
  rewrite fmap_cons. change (length (tx :: rest)) with (S (length rest)).
  cbn [validate firstMissing].
  assert (Herr : forall e, Error_ <$> (answer node <$> reqs) !! i <> Some (Some e)).
  { intros e. rewrite list_lookup_fmap. by destruct (reqs !! i). }
  assert (Hlook : (A ++ (receiptAt node tx :: (receiptAt node <$> rest)) ++ B) !! length A =
                  Some (receiptAt node tx)).
  { rewrite lookup_app_r by lia. by rewrite Nat.sub_diag. }
  destruct (Error_ <$> (answer node <$> reqs) !! i) as [[e|]|] eqn:He;
    [by destruct (Herr e) | |]; rewrite Hlook.
  all: destruct (receiptAt node tx) as [r|] eqn:Hr; [|done].
  all: specialize (IH (A ++ [Some r]) (S i)).
  all: rewrite length_app, Nat.add_1_r, <- app_assoc in IH; exact IH.
Qed.

Lemma loadChunks_answered node (blockNumber : Z) (chunks : list (list Transaction)) :
  forall (pre : list Transaction) (receipts : list (option rpcReceipt))
         (sent : list (list BatchElem)),
  length receipts = length (pre ++ concat chunks) ->
  exists sent' : list (list BatchElem),
    loadChunks node (pre ++ concat chunks) blockNumber chunks (length pre) receipts sent =
      Some (node, sent',
            match firstMissing node (concat chunks) (length pre) with
            | None => inl (take (length pre) receipts ++ (receiptAt node <$> concat chunks))
            | Some k => inr (nullReceipt k blockNumber)
            end).
Proof.
  induction chunks as [|chunk chunks IH]; intros pre receipts sent Hlen; simpl.
  { exists sent. rewrite app_nil_r in *. by rewrite take_ge by lia. }
  simpl in Hlen. rewrite buildReqs_chunk by done. simpl.
  rewrite !length_app in Hlen.
  assert (Hreplies : length (answer node <$> chunkRequests chunk) = length chunk)
    by (unfold chunkRequests; by rewrite !length_fmap).
  rewrite (take_ge (answer node <$> chunkRequests chunk)) by lia.
  rewrite storeResults_spec by lia. rewrite Result_answer, Hreplies.
  assert (HA : length (take (length pre) receipts) = length pre)
    by (rewrite length_take; lia).
  pose proof (validate_answered node blockNumber (chunkRequests chunk)
                (drop (length pre + length chunk) receipts) chunk
                (take (length pre) receipts) 0%nat) as Hval.
  rewrite HA in Hval. rewrite Hval. rewrite firstMissing_app.
  destruct (firstMissing node chunk (length pre)) as [k|]; [by eexists|].
  set (receipts' := take (length pre) receipts ++ (receiptAt node <$> chunk) ++
                    drop (length pre + length chunk) receipts).
  destruct (IH (pre ++ chunk) receipts' (sent ++ [chunkRequests chunk])) as [sent' Hload].
  { subst receipts'. rewrite !length_app, length_take, length_fmap, length_drop. lia. }
  rewrite length_app, <- app_assoc in Hload. rewrite Hload. exists sent'.
  do 2 f_equal. destruct (firstMissing node (concat chunks) (length pre + length chunk)); [done|].
  f_equal. subst receipts'. rewrite fmap_app, !app_assoc. f_equal.
  rewrite take_app_length'; [done|]. by rewrite length_app, HA, length_fmap.
Qed.

Lemma loadReceipts_answered node txs (blockNumber : Z) :
  exists sent : list (list BatchElem),
    loadReceipts node txs blockNumber =
      Some (node, sent,
            match firstMissing node txs 0 with
            | None => inl (receiptAt node <$> txs)
            | Some i => inr (nullReceipt i blockNumber)
            end).
Proof.
  unfold loadReceipts. destruct (Nat.ltb_spec 0 (length txs)) as [Hpos|Hnil].
  - destruct (chunkTransactions_spec txs 500 ltac:(lia)) as (chunks & -> & Hconcat & _).
    destruct (loadChunks_answered node blockNumber chunks [] (replicate (length txs) None) [])
      as [sent Hload]; [by rewrite length_replicate, Hconcat|].
    simpl in Hload. rewrite Hconcat in Hload. by exists sent.
  - destruct txs; [|simpl in Hnil; lia]. by exists [].
Qed.

(** X14. A node that answers every request with the receipt of the hash
    asked for: [getBlock]'s retrieval returns for a block of any size the
    receipts of its transactions, the receipt at index [i] that of the
    transaction at index [i], also across the chunks of 500; or, when the
    node has no receipt for some transaction, the error that names the
    index of the first such transaction.  It does not panic. *)
Theorem receipts_line_up node txs (blockNumber : Z) :
  (exists sent : list (list BatchElem),
     loadReceipts node txs blockNumber =
       Some (node, sent,
             match firstMissing node txs 0 with
             | None => inl (receiptAt node <$> txs)
             | Some i => inr (nullReceipt i blockNumber)
             end)) /\
  (forall i : nat, firstMissing node txs 0 = Some i <->
     exists tx, txs !! i = Some tx /\ receiptAt node tx = None /\
       forall j tx', (j < i)%nat -> txs !! j = Some tx' -> is_Some (receiptAt node tx')).
Proof.
  split; [apply loadReceipts_answered|].
  intros i. rewrite firstMissing_Some. split.
  - intros (j & tx & -> & H). by exists tx.
  - intros (tx & H). by exists i, tx.
Qed.

Lemma assignReceipts_answered node (rest : list N) : forall done_ : list Transaction,
  Forall (fun hash => is_Some (node hash)) rest ->
  assignReceipts (done_ ++ newTransactions rest) (receiptAt node <$> newTransactions rest)
                 (length done_) =
    Some (done_ ++ (filled node <$> rest)).
Proof.
  induction rest as [|hash rest IH]; intros done_ Hall.
  { simpl. by rewrite !app_nil_r. }
  inversion Hall as [|? ? [r Hr] Hrest]; subst.
  unfold newTransactions. rewrite !fmap_cons. fold (newTransactions rest).
  assert (Hrec : receiptAt node (mkTransaction hash None None None) = Some r) by exact Hr.
  cbn [assignReceipts]. rewrite Hrec.
  cbn [mbind option_bind]. rewrite lookup_app_r by lia. rewrite Nat.sub_diag.
  cbn [lookup list_lookup mbind option_bind].
  assert (Hins : <[length done_ := assignReceipt (mkTransaction hash None None None) r]>
                   (done_ ++ mkTransaction hash None None None :: newTransactions rest) =
                 (done_ ++ [filled node hash]) ++ newTransactions rest).
  { rewrite insert_app_r_alt by lia. rewrite Nat.sub_diag. simpl. rewrite <- app_assoc.
    simpl. do 2 f_equal. unfold filled, assignReceipt. rewrite Hr. simpl.
    by destruct (rcpt_Status r), (rcpt_ContractAddress r). }
  rewrite Hins. specialize (IH (done_ ++ [filled node hash]) Hrest).
  rewrite length_app, Nat.add_1_r in IH. rewrite IH. by rewrite <- app_assoc.
Qed.

Lemma firstMissing_newTransactions node (hashes : list N) :
  firstMissing node (newTransactions hashes) 0 = None ->
  Forall (fun hash => is_Some (node hash)) hashes.
Proof.
  intros H. apply firstMissing_None in H.
  induction hashes as [|hash hashes IH]; [constructor|].
  inversion H as [|? ? Hhd Htl]; subst. constructor; [exact Hhd | by apply IH].
Qed.

Section Decoders.
Context {Raw : Type}.
Variable len : Raw -> nat.
Variable unmarshalHeader : Raw -> option Header + Error.
Variable unmarshalBody : Raw -> rpcBlock + Error.

(** X15. [getBlock] at a node that answers every receipt request by hash,
    when the reply is not empty and decodes to a header and a body: the
    block returned has the hash of the body, the number of the header and,
    in the order of the body, its transactions, each with the gas used,
    the status and the contract address of its own receipt, absent where
    the receipt has none; a block without transactions needs no receipt.
    When the node lacks a receipt, the error names the first transaction
    without one.  There is no panic. *)
Theorem getBlock_answered `{!Caller (N -> option rpcReceipt) Raw}
    (node node' : N -> option rpcReceipt) (method : string) (args : list string)
    (raw : Raw) (header : Header) (body : rpcBlock) :
  CallContext node method args = (node', inl raw) ->
  len raw <> 0%nat ->
  unmarshalHeader raw = inl (Some header) ->
  unmarshalBody raw = inl body ->
  getBlock len unmarshalHeader unmarshalBody node method args =
    Some (node',
          match firstMissing node' (newTransactions (body_Transactions body)) 0 with
          | None => inl {| block_Hash := body_Hash body;
                           block_Number := Number header;
                           block_Transactions := filled node' <$> body_Transactions body |}
          | Some i => inr (nullReceipt i (Number header))
          end).
Proof.
  intros Hcall Hlen Hheader Hbody. unfold getBlock. rewrite Hcall.
  destruct (Nat.eqb_spec (len raw) 0) as [|_]; [done|]. rewrite Hheader, Hbody.
  unfold withReceipts.
  destruct (Nat.ltb_spec 0 (length (newTransactions (body_Transactions body)))) as [Hpos|Hnil].
  - destruct (loadReceipts_answered node' (newTransactions (body_Transactions body))
                (Number header)) as [sent Hload].
    rewrite Hload. cbn [mbind option_bind].
    destruct (firstMissing node' (newTransactions (body_Transactions body)) 0) as [i|] eqn:Hmiss;
      [done|].
    pose proof (assignReceipts_answered node' (body_Transactions body) []
                  (firstMissing_newTransactions _ _ Hmiss)) as Hassign.
    simpl in Hassign. by rewrite Hassign.
  - destruct (body_Transactions body); [done | simpl in Hnil; lia].
Qed.

(** X16. When the reply is not empty, the body decodes, and the decoder
    leaves the header nil, as it does for a null document, [getBlock]
    returns no block: it fails while loading the receipts, or it panics
    on the nil header; for a body without transactions it panics. *)
Theorem getBlock_nil_header {R : Type} `{!BatchCaller R} `{!Caller R Raw}
    (rpc rpc' : R) (method : string) (args : list string) (raw : Raw) (body : rpcBlock) :
  CallContext rpc method args = (rpc', inl raw) ->
  len raw <> 0%nat ->
  unmarshalHeader raw = inl None ->
  unmarshalBody raw = inl body ->
  (forall (rpc'' : R) (block : Block),
     getBlock len unmarshalHeader unmarshalBody rpc method args <> Some (rpc'', inl block)) /\
  (body_Transactions body = [] ->
   getBlock len unmarshalHeader unmarshalBody rpc method args = None).
Proof.
  intros Hcall Hlen Hheader Hbody. unfold getBlock. rewrite Hcall.
  destruct (Nat.eqb_spec (len raw) 0) as [|_]; [done|]. rewrite Hheader, Hbody. split.
  - intros rpc'' block.
    destruct (withReceipts rpc' (newTransactions (body_Transactions body)) None)
      as [[rpc1 [btxs|e]]|]; by cbn [mbind option_bind].
  - intros ->. done.
Qed.

End Decoders.

End GetBlockFacts.

Lemma getBlock_answered_witness :
  let node : N -> option client.rpcReceipt :=
    fun hash => Some (client.mkRpcReceipt (Some 1) None (Some (Z.of_N hash))) in
  let decodeHeader := fun _ : string => inl (Some (getblock.mkHeader 7)) in
  let decodeBody := fun _ : string => inl (getblock.mkRpcBlock 99 [3; 4]%N) in
  getblock.getBlock String.length decodeHeader decodeBody node "eth_getBlockByNumber"
                    ["0x7"; "true"]%string =
    Some (node, inl (getblock.mkBlock 99 7
                       [client.mkTransaction 3 (Some 3) (Some 1) None;
                        client.mkTransaction 4 (Some 4) (Some 1) None])).
Proof.
  intros node decodeHeader decodeBody.
  assert (Hlen : String.length "{}" <> 0%nat) by (simpl; lia).
  exact (getBlock_answered String.length decodeHeader decodeBody node node
           "eth_getBlockByNumber" ["0x7"; "true"]%string "{}"%string (getblock.mkHeader 7)
           (getblock.mkRpcBlock 99 [3; 4]%N) eq_refl Hlen eq_refl eq_refl).
Defined.

Lemma getBlock_nil_header_witness :
  let decodeHeader := fun _ : string => @inl (option getblock.Header) Error None in
  let decodeBody := fun _ : string => @inl getblock.rpcBlock Error (getblock.mkRpcBlock 0 []) in
  getblock.getBlock String.length decodeHeader decodeBody 1%nat "eth_getBlockByNumber"
                    ["0x7"; "true"]%string = None.
Proof.
  intros decodeHeader decodeBody.
  assert (Hlen : String.length "null" <> 0%nat) by (simpl; lia).
  exact (proj2 (getBlock_nil_header String.length decodeHeader decodeBody 1%nat 1%nat
                  "eth_getBlockByNumber" ["0x7"; "true"]%string "null"%string
                  (getblock.mkRpcBlock 0 []) eq_refl Hlen eq_refl eq_refl) eq_refl).
Defined.

Section RpcJsonFacts.
Import rpcjson.

(** X17. [rpcTransaction.UnmarshalJSON] returns nil exactly when the
    twelve required fields are in the input, [to] not being one of them;
    the receiver then holds the values of the input, and its old [To] when
    the input has none.  When it fails, the error names the first missing
    field in the order of the checks; and without a block number the
    receiver is left as it was. *)
Theorem rpcTransaction_UnmarshalJSON_required (t : rpcTransaction) (dec : tx) :
  let '(t', err) := rpcTransaction_UnmarshalJSON t (inl dec) in
  (err = None <-> Forall (fun field => field.2 = true) (requiredFields dec)) /\
  (err = (fun field => missing field.1) <$>
           head (filter (fun field => field.2 = false) (requiredFields dec))) /\
  (err = None ->
   t' = mkRpcTransaction (dec_BlockNumber dec) (default 0%N (dec_From dec)) (dec_GasLimit dec)
          (dec_GasPrice dec) (default 0%N (dec_Hash dec)) (dec_Input dec)
          (default 0 (dec_Nonce dec))
          (match dec_To dec with Some to => Some to | None => To t end)
          (default 0 (dec_TransactionIndex dec)) (dec_Value dec) (dec_V dec) (dec_R dec)
          (dec_S dec)) /\
  (dec_BlockNumber dec = None -> t' = t).
Proof.
  destruct dec as [bn from gas gasPrice hash input nonce to ti value v r s].
  unfold rpcTransaction_UnmarshalJSON, requiredFields, required.
  destruct bn as [bn|]; [|field_missing].
  destruct from as [from|]; [|field_missing].
  destruct gas as [gas|]; [|field_missing].
  destruct gasPrice as [gasPrice|]; [|field_missing].
  destruct hash as [hash|]; [|field_missing].
  destruct input as [input|]; [|field_missing].
  destruct nonce as [nonce|]; [|field_missing].
  destruct ti as [ti|]; [|destruct to; field_missing].
  destruct value as [value|]; [|destruct to; field_missing].
  destruct v as [v|]; [|destruct to; field_missing].
  destruct r as [r|]; [|destruct to; field_missing].
  destruct s as [s|]; [|destruct to; field_missing].
  destruct to as [to|]; cbn.
  all: split; [split; [intros _; by repeat constructor | done]|].
  all: split; [vm_compute; reflexivity|]. all: split; [|done]. all: intros _; by destruct t.
Qed.

(** X18. [rpcReceipt.UnmarshalJSON] needs the gas used only.  It stores
    the status and the contract address before it looks for the gas used,
    so they are in the receiver also when it fails; a field that is not in
    the input keeps what the receiver had.  Into an empty receiver a valid
    input decodes to just its fields, and decoding it once more changes
    nothing. *)
Theorem rpcReceipt_UnmarshalJSON_fields (r : client.rpcReceipt) (dec : Receipt) :
  let '(r', err) := rpcReceipt_UnmarshalJSON r (inl dec) in
  (err = None <-> is_Some (dec_GasUsed dec)) /\
  (err <> None -> err = Some (missing "gasUsed") /\
                  client.rcpt_GasUsed r' = client.rcpt_GasUsed r) /\
  client.rcpt_Status r' = (match dec_Status dec with
                           | Some status => Some status
                           | None => client.rcpt_Status r
                           end) /\
  client.rcpt_ContractAddress r' = (match dec_ContractAddress dec with
                                    | Some a => Some a
                                    | None => client.rcpt_ContractAddress r
                                    end) /\
  (err = None ->
   client.rcpt_GasUsed r' = dec_GasUsed dec /\
   rpcReceipt_UnmarshalJSON r' (inl dec) = (r', None) /\
   (r = client.mkRpcReceipt None None None ->
    r' = client.mkRpcReceipt (dec_Status dec) (dec_ContractAddress dec) (dec_GasUsed dec))).
Proof.
  destruct dec as [[status|] [a|] [gasUsed|]], r as [s0 a0 g0]; cbn;
    (split; [split; [by eauto | by intros [? ?] || done]|]);
    (split; [intros ?; by split || done|]); (split; [done|]); (split; [done|]);
    try done; intros _; (split; [done|]); (split; [done|]); intros ?; by simplify_eq.
Qed.

End RpcJsonFacts.

Section GasEstimatorTraceFacts.
Import gasestimator gasestimator_trace.
Implicit Types (e : GasPriceEstimator) (a : Action).

Lemma Cmp_equal (x y : Z) : (blocksource.Cmp x y =? 0) = true -> x = y.
Proof.
  unfold blocksource.Cmp. rewrite Z.eqb_eq. by destruct (Z.compare_spec x y).
Qed.

Lemma step_price e a e' :
  step e a = Some e' ->
  gasPrice e' = lastFetched (gasPrice e) [a] /\ logged e' = logged e ++ failures [a].
Proof.
  intros Hstep. destruct a; simpl in Hstep; repeat case_match; simplify_eq/=;
    rewrite ?app_nil_r; try done.
  split; [|done]. by apply Cmp_equal.
Qed.

Lemma run_price (actions : list Action) : forall e e',
  run e actions = Some e' ->
  gasPrice e' = lastFetched (gasPrice e) actions /\ logged e' = logged e ++ failures actions.
Proof.
  induction actions as [|a actions IH]; intros e e'; simpl.
  { intros [= <-]. by rewrite app_nil_r. }
  destruct (step e a) as [e1|] eqn:Hstep; [|done]. intros Hrun.
  destruct (step_price e a e1 Hstep) as [Hp Hl]. destruct (IH e1 e' Hrun) as [Hp' Hl'].
  rewrite Hp', Hl', Hp, Hl. split; [done|]. rewrite <- app_assoc. f_equal.
  unfold failures. simpl. by destruct a as [| |[|]| | | |].
Qed.


Lemma open_step e a e' : open e -> a <> CloseCalled -> step e a = Some e' -> open e'.
Proof.
  unfold open. intros (Hc & Hcl & Ho & Hd & Hl & Hw & Hwg) Ha Hstep.
  destruct a; simpl in Hstep; repeat case_match; simplify_eq/=; try done.
Qed.

Lemma open_run (actions : list Action) : forall e e',
  open e -> CloseCalled ∉ actions -> run e actions = Some e' -> open e'.
Proof.
  induction actions as [|a actions IH]; intros e e' He Hn; simpl; [by intros [= <-]|].
  destruct (step e a) as [e1|] eqn:Hstep; [|done].
  apply IH; [|by eapply not_elem_of_cons].
  eapply open_step; [done | | done]. intros ->. apply Hn. left.
Qed.

(** X20. Nothing stops the estimator but [Close]: as long as no call of
    [Close] has been made, the channel is open, the context is not
    cancelled, the fetch loop and the canceller are both running, and the
    wait group counts two. *)
Theorem nothing_stops_before_Close (initGasPrice : Z) (actions : list Action) e :
  CloseCalled ∉ actions ->
  run (newGasPriceEstimator initGasPrice) actions = Some e ->
  closed e = false /\ ctxDone e = false /\ loop e <> Exited /\ canceller e = Waiting /\
  wg e = 2%nat.
Proof.
  intros Hn Hrun.
  assert (Hopen : open (newGasPriceEstimator initGasPrice)) by (by unfold open).
  destruct (open_run actions _ _ Hopen Hn Hrun) as (? & ? & ? & ? & ? & ? & ?). done.
Qed.

Lemma Close_under_way_can_return e :
  consistent e -> closing e = true ->
  exists (actions : list Action) e', run e actions = Some e' /\ closeOnce e' = true.
Proof.
  intros (Hwg & Hctx & Hcanc & Hclosing & _) Hcl.
  destruct (Hclosing Hcl) as [Hclosed Honce].
  destruct e as [price cl clg once done n lp cn lg]. simpl in *. subst once clg cl.
  destruct cn.
  - destruct lp; subst n.
    + exists [ClosedReceived; ContextDone; CloseReturned]. eexists. by simpl.
    + exists [ClosedReceived; PricerReturns (inr (ErrorString "context canceled")); ContextDone;
              CloseReturned]. eexists. by simpl.
    + exists [ClosedReceived; CloseReturned]. eexists. by simpl.
  - assert (done = true) as -> by (by apply Hctx).
    destruct lp; subst n.
    + exists [ContextDone; CloseReturned]. eexists. by simpl.
    + exists [PricerReturns (inr (ErrorString "context canceled")); ContextDone; CloseReturned].
      eexists. by simpl.
    + exists [CloseReturned]. eexists. by simpl.
Qed.

(** X21. [Close] cannot deadlock: from every state the estimator can
    reach, whatever the goroutines were doing and whether or not a call of
    [Close] is under way, there is a way on in which a call of [Close]
    returns, with both goroutines returned. *)
Theorem Close_can_always_return (initGasPrice : Z) (actions : list Action) e :
  run (newGasPriceEstimator initGasPrice) actions = Some e ->
  exists (more : list Action) e',
    run e more = Some e' /\ closeOnce e' = true /\ loop e' = Exited /\ canceller e' = Cancelled.
Proof.
  intros Hrun.
  assert (He : consistent e) by (eapply consistent_run; [apply consistent_new | exact Hrun]).
  assert (Hsome : exists (more : list Action) e', run e more = Some e' /\ closeOnce e' = true).
  { destruct (closeOnce e) eqn:Honce; [by exists [], e|].
    destruct (closing e) eqn:Hcl; [by apply Close_under_way_can_return|].
    destruct (Close_can_return e He Honce Hcl) as (more & e' & Hmore & Hdone).
    by exists (CloseCalled :: more), e'. }
  destruct Hsome as (more & e' & Hmore & Hdone). exists more, e'.
  split; [done|]. split; [done|]. apply closed_exited; [|done].
  by eapply consistent_run.
Qed.

End GasEstimatorTraceFacts.


Lemma nothing_stops_before_Close_witness :
  exists e : gasestimator.GasPriceEstimator,
    gasestimator.run (gasestimator.newGasPriceEstimator 1)
      [gasestimator.TimerFires;
       gasestimator.PricerReturns (inr (ErrorString "timeout"));
       gasestimator.SuggestGasPriceCalled; gasestimator.TimerFires] = Some e /\
    gasestimator.closed e = false /\ gasestimator.wg e = 2%nat.
Proof.
  eexists. split; [reflexivity|].
  assert (Hn : gasestimator.CloseCalled ∉
               [gasestimator.TimerFires;
                gasestimator.PricerReturns (inr (ErrorString "timeout"));
                gasestimator.SuggestGasPriceCalled; gasestimator.TimerFires]).
  { rewrite !not_elem_of_cons. split_and!; try done. apply not_elem_of_nil. }
  destruct (nothing_stops_before_Close 1 _ _ Hn eq_refl) as (Hc & _ & _ & _ & Hwg).
  by split.
Defined.

Lemma Close_can_always_return_witness :
  exists (more : list gasestimator.Action) (e' : gasestimator.GasPriceEstimator),
    gasestimator.run fetching_estimator more = Some e' /\
    gasestimator.closeOnce e' = true /\
    gasestimator.loop e' = gasestimator.Exited /\
    gasestimator.canceller e' = gasestimator.Cancelled.
Proof.
  exact (Close_can_always_return 7 [gasestimator.TimerFires] fetching_estimator eq_refl).
Defined.

Section BlockSourceLoopFacts.
Import blocksource.
Implicit Types (s : Loop) (w : World) (t : Turn).

Lemma iteration_returns (conf : Z) s w s' (evs : list Event) :
  iteration conf s w = (s', evs, true) ->
  (delayBeforeIteration s = true /\ closeDuringDelay w = true /\ evs = [] /\ s' = s) \/
  (closeDuringDelivery w = true /\ exists n b, CalledBlockByNumber n (inl b) ∈ evs).
Proof.
  iteration_cases.
  all: try (left; split_and!; try done;
            match goal with H : _ && _ = true |- _ => by apply andb_prop in H as [? ?] end).
  all: right; split; [done|]; eexists _, _.
  all: rewrite ?elem_of_app, ?elem_of_cons; eauto.
Qed.

Lemma loop_open (conf : Z) (ws : list World) : forall s,
  Forall (fun w => closeDuringDelay w = false /\ closeDuringDelivery w = false) ws ->
  length (loop conf s ws) = length ws /\ Forall (fun t => returned t = false) (loop conf s ws).
Proof.
  induction ws as [|w ws IH]; intros s Hws; simpl; [done|].
  inversion Hws as [|? ? [Hd Hv] Hrest]; subst.
  destruct (iteration conf s w) as [[s' evs] ret] eqn:Hit.
  destruct ret.
  - apply iteration_returns in Hit as [(_ & Hc & _)|[Hc _]]; congruence.
  - destruct (IH s' Hrest) as [Hlen Hall]. simpl. split; [by rewrite Hlen|].
    by constructor.
Qed.

Lemma loop_returned_last (conf : Z) (ws : list World) :
  forall s (pre : list Turn) t (post : list Turn),
  loop conf s ws = pre ++ t :: post -> returned t = true -> post = [].
Proof.
  induction ws as [|w ws IH]; intros s pre t post; simpl.
  { intros H. by destruct pre. }
  destruct (iteration conf s w) as [[s' evs] ret] eqn:Hit.
  destruct pre as [|t0 pre]; simpl; intros H Hret; simplify_eq/=.
  - done.
  - destruct ret; [by destruct pre|]. by eapply IH.
Qed.

(** X22. The goroutine of the block source returns only where a close
    signal wins a select: in the delay before a turn, with nothing done in
    that turn, or at the delivery of a block just fetched.  No error of the
    node makes it return.  The turn in which it returns is the last; and
    as long as no close signal comes, it takes every turn. *)
Theorem loop_returns_only_on_close cfg (ws : list World) :
  (forall t, t ∈ runAsync cfg ws -> returned t = true ->
     (delayBeforeIteration (before t) = true /\ closeDuringDelay (world t) = true /\
      events t = [] /\ after t = before t) \/
     (closeDuringDelivery (world t) = true /\
      exists n b, CalledBlockByNumber n (inl b) ∈ events t)) /\
  (forall (pre : list Turn) t (post : list Turn),
     runAsync cfg ws = pre ++ t :: post -> returned t = true -> post = []) /\
  (Forall (fun w => closeDuringDelay w = false /\ closeDuringDelivery w = false) ws ->
   length (runAsync cfg ws) = length ws /\
   Forall (fun t => returned t = false) (runAsync cfg ws)).
Proof.
  unfold runAsync. split_and!.
  - intros t Hin Hret. apply loop_turn in Hin as [Hit _]. rewrite Hret in Hit.
    by apply iteration_returns in Hit.
  - apply loop_returned_last.
  - apply loop_open.
Qed.

Lemma iteration_backoff (conf : Z) s w s' (evs : list Event) (ret : bool) :
  iteration conf s w = (s', evs, ret) ->
  (Slept ∈ evs -> delayBeforeIteration s = true) /\
  (delayBeforeIteration s = true -> Slept ∈ evs \/ (ret = true /\ evs = [])) /\
  (ret = false ->
   (delayBeforeIteration s' = false <-> exists b, Delivered b ∈ evs)).
Proof.
  iteration_cases.
  all: rewrite ?app_nil_r.
  all: split_and!;
    [ rewrite ?elem_of_app, ?elem_of_cons, ?elem_of_nil;
      try done; intros; by intuition simplify_eq
    | intros ?; rewrite ?elem_of_app, ?elem_of_cons; try done; eauto
    | intros ?; try done ].
  all: split; [try done; intros _; eexists; rewrite ?elem_of_app, ?elem_of_cons; eauto|].
  all: try done.
  all: intros [b Hb]; rewrite ?elem_of_app, ?elem_of_cons, ?elem_of_nil in Hb;
    by intuition simplify_eq.
Qed.

(** X23. The loop waits its four seconds before a turn exactly when the
    turn before delivered no block: a turn that delivers is followed at
    once by the next, and every other turn, whether the head query or the
    block fetch failed, the block was not there yet, or the head was not
    far enough, by a delayed one.  The first turn is not delayed. *)
Theorem loop_backoff cfg (ws : list World) :
  (forall t (post : list Turn), runAsync cfg ws = t :: post ->
     delayBeforeIteration (before t) = false /\ Slept ∉ events t) /\
  (forall t, t ∈ runAsync cfg ws ->
     (Slept ∈ events t -> delayBeforeIteration (before t) = true) /\
     (delayBeforeIteration (before t) = true ->
      Slept ∈ events t \/ (returned t = true /\ events t = []))) /\
  (forall (pre : list Turn) t u (post : list Turn),
     runAsync cfg ws = pre ++ t :: u :: post ->
     (delayBeforeIteration (before u) = false <-> exists b, Delivered b ∈ events t)).
Proof.
  unfold runAsync. split_and!.
  - intros t post Hrun.
    assert (Hin : t ∈ loop (confirmations_of cfg) (mkLoop None (StartBlock cfg) false) ws)
      by (rewrite Hrun; left).
    apply loop_turn in Hin as [Hit _].
    assert (Hb : before t = mkLoop None (StartBlock cfg) false).
    { destruct ws as [|w ws]; [done|]. simpl in Hrun.
      destruct (iteration _ _ w) as [[s' evs] ret]. by simplify_eq/=. }
    rewrite Hb in *. split; [done|].
    intros Hs. by apply (iteration_backoff _ _ _ _ _ _ Hit) in Hs.
  - intros t Hin. apply loop_turn in Hin as [Hit _].
    destruct (iteration_backoff _ _ _ _ _ _ Hit) as (H1 & H2 & _). by split.
  - intros pre t u post Hrun.
    rewrite (loop_chained _ _ _ _ _ _ _ Hrun).
    assert (Hin : t ∈ loop (confirmations_of cfg) (mkLoop None (StartBlock cfg) false) ws).
    { rewrite Hrun. apply elem_of_app. right. left. }
    apply loop_turn in Hin as [Hit _].
    destruct (returned t) eqn:Hret.
    + by pose proof (loop_returned_last _ _ _ _ _ _ Hrun Hret).
    + by apply (iteration_backoff _ _ _ _ _ _ Hit).
Qed.

Lemma iteration_requests (conf : Z) s w s' (evs : list Event) (ret : bool)
    (n : option Z) (r : Block + Error) :
  conf > 0 ->
  iteration conf s w = (s', evs, ret) ->
  CalledBlockByNumber n r ∈ evs ->
  n = requested_height conf (recentBlkNumber s') (currBlkNumber s) /\
  needToGetMostRecentBlockNumber (currBlkNumber s) (recentBlkNumber s') conf = false.
Proof.
  intros Hpos. unfold requested_height. iteration_cases.
  all: repeat match goal with
       | H : _ ∈ _ |- _ =>
           rewrite ?elem_of_app, ?elem_of_cons, ?elem_of_nil in H
       end.
  all: try (by intuition simplify_eq).
  all: intuition simplify_eq; try done; congruence.
Qed.


End BlockSourceLoopFacts.


Section EthFacts.
Import eth.
Context {FilterQuery LogT LogChan Subscription B Key : Type}.
Context {the_backend : @backend.Backend CallMsg FilterQuery Receipt LogT LogChan Subscription B}.
Variable NewKeyedTransactor : Key -> TransactOpts.
Variable Hex : N -> string.
Variable showReceipt : Receipt -> string.
Variable isNotFound : Error -> bool.
Implicit Types (e : Eth B) (tr : option Receipt) (err : error).

Lemma onlySuccessfulReceipt_result e (r : option Receipt * error) e' tr err :
  onlySuccessfulReceipt showReceipt e r = Some (e', (tr, err)) -> successful_or_error tr err.
Proof.
  unfold onlySuccessfulReceipt, successful_or_error.
  destruct r as [[r|] [e0|]]; try (intros [= <- <- <-]; by right).
  destruct (Z.eqb_spec (Status r) ReceiptStatusSuccessful) as [Hs|Hs]; simpl;
    intros [= <- <- <-]; [left; by exists r | by right].
Qed.

Lemma waitLoop_result (selects : list (option Error)) : forall e (txHash : Hash) e' tr err,
  waitLoop showReceipt isNotFound e txHash selects = client.Returns (e', (tr, err)) ->
  successful_or_error tr err /\
  (forall cause, err = Some cause -> isNotFound cause = true -> Some cause ∈ selects).
Proof.
  induction selects as [|[ctxErr|] selects IH]; intros e txHash e' tr err; simpl; [done| |].
  - intros [= <- <- <-]. split; [by right|]. intros cause [= ->] _. left.
  - destruct (backend.TransactionReceipt (Backend e) txHash) as [b r].
    destruct (onlySuccessfulReceipt showReceipt (set_Backend e b) r)
      as [[e1 [tr1 [err1|]]]|] eqn:Honly; [| |done].
    + destruct (isNotFound err1) eqn:Hnf.
      * intros Hrec. destruct (IH _ _ _ _ _ Hrec) as [Hres Hctx]. split; [done|].
        intros cause Hc Hn. right. by apply Hctx.
      * intros [= <- <- <-]. split; [by eapply onlySuccessfulReceipt_result|].
        intros cause [= <-] Hn. congruence.
    + intros [= <- <- <-]. split; [by eapply onlySuccessfulReceipt_result|]. done.
Qed.

(** X25. Whatever the backend answers and whichever way it runs,
    [WaitForTxReceipt] returns either a receipt whose status is successful,
    with a nil error, or no receipt with an error; and every error it
    returns is wrapped in the text that names the transaction. *)
Theorem WaitForTxReceipt_result e (commit : option (B -> B)) (txHash : Hash)
    (selects : list (option Error)) e' tr err :
  WaitForTxReceipt Hex showReceipt isNotFound e commit txHash selects =
    client.Returns (e', (tr, err)) ->
  (exists r : Receipt, tr = Some r /\ err = None /\ Status r = ReceiptStatusSuccessful) \/
  (tr = None /\
   exists cause : Error, err = Some (Errorf ("waiting for tx(" ++ Hex txHash ++ ")") cause)).
Proof.
  unfold WaitForTxReceipt. intros Hret.
  assert (Hinner : exists err0, successful_or_error tr err0 /\
                                err = wrapWaiting (Hex txHash) err0).
  { destruct commit as [commit|].
    - destruct (backend.TransactionReceipt _ txHash) as [b r].
      destruct (onlySuccessfulReceipt showReceipt _ r) as [[e1 [tr1 err1]]|] eqn:Honly; [|done].
      injection Hret as <- <- <-. exists err1. split; [|done].
      by eapply onlySuccessfulReceipt_result.
    - destruct (waitLoop showReceipt isNotFound _ txHash selects)
        as [[e1 [tr1 err1]]| |] eqn:Hloop; [|done..].
      injection Hret as <- <- <-. exists err1. split; [|done].
      by eapply waitLoop_result. }
  destruct Hinner as (err0 & [(r & -> & -> & Hs)|[-> Herr]] & ->).
  - left. by exists r.
  - right. split; [done|]. destruct err0 as [cause|]; [by exists cause | done].
Qed.

(** X26. Without a [Commit] on the backend, [WaitForTxReceipt] asks for
    the receipt once per tick of its timer and goes on as long as the
    answer is the not-found error of go-ethereum: it never returns that
    answer, and it is left waiting only if the context was not cancelled in
    any of the selects.  A cancelled context ends it with the error of the
    context, wrapped, before the backend is asked again.  With a [Commit]
    on the backend the context is not looked at and the answer of the one
    call is returned, the not-found error too. *)
Theorem WaitForTxReceipt_polling e (txHash : Hash) (selects : list (option Error)) :
  (forall (ctxErr : Error),
     WaitForTxReceipt Hex showReceipt isNotFound e None txHash (Some ctxErr :: selects) =
       client.Returns (Log e "Waiting for transaction",
                       (None, Some (Errorf ("waiting for tx(" ++ Hex txHash ++ ")") ctxErr)))) /\
  (WaitForTxReceipt Hex showReceipt isNotFound e None txHash selects = client.OutOfFuel ->
   Forall (fun s => s = None) selects) /\
  (forall e' tr cause,
     waitLoop showReceipt isNotFound e txHash selects = client.Returns (e', (tr, Some cause)) ->
     isNotFound cause = true -> Some cause ∈ selects) /\
  (forall commit : B -> B,
     WaitForTxReceipt Hex showReceipt isNotFound e (Some commit) txHash selects =
       WaitForTxReceipt Hex showReceipt isNotFound e (Some commit) txHash [] /\
     WaitForTxReceipt Hex showReceipt isNotFound e (Some commit) txHash selects <>
       client.OutOfFuel /\
     forall b cause,
       backend.TransactionReceipt (commit (Backend (Log e "Waiting for transaction"))) txHash =
         (b, (None, Some cause)) ->
       WaitForTxReceipt Hex showReceipt isNotFound e (Some commit) txHash selects =
         client.Returns (set_Backend (Log e "Waiting for transaction") b,
                         (None, Some (Errorf ("waiting for tx(" ++ Hex txHash ++ ")") cause)))).
Proof.
  split_and!.
  - done.
  - unfold WaitForTxReceipt. generalize (Log e "Waiting for transaction"). clear e.
    induction selects as [|[ctxErr|] selects IH]; intros e; simpl; [done..|].
    destruct (backend.TransactionReceipt (Backend e) txHash) as [b r].
    destruct (onlySuccessfulReceipt showReceipt (set_Backend e b) r)
      as [[e1 [tr1 [err1|]]]|]; [|done..].
    destruct (isNotFound err1); [|done]. intros H. constructor; [done|]. by apply (IH e1).
  - intros e' tr cause Hloop Hn. by apply (waitLoop_result _ _ _ _ _ _ Hloop).
  - intros commit. unfold WaitForTxReceipt. split; [done|]. split.
    + destruct (backend.TransactionReceipt _ txHash) as [b r].
      by destruct (onlySuccessfulReceipt showReceipt _ r) as [[e1 [tr1 err1]]|].
    + intros b cause Hr. by rewrite Hr.
Qed.

(** X27. [Session.IsEnoughFunds] panics when the options of the session
    have no gas price, which they have from the [Eth] as it was when the
    session was made: a session of a new [Eth] panics whatever price the
    [Eth] has got since.  With a price, the least balance returned is the
    gas limit times the price, on an error too; the funds are enough
    exactly when the balance is not below it, so for any balance when the
    gas limit is negative; and the error of the backend is returned
    wrapped, with the funds not enough. *)
Theorem IsEnoughFunds_spec e (opts : TransactOpts) (gasLimit : Z) :
  (GasPrice opts = None -> IsEnoughFunds Hex e opts gasLimit = None) /\
  (forall (b0 : B) (lf : bool) (key : Key),
     IsEnoughFunds Hex e (NewSession NewKeyedTransactor (New b0 lf) key) gasLimit = None) /\
  (forall e' (enough : bool) (minBalance : bigInt) err,
     IsEnoughFunds Hex e opts gasLimit = Some (e', (enough, minBalance, err)) ->
     exists gasPrice : Z,
       GasPrice opts = Some gasPrice /\ minBalance = Some (gasLimit * gasPrice) /\
       match backend.BalanceAt (Backend e) (From opts) None with
       | (b, (balance, Some cause)) =>
           enough = false /\
           err = Some (Errorf ("backend BalanceAt(" ++ Hex (From opts) ++ ")") cause)
       | (b, (balance, None)) =>
           err = None /\
           exists bal : Z, balance = Some bal /\ (enough = true <-> gasLimit * gasPrice <= bal)
       end).
Proof.
  unfold IsEnoughFunds. split_and!.
  - by intros ->.
  - done.
  - intros e' enough minBalance err. destruct (GasPrice opts) as [gasPrice|]; [|done].
    replace (Backend (Log e "Getting balance")) with (Backend e)
      by (unfold Log; by destruct (LogFun e)).
    destruct (backend.BalanceAt (Backend e) (From opts) None) as [b [balance [cause|]]].
    + intros [= <- <- <- <-]. by exists gasPrice.
    + destruct balance as [bal|]; [|done].
      destruct (Z.eqb_spec (blocksource.Cmp bal (gasLimit * gasPrice)) (-1)) as [Hc|Hc];
        intros [= <- <- <- <-]; exists gasPrice; split_and!; try done; exists bal;
        (split; [done|]); unfold blocksource.Cmp in Hc;
        destruct (Z.compare_spec bal (gasLimit * gasPrice)); split; try done; lia.
Qed.

End EthFacts.

Lemma WaitForTxReceipt_result_witness :
  let e := eth.New (eth.mkLagging 3 100) true in
  exists (e' : eth.Eth eth.lagging) (r : eth.Receipt),
    eth.WaitForTxReceipt (fun _ => "0x05"%string) (fun _ => "receipt"%string) (fun _ => false)
                         e None 5%N [None] = client.Returns (e', (Some r, None)) /\
    eth.Status r = eth.ReceiptStatusSuccessful.
Proof.
  intros e.
  assert (H : exists (e' : eth.Eth eth.lagging) (r : eth.Receipt),
             eth.WaitForTxReceipt (fun _ => "0x05"%string) (fun _ => "receipt"%string)
               (fun _ => false) e None 5%N [None] = client.Returns (e', (Some r, None)))
    by (eexists _, _; reflexivity).
  destruct H as (e' & r & H). exists e', r. split; [exact H|].
  destruct (WaitForTxReceipt_result (fun _ => "0x05"%string) (fun _ => "receipt"%string)
              (fun _ => false) e None 5%N [None] e' (Some r) None H)
    as [(r0 & Hr & _ & Hs)|[Hnone _]]; [|discriminate Hnone].
  injection Hr as <-. exact Hs.
Defined.

(** Fifty units of gas at the price 2 need the balance 100. *)
Example IsEnoughFunds_at_the_limit :
  let e := eth.New (eth.mkLagging 3 100) false in
  let opts := eth.mkTransactOpts 7%N None None None (Some 2) 0 in
  exists e' : eth.Eth eth.lagging,
    eth.IsEnoughFunds (fun _ => "0x07"%string) e opts 50 = Some (e', (true, Some 100, None)) /\
    eth.IsEnoughFunds (fun _ => "0x07"%string) e opts 51 = Some (e', (false, Some 102, None)).
Proof.
  intros e opts. exists e. split; reflexivity.
Qed.

Section TransferFacts.
Import eth.
Context {FilterQuery LogT LogChan Subscription B : Type}.
Context {the_backend : @backend.Backend CallMsg FilterQuery Receipt LogT LogChan Subscription B}.


Lemma Transfer_nonce_from_backend {C : Type}
    {C_backend : @backend.Backend CallMsg FilterQuery Receipt LogT LogChan Subscription C}
    (ct : C) (opts : TransactOpts) (to : N) (input : list Byte.byte) (p : Z) :
  Nonce opts = None -> GasPrice opts = Some p -> GasLimit opts <> 0 ->
  Signer opts = Some signing ->
  Transfer ct opts to input =
    let '(ct1, (nonce, err)) := backend.PendingNonceAt ct (From opts) in
    match err with
    | Some err => (ct1, (None, Some (Errorf "failed to retrieve account nonce" err)))
    | None =>
        let tx := backend.mkTransaction nonce (From opts, None) in
        let '(ct2, err) := backend.SendTransaction ct1 tx in
        (ct2, (match err with Some _ => None | None => Some tx end, err))
    end.
Proof.
  intros Hn Hp Hl Hs. unfold Transfer. rewrite Hn, Hp, Hs.
  destruct (Z.eqb_spec (GasLimit opts) 0) as [|_]; [done|].
  destruct (backend.PendingNonceAt ct (From opts)) as [ct1 [nonce [e1|]]]; [done|].
  unfold signing. cbn [raw_nonce].
  by destruct (backend.SendTransaction ct1 _) as [ct2 [e2|]].
Qed.

Lemma Transfer_through_decorator (b : backend.HandleNonceBackend B) (opts : TransactOpts)
    (to : N) (input : list Byte.byte) (w p : Z) (tx : backend.Transaction) :
  Nonce opts = None -> GasPrice opts = Some p -> GasLimit opts <> 0 ->
  Signer opts = Some signing ->
  backend.addressNonce b !! From opts = Some w ->
  (Transfer b opts to input).2 = (Some tx, None) ->
  exists (i : B) (v : Z),
    backend.PendingNonceAt (backend.inner b) (From opts) = (i, (v, None)) /\
    backend.Nonce tx = Z.max v w /\
    (0 <= backend.Nonce tx < uint64_max ->
     backend.addressNonce (Transfer b opts to input).1 !! From opts =
       Some (backend.Nonce tx + 1)).
Proof.
  intros Hn Hp Hl Hs Hw. rewrite (Transfer_nonce_from_backend _ opts _ _ p) by done.
  cbn [backend.PendingNonceAt backend.SendTransaction backend_sim.HandleNonceBackend_Backend].
  set (A := From opts) in *.
  destruct (backend.PendingNonceAt (backend.inner b) A) as [i1 [v1 [e1|]]] eqn:Hi1.
  { unfold backend.HandleNonceBackend_PendingNonceAt. by rewrite Hi1. }
  destruct (PendingNonceAt_watched b A w Hw i1 v1 Hi1) as [Hret1 Htab1].
  destruct (backend.HandleNonceBackend_PendingNonceAt b A) as [b1 [n1 err1]] eqn:Hcall1.
  simpl in Hret1, Htab1. injection Hret1 as -> ->.
  set (t1 := backend.mkTransaction (Z.max v1 w) (A, None)).
  unfold backend.HandleNonceBackend_SendTransaction.
  destruct (backend.SendTransaction (backend.inner b1) t1) as [i2 [e2|]] eqn:Hsend1; [done|].
  simpl. intros [= <-]. exists i1, v1. split; [done|]. split; [done|]. simpl. intros Hrange.
  rewrite (incrementNonce_watched _ t1 A (Z.max v1 w)) by done. simpl.
  rewrite wrap_uint64_small by (unfold uint64_max in *; lia).
  destruct (Z.gtb_spec (Z.max v1 w + 1) (Z.max v1 w)); [|lia]. simpl.
  by rewrite lookup_insert_eq.
Qed.


End TransferFacts.


Section SimulatedFacts.
Import backend simulated.
Context {CallMsg FilterQuery Receipt Log LogChan Subscription S : Type}.
Context {simulated_backend : @Backend CallMsg FilterQuery Receipt Log LogChan Subscription S}.
Context {simulated_chain : backend_sim.commiterRollbacker S}.
Variable TxHash : Transaction -> Hash.
Variable NotFound : Error.
Implicit Types (ext : SimulatedBackendExt S) (tx : Transaction).

Lemma forwardExt_txs {R : Type} ext (call : S -> S * R) : txs (forwardExt ext call).1 = txs ext.
Proof. unfold forwardExt. by destruct (call (b ext)). Qed.

Lemma execExt_remembers (c : @ExtCall CallMsg FilterQuery LogChan) ext (h : Hash) :
  is_Some (txs ext !! h) -> is_Some (txs (execExt TxHash NotFound c ext) !! h).
Proof.
  intros Hh. destruct c as [c| |]; [|done..].
  destruct c; simpl; rewrite ?forwardExt_txs; try done.
  - unfold SimulatedBackendExt_SendTransaction.
    destruct (SendTransaction (b ext) tx) as [s [e|]]; simpl; [done|].
    destruct (decide (TxHash tx = h)) as [->|Hne].
    + rewrite lookup_insert_eq. eauto.
    + by rewrite lookup_insert_ne.
  - unfold SimulatedBackendExt_TransactionByHash.
    destruct (txs ext !! txHash); [|done].
    by destruct (TransactionReceipt (b ext) txHash) as [s [txr e]].
Qed.

(** X30. [SimulatedBackendExt] remembers the transactions it has sent with
    success, by hash: [TransactionByHash] returns such a transaction with a
    nil error, pending exactly when the chain gives no receipt for it,
    whatever error comes with that; no later call makes it forget a hash,
    [Rollback] neither, after which the transaction is still found.  A
    transaction the chain refused is not stored, and for a hash it does not
    know [TransactionByHash] returns the not-found error without asking the
    chain. *)
Theorem SimulatedBackendExt_remembers ext tx (h : Hash) :
  (forall s, SendTransaction (b ext) tx = (s, None) ->
     let ext' := (SimulatedBackendExt_SendTransaction TxHash ext tx).1 in
     (SimulatedBackendExt_SendTransaction TxHash ext tx).2 = None /\
     forall s' txr e, TransactionReceipt (b ext') (TxHash tx) = (s', (txr, e)) ->
       (SimulatedBackendExt_TransactionByHash NotFound ext' (TxHash tx)).2 =
         (Some tx, if txr is None then true else false, None)) /\
  (forall s e, SendTransaction (b ext) tx = (s, Some e) ->
     SimulatedBackendExt_SendTransaction TxHash ext tx = (set_b ext s, Some e)) /\
  (forall calls : list (@ExtCall CallMsg FilterQuery LogChan),
     is_Some (txs ext !! h) -> is_Some (txs (runExt TxHash NotFound calls ext) !! h)) /\
  (txs ext !! h = None ->
   SimulatedBackendExt_TransactionByHash NotFound ext h = (ext, (None, false, Some NotFound))).
Proof.
  split_and!.
  - intros s Hsend. unfold SimulatedBackendExt_SendTransaction. rewrite Hsend. simpl.
    split; [done|]. intros s' txr e Hr. unfold SimulatedBackendExt_TransactionByHash. simpl.
    rewrite lookup_insert_eq, Hr. done.
  - intros s e Hsend. unfold SimulatedBackendExt_SendTransaction. by rewrite Hsend.
  - intros calls. revert ext. induction calls as [|c calls IH]; intros ext Hh; simpl; [done|].
    apply IH. by apply execExt_remembers.
  - intros Hnone. unfold SimulatedBackendExt_TransactionByHash. by rewrite Hnone.
Qed.

End SimulatedFacts.
